(** * jsonpath: a shallow embedding of [jsonpath/jsp.py]

    The development has two layers.

    - A value-level model: JSON data are trees ([Json]), a Python list is a
      Rocq list, a Python [dict] is an association list in insertion order.
      The parser is a state-and-exception monad over the runner object
      ([JsonPathQueryRunner]); the selector functions are list functions.
    - A store-level model ([Module Heap]): Python lists and dicts are
      objects in a store, addressed by references, and the list methods the
      code calls ([append], [extend], [pop]) update the store in place.  It
      is used for the statements about what the code writes to.
    - The command line ([jsonpath/cli.py]) is modelled on top of the
      value-level [query], over the JSON codec it calls.

    Modelling boundaries, stated once:
    - a character is a code point below 256 (Rocq's [ascii], read as
      Latin-1); [str.isnumeric] and [int] are modelled exactly on that range;
    - integers are [Z]; [int] on a string has the digit limit of CPython
      3.11 and later at its default, 4300 digits
      ([sys.get_int_max_str_digits()]), which the code does not change;
    - the depth of the calls of [child] to itself is the fuel of [child]:
      [query] gives it one more than the length of the path, which is always
      enough, and a run with less stops with [OutOfFuel], as Python stops
      with [RecursionError] when the interpreter's stack is exhausted;
      memory is not modelled. *)

From Stdlib Require Import ZArith String Ascii List Bool Lia.
From Stdlib Require Import DecimalString DecimalPos DecimalZ SpecFloat.
From stdpp Require Import base option list strings gmap.

Local Open Scope string_scope.
Local Open Scope list_scope.

(** ** Python primitives *)

Module Py.

(** The double quote character (code point 34). *)
Definition dquote : ascii := "034"%char.

Definition chr_str (c : ascii) : string := String c EmptyString.

(** The decimal numeral of [n]: what [str(n)] and an f-string print.  The
    code prints positions in the path only, far below the digit limit that
    [str] has as [int] does. *)
Definition str_int (n : Z) : string :=
  NilZero.string_of_int (Z.to_int n).

Definition code (c : ascii) : nat := nat_of_ascii c.

(** [c.isdecimal()]: below 256 the decimal characters are '0'..'9'. *)
Definition isdecimal (c : ascii) : bool :=
  (48 <=? code c)%nat && (code c <=? 57)%nat.

(** [c.isnumeric()]: below 256 the numeric characters are the ten digits,
    the superscripts U+00B2, U+00B3, U+00B9 and the vulgar fractions
    U+00BC, U+00BD, U+00BE. *)
Definition isnumeric (c : ascii) : bool :=
  isdecimal c
  || existsb (Nat.eqb (code c)) (178 :: 179 :: 185 :: 188 :: 189 :: 190 :: nil)%nat.

Definition digit_value (c : ascii) : Z := Z.of_nat (code c) - 48.

(** Value of a run of decimal digits, most significant first. *)
Definition digits_value (ds : list ascii) : Z :=
  fold_left (fun acc c => 10 * acc + digit_value c)%Z ds 0%Z.

Definition int_digits (ds : list ascii) : option Z :=
  match ds with
  | nil => None
  | _ => if forallb isdecimal ds then Some (digits_value ds) else None
  end.

(** The value of a decimal literal: an optional '-' followed by decimal
    digits, at least one.  [None]: the text is no such literal. *)
Definition int_decimal (s : list ascii) : option Z :=
  match s with
  | c :: ds => if Ascii.eqb c "-"
               then option_map Z.opp (int_digits ds)
               else int_digits s
  | nil => None
  end.

(** [sys.get_int_max_str_digits()], at its default. *)
Definition int_max_str_digits : Z := 4300.

(** The number of decimal digits that a text starts with. *)
Fixpoint leading_digits (ds : list ascii) : nat :=
  match ds with
  | c :: ds' => if isdecimal c then S (leading_digits ds') else O
  | nil => O
  end.

(** The text after the sign. *)
Definition int_unsigned (s : list ascii) : list ascii :=
  match s with
  | c :: ds => if Ascii.eqb c "-" then ds else s
  | nil => nil
  end.

(** What [int(s)] does: it returns an integer, or raises one of two
    [ValueError]s: "invalid literal for int() with base 10", or "Exceeds
    the limit (4300 digits) for integer string conversion", with the number
    of digits it counted. *)
Inductive int_result : Type :=
| IntValue (n : Z)
| IntInvalid
| IntTooLong (digits : Z).

(** [int(s)] on the strings [num] builds: an optional '-' followed by
    numeric characters.  CPython scans the decimal digits that follow the
    sign, leading zeros among them, and refuses a run of more than
    [int_max_str_digits] before it looks at what follows the run; then it
    refuses a text that is not a decimal literal (no digit at all, or a
    numeric character that is not a decimal digit). *)
Definition int_ (s : list ascii) : int_result :=
  let digits := Z.of_nat (leading_digits (int_unsigned s)) in
  if (int_max_str_digits <? digits)%Z then IntTooLong digits
  else match int_decimal s with
       | Some n => IntValue n
       | None => IntInvalid
       end.

(** [repr(s)] cut to 200 characters, as the format [%.200R] of the
    message of [int] prints it, for a text of '-' and numeric characters:
    the text between single quotes. *)
Definition repr_200 (s : string) : string :=
  substring 0 200 (String "'"%char (s ++ "'")%string).

(** The messages of the two [ValueError]s of [int]. *)
Definition int_literal_msg (k : string) : string :=
  ("invalid literal for int() with base 10: " ++ repr_200 k)%string.

Definition int_limit_msg (digits : Z) : string :=
  ("Exceeds the limit (4300 digits) for integer string conversion: value has "
   ++ str_int digits
   ++ " digits; use sys.set_int_max_str_digits() to increase the limit")%string.

(** [s[i]] on a string: a negative index counts from the end; [None]
    stands for [IndexError]. *)
Definition str_index (s : string) (i : Z) : option ascii :=
  let n := Z.of_nat (String.length s) in
  let j := (if i <? 0 then i + n else i)%Z in
  if ((0 <=? j) && (j <? n))%Z then String.get (Z.to_nat j) s else None.

(** A [slice] object: each of start, stop and step is an integer or
    [None]. *)
Record PySlice : Type := mk_slice {
  start : option Z;
  stop : option Z;
  step : option Z
}.

(** [slice.indices(len)] as CPython computes it.  [None] stands for
    [ValueError: slice step cannot be zero]. *)
Definition slice_indices (s : PySlice) (len : Z) : option (Z * Z * Z) :=
  let st := default 1%Z (step s) in
  if (st =? 0)%Z then None else
  let lower := (if st <? 0 then -1 else 0)%Z in
  let upper := (if st <? 0 then len - 1 else len)%Z in
  let clip (v : Z) : Z :=
    (if v <? 0 then Z.max (v + len) lower else Z.min v upper)%Z in
  let b := match start s with
           | None => (if st <? 0 then upper else lower)%Z
           | Some v => clip v
           end in
  let e := match stop s with
           | None => (if st <? 0 then lower else upper)%Z
           | Some v => clip v
           end in
  Some (b, e, st).

(** Number of indices of [range(b, e, st)]. *)
Definition slice_length (b e st : Z) : nat :=
  (if st <? 0
   then (if e <? b then Z.to_nat ((b - e - 1) / (- st) + 1) else 0%nat)
   else (if b <? e then Z.to_nat ((e - b - 1) / st + 1) else 0%nat))%Z.

(** [l[s]] for a list [l] and a slice [s]: a new list. *)
Definition list_getslice {A : Type} (l : list A) (s : PySlice)
  : option (list A) :=
  match slice_indices s (Z.of_nat (List.length l)) with
  | None => None
  | Some (b, e, st) =>
      Some (flat_map
              (fun i => match nth_error l (Z.to_nat (b + Z.of_nat i * st)) with
                        | Some x => x :: nil
                        | None => nil
                        end)
              (seq 0 (slice_length b e st)))
  end.

(** [l.pop()]: the last item and the list without it; [None] stands for
    [IndexError: pop from empty list]. *)
Definition list_pop {A : Type} (l : list A) : option (A * list A) :=
  match rev l with
  | nil => None
  | x :: r => Some (x, rev r)
  end.

End Py.
Import Py.

(** ** Data model *)

(** [Json = Union[None, int, float, Dict[str, Json], List[Json]]].
    [JBool] and [JStr] are the other values [json.loads] hands to [query]
    from the command line; like the other scalars they are neither [dict]
    nor [list]. *)
#[local] Unset Elimination Schemes.
Inductive Json : Type :=
| JNull
| JInt (n : Z)
| JFloat (f : spec_float)
| JBool (b : bool)
| JStr (s : string)
| JObject (items : list (string * Json))
| JArray (elems : list Json).
#[local] Set Elimination Schemes.

(** [key in d] and [d[key]] in one lookup. *)
Fixpoint dict_get {V : Type} (key : string) (d : list (string * V)) : option V :=
  match d with
  | nil => None
  | (k, v) :: d' => if String.eqb k key then Some v else dict_get key d'
  end.

(** [d.values()], in insertion order. *)
Definition dict_values {V : Type} (d : list (string * V)) : list V := map snd d.

(** Induction on trees: the values of an Object and the items of an Array
    satisfy the property. *)
Section JsonInduction.
Variable P : Json -> Prop.
Hypothesis HNull : P JNull.
Hypothesis HInt : forall n, P (JInt n).
Hypothesis HFloat : forall f, P (JFloat f).
Hypothesis HBool : forall b, P (JBool b).
Hypothesis HStr : forall s, P (JStr s).
Hypothesis HObject : forall d, Forall P (dict_values d) -> P (JObject d).
Hypothesis HArray : forall l, Forall P l -> P (JArray l).

Fixpoint Json_ind (j : Json) : P j :=
  match j with
  | JNull => HNull
  | JInt n => HInt n
  | JFloat f => HFloat f
  | JBool b => HBool b
  | JStr s => HStr s
  | JObject d =>
      HObject d
        ((fix values (d : list (string * Json)) : Forall P (dict_values d) :=
            match d return Forall P (dict_values d) with
            | nil => @List.Forall_nil _ P
            | kv :: d' => @List.Forall_cons _ P (snd kv) _ (Json_ind (snd kv)) (values d')
            end) d)
  | JArray l =>
      HArray l
        ((fix items (l : list Json) : Forall P l :=
            match l return Forall P l with
            | nil => @List.Forall_nil _ P
            | x :: l' => @List.Forall_cons _ P x _ (Json_ind x) (items l')
            end) l)
  end.
End JsonInduction.

(** What [key()] and [bracket()] return: [Union[str, Slice]]. *)
Inductive KeyOrSlice : Type :=
| IsStr (k : string)
| IsSlice (s : PySlice).

(** ** Exceptions and outcomes *)

Inductive exn : Type :=
| ParseError (msg : string)
| AssertionError (msg : string)
| ValueError (msg : string)
| IndexError (msg : string)
| TypeError (msg : string).

(** The outcome of running a piece of code: it returns, it raises, or the
    model's fuel ran out before it finished. *)
Inductive outcome (A : Type) : Type :=
| Returns (a : A)
| Raises (e : exn)
| OutOfFuel.
Arguments Returns {A} a.
Arguments Raises {A} e.
Arguments OutOfFuel {A}.

Definition is_ParseError {A : Type} (o : outcome A) : Prop :=
  exists msg, o = Raises (ParseError msg).

Definition step_zero_msg : string := "slice step cannot be zero".

(** Code that runs on a mutable state [S]: an outcome and the state it
    leaves behind.  A raise keeps the state reached so far, as in Python. *)
Section StateAndExceptions.
Context {S : Type}.

Definition ST (A : Type) : Type := S -> outcome A * S.

Definition ret {A : Type} (a : A) : ST A := fun s => (Returns a, s).

Definition bind {A B : Type} (m : ST A) (k : A -> ST B) : ST B :=
  fun s => match m s with
           | (Returns a, s') => k a s'
           | (Raises e, s') => (Raises e, s')
           | (OutOfFuel, s') => (OutOfFuel, s')
           end.

Definition raise {A : Type} (e : exn) : ST A := fun s => (Raises e, s).

Definition out_of_fuel {A : Type} : ST A := fun s => (OutOfFuel, s).

Definition get : ST S := fun s => (Returns s, s).

Definition put (s : S) : ST unit := fun _ => (Returns tt, s).

(** [for x in xs: body(x)], over the items [xs] had at loop entry. *)
Fixpoint for_each {A : Type} (xs : list A) (body : A -> ST unit) : ST unit :=
  match xs with
  | nil => ret tt
  | x :: xs' => bind (body x) (fun _ => for_each xs' body)
  end.

End StateAndExceptions.
Arguments ST S A : clear implicits.

Declare Scope py_scope.
Delimit Scope py_scope with py.
Notation "x <- m ;; k" := (bind m (fun x => k))
  (at level 100, m at next level, k at level 200, right associativity,
   only parsing) : py_scope.
Notation "m ;; k" := (bind m (fun _ => k))
  (at level 100, k at level 200, right associativity, only parsing) : py_scope.
Local Open Scope py_scope.

(** ** The runner object

    [JsonPathQueryRunner] is a dataclass with fields [data], [path], [idx],
    [_curr] and [results].  The cursor methods never look at [data] or
    [results], so the record is generic in their types: trees and lists of
    trees in the value-level model, references in the store-level model. *)

Record Runner (D R : Type) : Type := mk_Runner {
  data : D;
  path : string;
  idx : Z;
  _curr : option ascii;
  results : R
}.
Arguments mk_Runner {D R}.
Arguments data {D R}.
Arguments path {D R}.
Arguments idx {D R}.
Arguments _curr {D R}.
Arguments results {D R}.

(** ** Cursor and selector parser: the methods of the runner *)

Section Parser.
Context {D R : Type}.
#[local] Abbreviation M := (ST (Runner D R)).

Definition set_idx (i : Z) (r : Runner D R) : Runner D R :=
  mk_Runner (data r) (path r) i (_curr r) (results r).

Definition set_curr (c : option ascii) (r : Runner D R) : Runner D R :=
  mk_Runner (data r) (path r) (idx r) c (results r).

Definition set_results (v : R) (r : Runner D R) : Runner D R :=
  mk_Runner (data r) (path r) (idx r) (_curr r) v.

(** [__post_init__]: [idx = 0], [results = []] (here: [res0]), and
    [_curr = path[0]] unless the path is empty. *)
Definition new_runner (d : D) (p : string) (res0 : R) : Runner D R :=
  mk_Runner d p 0%Z (String.get 0 p) res0.

Definition at_end (r : Runner D R) : bool :=
  (Z.of_nat (String.length (path r)) <=? idx r)%Z.

Definition advance : M unit :=
  r <- get ;;
  if at_end r then raise (AssertionError "") else
  let r1 := set_idx (idx r + 1)%Z r in
  put r1 ;;
  if negb (at_end r1) then
    match str_index (path r1) (idx r1) with
    | Some c => put (set_curr (Some c) r1)
    | None => raise (IndexError "string index out of range")
    end
  else put (set_curr None r1).

Definition match_ (c : ascii) : M bool :=
  r <- get ;;
  if decide (_curr r = Some c)
  then advance ;; ret true
  else ret false.

(** The [curr] property: [assert self._curr is not None]. *)
Definition curr : M ascii :=
  r <- get ;;
  match _curr r with
  | Some c => ret c
  | None => raise (AssertionError "")
  end.

Definition prev : M ascii :=
  r <- get ;;
  match str_index (path r) (idx r - 1)%Z with
  | Some c => ret c
  | None => raise (IndexError "string index out of range")
  end.

Definition consume (c : ascii) (where_ : string) : M unit :=
  r <- get ;;
  ok <- (if at_end r then ret false else match_ c) ;;
  if ok then ret tt
  else r' <- get ;;
       raise (ParseError ("Expected '" ++ chr_str c ++ "' " ++ where_
                          ++ " (pos " ++ str_int (idx r') ++ ")."))%string.

(** Upper bound on the iterations of a scanning loop: every iteration
    advances, and [advance] is impossible at the end of the path. *)
Definition remaining (r : Runner D R) : nat :=
  Z.to_nat (Z.of_nat (String.length (path r)) - idx r).

(** [while not self.at_end() and self.curr.isnumeric()] in [num]. *)
Fixpoint num_loop (fuel : nat) (k : list ascii) : M (list ascii) :=
  r <- get ;;
  if at_end r then ret k else
  c <- curr ;;
  if isnumeric c then
    match fuel with
    | O => out_of_fuel
    | S fuel' => advance ;; num_loop fuel' (k ++ c :: nil)
    end
  else ret k.

Definition num : M (option Z) :=
  neg <- match_ "-" ;;
  r <- get ;;
  k <- num_loop (remaining r) (if neg then "-"%char :: nil else nil) ;;
  match k with
  | nil => ret None
  | _ => match int_ k with
         | IntValue n => ret (Some n)
         | IntInvalid =>
             raise (ValueError (int_literal_msg (string_of_list_ascii k)))
         | IntTooLong digits => raise (ValueError (int_limit_msg digits))
         end
  end.

Definition slice : M (option PySlice) :=
  start <- num ;;
  colon <- match_ ":" ;;
  if colon then
    end_ <- num ;;
    colon2 <- match_ ":" ;;
    if colon2 then
      step <- num ;;
      ret (Some (mk_slice start end_ step))
    else ret (Some (mk_slice start end_ None))
  else
    match start with
    | None => ret None
    | Some n =>
        if (n =? -1)%Z
        then ret (Some (mk_slice (Some n) None None))
        else ret (Some (mk_slice (Some n) (Some (n + 1)%Z) None))
    end.

(** [any(self.match(c) for c in cs)]: stops at the first match. *)
Fixpoint any_match (cs : list ascii) : M bool :=
  match cs with
  | nil => ret false
  | c :: cs' => b <- match_ c ;; if b then ret true else any_match cs'
  end.

(** The scanning loop of [key]. *)
Fixpoint key_loop (fuel : nat) (k : list ascii) : M (list ascii) :=
  r <- get ;;
  if at_end r then ret k else
  c <- curr ;;
  if existsb (Ascii.eqb c) ("."%char :: "["%char :: nil) then ret k else
  if existsb (Ascii.eqb c) ("'"%char :: dquote :: nil)
  then raise (ParseError ("Forbidden char in key value: '" ++ chr_str c ++ "'."))%string
  else
    match fuel with
    | O => out_of_fuel
    | S fuel' => advance ;; key_loop fuel' (k ++ c :: nil)
    end.

Definition key : M KeyOrSlice :=
  r <- get ;;
  if at_end r then raise (ParseError "Expected key at the end of JSONPath.") else
  bad <- any_match ("."%char :: "$"%char :: "["%char :: nil) ;;
  if bad then
    p <- prev ;;
    r' <- get ;;
    raise (ParseError ("Key name can't start with a '" ++ chr_str p
                       ++ "' (pos: " ++ str_int (idx r' + 1) ++ ")"))%string
  else
    sl <- slice ;;
    match sl with
    | Some s => ret (IsSlice s)
    | None =>
        r1 <- get ;;
        k <- key_loop (remaining r1) nil ;;
        ret (IsStr (string_of_list_ascii k))
    end.

(** The scanning loop of a quoted key in [bracket].  The loop tests
    [self._curr] directly; at a position before the end it always holds a
    character (joining a [None] would be a [TypeError]). *)
Fixpoint quoted_loop (fuel : nat) (quote_type : ascii) (k : list ascii)
  : M (list ascii) :=
  r <- get ;;
  if at_end r then ret k else
  if decide (_curr r = Some quote_type) then ret k else
  match _curr r with
  | None => raise (TypeError "sequence item: expected str instance, NoneType found")
  | Some c =>
      match fuel with
      | O => out_of_fuel
      | S fuel' => advance ;; quoted_loop fuel' quote_type (k ++ c :: nil)
      end
  end.

(** The quoted-key branch of [bracket], after the opening quote. *)
Definition quoted (quote_type : ascii) : M KeyOrSlice :=
  r <- get ;;
  let str_beg := idx r in
  k <- quoted_loop (remaining r) quote_type nil ;;
  r1 <- get ;;
  if at_end r1
  then raise (ParseError ("String started at pos " ++ str_int str_beg
                          ++ " was not closed."))%string
  else
    closed <- match_ quote_type ;;
    if negb closed then raise (AssertionError "Internal error.") else
    consume "]" ("after " ++ chr_str quote_type)%string ;;
    ret (IsStr (string_of_list_ascii k)).

Definition bracket : M KeyOrSlice :=
  star <- match_ "*" ;;
  if star then
    consume "]" "after '*'" ;;
    ret (IsStr "*")
  else
    q1 <- match_ "'" ;;
    if q1 then quoted "'"
    else
      q2 <- match_ dquote ;;
      if q2 then quoted dquote
      else
        result <- slice ;;
        match result with
        | None =>
            r <- get ;;
            raise (ParseError ("Expected a subscript or a slice after '[' (pos "
                               ++ str_int (idx r) ++ ")."))%string
        | Some s =>
            consume "]" "after numerical subscript or slice" ;;
            ret (IsSlice s)
        end.

(** The runner whose cursor stands between [pre] and [suf]: the path is
    their concatenation, [idx] is the length of [pre] and [_curr] is the
    first character of [suf], if any. *)
Definition cur (d : D) (res : R) (pre suf : string) : Runner D R :=
  mk_Runner d (pre ++ suf)%string (Z.of_nat (String.length pre))
            (String.get 0 suf) res.

(** The message of the assertion that ends [child]. *)
Definition unexpected_msg (r : Runner D R) : string :=
  ("Expected '.' or '[' at pos: " ++ str_int (idx r + 1) ++ ", got: '"
   ++ match _curr r with
      | Some c => chr_str c
      | None => "None"
      end ++ "'")%string.

End Parser.

(** ** Selector evaluator, on values *)

(** [_apply_star]: the two [isinstance] tests are independent [if]s; a value
    is never both a [dict] and a [list]. *)
Definition _apply_star (results : list Json) : list Json :=
  fold_left
    (fun new_results result =>
       let new_results :=
         match result with
         | JObject d => new_results ++ dict_values d
         | _ => new_results
         end in
       match result with
       | JArray l => new_results ++ l
       | _ => new_results
       end)
    results nil.

(** [_apply_key], for a [str] key. *)
Definition _apply_key (results : list Json) (key : string) : list Json :=
  if String.eqb key "*" then _apply_star results
  else
    flat_map
      (fun result =>
         match result with
         | JObject d => match dict_get key d with
                        | Some v => v :: nil
                        | None => nil
                        end
         | _ => nil
         end)
      results.

(** [_apply_slice]: the comprehension evaluates [result[slice]] for each
    list in turn; the first zero-step slicing raises [ValueError]. *)
Fixpoint _apply_slice (results : list Json) (slice : PySlice)
  : outcome (list Json) :=
  match results with
  | nil => Returns nil
  | result :: rest =>
      match result with
      | JArray l =>
          match list_getslice l slice with
          | None => Raises (ValueError step_zero_msg)
          | Some values =>
              match _apply_slice rest slice with
              | Returns out => Returns (values ++ out)
              | other => other
              end
          end
      | _ => _apply_slice rest slice
      end
  end.

(** [key == "*"] for a key that is a [str] or a slice. *)
Definition is_star (key : KeyOrSlice) : bool :=
  match key with
  | IsStr k => String.eqb k "*"
  | IsSlice _ => false
  end.

(** The [while len(todo) > 0] loop of [_recursive_descent_key].  [todo] is
    a Python list used as a stack: [pop] takes its last item and [extend]
    appends. *)
Fixpoint rd_loop (fuel : nat) (key : KeyOrSlice) (todo new_results : list Json)
  : outcome (list Json) :=
  match fuel with
  | O => OutOfFuel
  | S fuel' =>
      match list_pop todo with
      | None => Returns new_results
      | Some (curr, todo) =>
          if is_star key then
            let new_values := _apply_star (curr :: nil) in
            rd_loop fuel' key (todo ++ rev new_values) (new_results ++ new_values)
          else
            match curr with
            | JObject d =>
                let new_results :=
                  match key with
                  | IsStr k => match dict_get k d with
                               | Some v => new_results ++ v :: nil
                               | None => new_results
                               end
                  | IsSlice _ => new_results
                  end in
                rd_loop fuel' key (todo ++ rev (dict_values d)) new_results
            | JArray l =>
                match key with
                | IsSlice s =>
                    match list_getslice l s with
                    | None => Raises (ValueError step_zero_msg)
                    | Some values =>
                        rd_loop fuel' key (todo ++ rev l) (new_results ++ values)
                    end
                | IsStr _ => rd_loop fuel' key (todo ++ rev l) new_results
                end
            | _ => rd_loop fuel' key todo new_results
            end
      end
  end.

(** Number of values in a tree: each one is popped from [todo] once. *)
Fixpoint json_size (j : Json) : nat :=
  match j with
  | JObject d => S (list_sum (map (fun kv => json_size (snd kv)) d))
  | JArray l => S (list_sum (map json_size l))
  | _ => 1
  end.

Definition rd_fuel (results : list Json) : nat :=
  S (list_sum (map json_size results)).

Definition _recursive_descent_key (results : list Json) (key : KeyOrSlice)
  : outcome (list Json) :=
  rd_loop (rd_fuel results) key (rev results) nil.

(** ** Query driver, on values *)

Abbreviation runner := (Runner Json (list Json)).
Abbreviation Mv := (ST (Runner Json (list Json))).

(** [self.results = f(self.results)] for an evaluator that may raise. *)
Definition update_results (f : list Json -> outcome (list Json)) : Mv unit :=
  r <- get ;;
  match f (results r) with
  | Returns v => put (set_results v r)
  | Raises e => raise e
  | OutOfFuel => out_of_fuel
  end.

(** The two assignments to [self.results] in [child]. *)
Definition apply_selector (k : KeyOrSlice) : Mv unit :=
  match k with
  | IsStr s => update_results (fun res => Returns (_apply_key res s))
  | IsSlice sl => update_results (fun res => _apply_slice res sl)
  end.

Definition recursive_descent : Mv unit :=
  b <- match_ "[" ;;
  key <- (if b then bracket else key) ;;
  update_results (fun res => _recursive_descent_key res key).

(** [child]: one path segment, then the rest of the path by a call to
    itself.  Each segment consumes a character, so the length of the path
    bounds the depth of the calls. *)
Fixpoint child (fuel : nat) : Mv unit :=
  match fuel with
  | O => out_of_fuel
  | S fuel' =>
      r <- get ;;
      if at_end r then ret tt else
      dot <- match_ "." ;;
      if dot then
        dot2 <- match_ "." ;;
        (if dot2 then recursive_descent
         else k <- key ;; apply_selector k) ;;
        child fuel'
      else
        br <- match_ "[" ;;
        if br then
          k <- bracket ;;
          apply_selector k ;;
          child fuel'
        else
          r' <- get ;;
          raise (AssertionError (unexpected_msg r'))
  end.

(** The method [JsonPathQueryRunner.query]. *)
Definition Runner_query (fuel : nat) : Mv (list Json) :=
  r <- get ;;
  put (set_results (data r :: nil) r) ;;
  consume "$" "at the beginning of JSONPath" ;;
  child fuel ;;
  r' <- get ;;
  ret (results r').

Definition run_query (fuel : nat) (data : Json) (path : string)
  : outcome (list Json) :=
  fst (Runner_query fuel (new_runner data path nil)).

(** [query(data, path)]. *)
Definition query (data : Json) (path : string) : outcome (list Json) :=
  run_query (S (String.length path)) data path.

(** [parse(path)]: the same run on the empty dict, result dropped. *)
Definition parse (path : string) : outcome unit :=
  match query (JObject nil) path with
  | Returns _ => Returns tt
  | Raises e => Raises e
  | OutOfFuel => OutOfFuel
  end.

(** ** The command line

    [cli.main] parses the arguments with [argparse], reads the standard
    input, decodes it with [json.loads], runs [jsp.query] and prints.  The
    codec is not part of the repository: [loads] and [dumps] stand for it.
    [main] is modelled from [path = args.JSONPath] on: its outcome is the
    exit status it returns or the exception that escapes it, together with
    what it printed. *)
Section Cli.
Variable loads : string -> outcome Json.
Variable dumps : list Json -> string.

Definition newline : string := String (ascii_of_nat 10) EmptyString.

Definition main (path stdin : string) : outcome Z * string :=
  match loads stdin with
  | Returns data =>
      match query data path with
      | Returns result => (Returns 0%Z, (dumps result ++ newline)%string)
      | Raises (ParseError msg) => (Returns 1%Z, ("ERROR: " ++ msg ++ newline)%string)
      | Raises e => (Raises e, "")
      | OutOfFuel => (OutOfFuel, "")
      end
  | Raises e => (Raises e, "")
  | OutOfFuel => (OutOfFuel, "")
  end.

End Cli.

(** ** Reference definitions, from the words of the specification *)

(** What a key selector yields on one input: the value stored under
    [name] when the input is an Object that contains [name]; nothing for an
    Array or a scalar. *)
Definition key_matches (name : string) (input : Json) : list Json :=
  match input with
  | JObject d => match dict_get name d with
                 | Some v => v :: nil
                 | None => nil
                 end
  | _ => nil
  end.

(** Depth-first pre-order: the node's own matches first, then the matches
    found below it; the descendants of an Object are its values in key
    order, those of an Array its items in index order.  The node's own
    matches are what the single-level evaluator yields on that node. *)
Fixpoint preorder_matches (name : string) (node : Json) : list Json :=
  _apply_key (node :: nil) name
  ++ match node with
     | JObject d => flat_map (fun kv => preorder_matches name (snd kv)) d
     | JArray l => flat_map (preorder_matches name) l
     | _ => nil
     end.

(** ** The store-level model

    Python lists and dicts are mutable objects; a variable or a list item
    holds a reference to one.  Here every list the code creates is
    allocated in the store, and [append], [extend] and [pop] write to the
    store at the reference they are called on. *)

Module Heap.

Definition loc : Type := positive.

(** A Python value: an immutable scalar, or a reference to an object. *)
Inductive val : Type :=
| VNull
| VInt (n : Z)
| VFloat (f : spec_float)
| VBool (b : bool)
| VStr (s : string)
| VRef (l : loc).

Inductive obj : Type :=
| ODict (items : list (string * val))
| OList (elems : list val).

Abbreviation store := (gmap loc obj).

(** [isinstance(v, dict)], with the items of the dict. *)
Definition as_dict (h : store) (v : val) : option (list (string * val)) :=
  match v with
  | VRef l => match h !! l with
              | Some (ODict d) => Some d
              | _ => None
              end
  | _ => None
  end.

(** [isinstance(v, list)], with the items of the list. *)
Definition as_list (h : store) (v : val) : option (list val) :=
  match v with
  | VRef l => match h !! l with
              | Some (OList xs) => Some xs
              | _ => None
              end
  | _ => None
  end.

(** A new list object holding [xs]. *)
Definition new_list (xs : list val) : ST store loc :=
  h <- get ;;
  let l := fresh (dom h) in
  put (<[l := OList xs]> h) ;;
  ret l.

Definition not_a_list : exn := TypeError "not a list".

(** The items of the list [v] refers to, as they are now. *)
Definition read_list (v : val) : ST store (list val) :=
  h <- get ;;
  match as_list h v with
  | Some xs => ret xs
  | None => raise not_a_list
  end.

(** The items of the dict [v] refers to, as they are now. *)
Definition read_dict (v : val) : ST store (list (string * val)) :=
  h <- get ;;
  match as_dict h v with
  | Some d => ret d
  | None => raise (TypeError "not a dict")
  end.

(** [l.extend(xs)]: writes the list at [l]. *)
Definition list_extend (l : loc) (xs : list val) : ST store unit :=
  ys <- read_list (VRef l) ;;
  h <- get ;;
  put (<[l := OList (ys ++ xs)]> h).

(** [l.append(x)]. *)
Definition list_append (l : loc) (x : val) : ST store unit :=
  list_extend l (x :: nil).

(** [l.pop()]: writes the list at [l]. *)
Definition list_pop_at (l : loc) : ST store val :=
  ys <- read_list (VRef l) ;;
  match list_pop ys with
  | None => raise (IndexError "pop from empty list")
  | Some (x, ys') =>
      h <- get ;;
      put (<[l := OList ys']> h) ;;
      ret x
  end.

Definition _apply_star (results : val) : ST store val :=
  new_results <- new_list nil ;;
  items <- read_list results ;;
  for_each items
    (fun result =>
       h <- get ;;
       match as_dict h result with
       | Some d => list_extend new_results (dict_values d)
       | None => ret tt
       end ;;
       h <- get ;;
       match as_list h result with
       | Some l => list_extend new_results l
       | None => ret tt
       end) ;;
  ret (VRef new_results).

Definition _apply_key (results : val) (key : string) : ST store val :=
  if String.eqb key "*" then _apply_star results
  else
    items <- read_list results ;;
    h <- get ;;
    out <- new_list
             (flat_map
                (fun result =>
                   match as_dict h result with
                   | Some d => match dict_get key d with
                               | Some v => v :: nil
                               | None => nil
                               end
                   | None => nil
                   end)
                items) ;;
    ret (VRef out).

(** The items the comprehension of [_apply_slice] collects. *)
Fixpoint slice_items (h : store) (items : list val) (slice : PySlice)
  : outcome (list val) :=
  match items with
  | nil => Returns nil
  | result :: rest =>
      match as_list h result with
      | Some l =>
          match list_getslice l slice with
          | None => Raises (ValueError step_zero_msg)
          | Some values =>
              match slice_items h rest slice with
              | Returns out => Returns (values ++ out)
              | other => other
              end
          end
      | None => slice_items h rest slice
      end
  end.

Definition _apply_slice (results : val) (slice : PySlice) : ST store val :=
  items <- read_list results ;;
  h <- get ;;
  match slice_items h items slice with
  | Returns vs => out <- new_list vs ;; ret (VRef out)
  | Raises e => raise e
  | OutOfFuel => out_of_fuel
  end.

(** The loop of [_recursive_descent_key]; [todo] and [new_results] are
    the references held by the two local variables. *)
Fixpoint rd_loop (fuel : nat) (key : KeyOrSlice) (todo new_results : loc)
  : ST store unit :=
  match fuel with
  | O => out_of_fuel
  | S fuel' =>
      pending <- read_list (VRef todo) ;;
      match pending with
      | nil => ret tt
      | _ =>
          curr <- list_pop_at todo ;;
          if is_star key then
            arg <- new_list (curr :: nil) ;;
            new_values <- _apply_star (VRef arg) ;;
            vs <- read_list new_values ;;
            list_extend new_results vs ;;
            vs' <- read_list new_values ;;
            list_extend todo (rev vs') ;;
            rd_loop fuel' key todo new_results
          else
            h <- get ;;
            match as_dict h curr, as_list h curr with
            | Some d, _ =>
                match key with
                | IsStr k => match dict_get k d with
                             | Some v => list_append new_results v
                             | None => ret tt
                             end
                | IsSlice _ => ret tt
                end ;;
                d' <- read_dict curr ;;
                list_extend todo (rev (dict_values d')) ;;
                rd_loop fuel' key todo new_results
            | None, Some l =>
                match key with
                | IsSlice s =>
                    match list_getslice l s with
                    | None => raise (ValueError step_zero_msg)
                    | Some values => list_extend new_results values
                    end
                | IsStr _ => ret tt
                end ;;
                l' <- read_list curr ;;
                list_extend todo (rev l') ;;
                rd_loop fuel' key todo new_results
            | None, None => rd_loop fuel' key todo new_results
            end
      end
  end.

Definition _recursive_descent_key (fuel : nat) (results : val) (key : KeyOrSlice)
  : ST store val :=
  new_results <- new_list nil ;;
  items <- read_list results ;;
  todo <- new_list (rev items) ;;
  rd_loop fuel key todo new_results ;;
  ret (VRef new_results).

(** *** The runner, with its [data] and [results] held by reference *)

Abbreviation hrunner := (Runner val val).
Abbreviation Mh := (ST (Runner val val * store)).

(** Code of the cursor: it runs on the runner and leaves the store. *)
Definition on_runner {A : Type} (m : ST hrunner A) : Mh A :=
  fun '(r, h) => let (o, r') := m r in (o, (r', h)).

(** Code of the evaluator: it runs on the store and leaves the runner. *)
Definition on_store {A : Type} (m : ST store A) : Mh A :=
  fun '(r, h) => let (o, h') := m h in (o, (r, h')).

(** [self.results = f(self.results)]. *)
Definition update_results (f : val -> ST store val) : Mh unit :=
  r <- on_runner get ;;
  v <- on_store (f (results r)) ;;
  r' <- on_runner get ;;
  on_runner (put (set_results v r')).

Definition apply_selector (k : KeyOrSlice) : Mh unit :=
  match k with
  | IsStr s => update_results (fun res => _apply_key res s)
  | IsSlice sl => update_results (fun res => _apply_slice res sl)
  end.

Definition recursive_descent (fuel : nat) : Mh unit :=
  b <- on_runner (match_ "[") ;;
  key <- on_runner (if b then bracket else key) ;;
  update_results (fun res => _recursive_descent_key fuel res key).

Fixpoint child (rd_fuel fuel : nat) : Mh unit :=
  match fuel with
  | O => out_of_fuel
  | S fuel' =>
      r <- on_runner get ;;
      if at_end r then ret tt else
      dot <- on_runner (match_ ".") ;;
      if dot then
        dot2 <- on_runner (match_ ".") ;;
        (if dot2 then recursive_descent rd_fuel
         else k <- on_runner key ;; apply_selector k) ;;
        child rd_fuel fuel'
      else
        br <- on_runner (match_ "[") ;;
        if br then
          k <- on_runner bracket ;;
          apply_selector k ;;
          child rd_fuel fuel'
        else
          r' <- on_runner get ;;
          raise (AssertionError (unexpected_msg r'))
  end.

Definition Runner_query (rd_fuel fuel : nat) : Mh val :=
  r <- on_runner get ;;
  root <- on_store (new_list (data r :: nil)) ;;
  on_runner (put (set_results (VRef root) r)) ;;
  on_runner (consume "$" "at the beginning of JSONPath") ;;
  child rd_fuel fuel ;;
  r' <- on_runner get ;;
  ret (results r').

(** [query(data, path)]: the runner object is created (its [results]
    field starts as a new empty list), the method runs, and the runner
    is dropped.  [rd_fuel] bounds the iterations of each descent loop. *)
Definition query (rd_fuel : nat) (data : val) (path : string) : ST store val :=
  res0 <- new_list nil ;;
  fun h =>
    let '(o, (_, h')) :=
      Runner_query rd_fuel (S (String.length path))
                   (new_runner data path (VRef res0), h) in
    (o, h').

(** *** Trees in the store *)

(** Build the objects of a tree, children first, and return the value
    that denotes it. *)
Fixpoint alloc_json (j : Json) : ST store val :=
  match j with
  | JNull => ret VNull
  | JInt n => ret (VInt n)
  | JFloat f => ret (VFloat f)
  | JBool b => ret (VBool b)
  | JStr s => ret (VStr s)
  | JObject d =>
      items <- (fix go (d : list (string * Json)) : ST store (list (string * val)) :=
                  match d with
                  | nil => ret nil
                  | (k, j') :: d' =>
                      v <- alloc_json j' ;;
                      rest <- go d' ;;
                      ret ((k, v) :: rest)
                  end) d ;;
      h <- get ;;
      let l := fresh (dom h) in
      put (<[l := ODict items]> h) ;;
      ret (VRef l)
  | JArray xs =>
      items <- (fix go (xs : list Json) : ST store (list val) :=
                  match xs with
                  | nil => ret nil
                  | j' :: xs' =>
                      v <- alloc_json j' ;;
                      rest <- go xs' ;;
                      ret (v :: rest)
                  end) xs ;;
      l <- new_list items ;;
      ret (VRef l)
  end.

(** Read back the tree a value denotes, to depth [fuel]. *)
Fixpoint read_json (fuel : nat) (h : store) (v : val) : option Json :=
  match fuel with
  | O => None
  | S fuel' =>
      match v with
      | VNull => Some JNull
      | VInt n => Some (JInt n)
      | VFloat f => Some (JFloat f)
      | VBool b => Some (JBool b)
      | VStr s => Some (JStr s)
      | VRef l =>
          match h !! l with
          | Some (ODict d) =>
              option_map JObject
                (mapM (fun kv => option_map (pair (fst kv))
                                  (read_json fuel' h (snd kv))) d)
          | Some (OList xs) =>
              option_map JArray (mapM (read_json fuel' h) xs)
          | None => None
          end
      end
  end.

End Heap.

(** ** Predicates of the statements

    The definitions the properties below are stated with. *)

Definition ints (l : list Z) : Json := JArray (map JInt l).

(** The descendants of a value, one level down: the values of an Object
    in key order, the items of an Array in index order. *)
Definition children (j : Json) : list Json :=
  match j with
  | JObject d => dict_values d
  | JArray l => l
  | _ => nil
  end.

Definition total_size (l : list Json) : nat := list_sum (map json_size l).

(** The characters of a decimal numeral. *)
Definition uint_chars (u : Decimal.uint) : list ascii :=
  list_ascii_of_string (NilEmpty.string_of_uint u).

(** The digits of the absolute value of [n]. *)
Definition abs_digits (n : Z) : string :=
  NilEmpty.string_of_uint
    match n with
    | Z0 => Decimal.D0 Decimal.Nil
    | Zpos p | Zneg p => Pos.to_uint p
    end.

(** The number of digits of [n], and whether [int] reads that many. *)
Definition numeral_length (n : Z) : Z :=
  Z.of_nat (String.length (abs_digits n)).

Definition short_numeral (n : Z) : bool :=
  (numeral_length n <=? int_max_str_digits)%Z.

(** What [num] makes of the numeral of [n]. *)
Definition read_int (n : Z) : outcome (option Z) :=
  if short_numeral n then Returns (Some n)
  else Raises (ValueError (int_limit_msg (numeral_length n))).

(** The [ValueError]s of [int]: the text is no decimal literal, or it has
    more digits than the limit. *)
Definition int_error (m : string) : Prop :=
  (exists k, m = int_literal_msg k)
  \/ (exists digits, (int_max_str_digits < digits)%Z /\ m = int_limit_msg digits).

(** The next character, if any, does not continue a number. *)
Definition ends_number (suf : string) : Prop :=
  forall c, String.get 0 suf = Some c -> isnumeric c = false.

(** The slice a bare subscript [n] stands for. *)
Definition bare_subscript (n : Z) : PySlice :=
  if (n =? -1)%Z then mk_slice (Some (-1)%Z) None None
  else mk_slice (Some n) (Some (n + 1)%Z) None.

(** The outcomes the code can have: a returned value, or one of three
    exceptions. *)
Definition expected {A : Type} (o : outcome A) : Prop :=
  match o with
  | Returns _ => True
  | Raises (ParseError _) | Raises (AssertionError _) | Raises (ValueError _) => True
  | _ => False
  end.

(** A method of the runner, for any type of data and of result set. *)
Definition method (A : Type) : Type := forall D R : Type, ST (Runner D R) A.

(** [m], started between [pre] and [suf], ends with outcome [o] after
    reading [mid], with [rest] left to read. *)
Definition scans {A : Type} (m : method A) (pre suf : string)
           (o : outcome A) (mid rest : string) : Prop :=
  suf = (mid ++ rest)%string
  /\ forall (D R : Type) (d : D) (res : R),
       m D R (cur d res pre suf) = (o, cur d res (pre ++ mid) rest).

Definition total {A : Type} (m : method A) (pre suf : string) : Prop :=
  exists o mid rest, scans m pre suf o mid rest /\ expected o.

(** A run of the driver, started between [pre] and [suf] with result set
    [res], ends with the cursor further right, with a returned value or one
    of the three exceptions. *)
Definition runs {A : Type} (m : Mv A) (d : Json) (res : list Json)
           (pre suf : string) : Prop :=
  exists o res' mid rest,
    suf = (mid ++ rest)%string
    /\ m (cur d res pre suf) = (o, cur d res' (pre ++ mid) rest)
    /\ expected o.

(** The result sets of [parse]: from the empty dict, every selector leaves
    empty dicts only (in fact, nothing at all). *)
Definition empties (res : list Json) : Prop := Forall (eq (JObject nil)) res.

(** Two runs of the driver on the same path, one on the data and one on
    the empty dict: the first stops at a zero-step slice, or both end in
    the same way with the cursor at the same place. *)
Definition twin {A : Type} (m : Mv A) (d : Json) (res res0 : list Json)
           (pre suf : string) : Prop :=
  fst (m (cur d res pre suf)) = Raises (ValueError step_zero_msg)
  \/ exists o res' res0' mid rest,
       m (cur d res pre suf) = (o, cur d res' (pre ++ mid) rest)
       /\ m (cur (JObject nil) res0 pre suf)
          = (o, cur (JObject nil) res0' (pre ++ mid) rest)
       /\ empties res0'.

(** The same for code that returns the result set. *)
Definition twin_out (d : Json) (m : Mv (list Json)) (res res0 : list Json)
           (pre suf : string) : Prop :=
  fst (m (cur d res pre suf)) = Raises (ValueError step_zero_msg)
  \/ forall e, fst (m (cur d res pre suf)) = Raises e
               <-> fst (m (cur (JObject nil) res0 pre suf)) = Raises e.

(** *** On the store *)

(** [m] keeps the objects of [h0]: run from any store that extends [h0],
    it leaves a store that still extends [h0], whatever the outcome; and
    a returned value satisfies [post]. *)
Definition keeps (h0 : Heap.store) {A : Type} (m : ST Heap.store A)
           (post : A -> Prop) : Prop :=
  forall h : Heap.store,
    h0 ⊆ h ->
    h0 ⊆ snd (m h) /\ (forall a, fst (m h) = Returns a -> post a).

Definition any {A : Type} : A -> Prop := fun _ => True.

(** The same, for code that runs on the runner and the store. *)
Definition keeps_h (h0 : Heap.store) {A : Type} (m : Heap.Mh A) : Prop :=
  forall (r : Heap.hrunner) (h : Heap.store),
    h0 ⊆ h -> h0 ⊆ snd (snd (m (r, h))).

(** A store holding the tree [{"a": [1, 2]}]: the list at reference 1, the
    dict at reference 2. *)
Definition sample_store : Heap.store :=
  <[2%positive := Heap.ODict (("a", Heap.VRef 1%positive) :: nil)]>
    (<[1%positive := Heap.OList (Heap.VInt 1 :: Heap.VInt 2 :: nil)]> ∅).

(** The value [v] denotes the tree [j] in the store [h]. *)
#[local] Unset Elimination Schemes.
Inductive repr (h : Heap.store) : Heap.val -> Json -> Prop :=
| repr_null : repr h Heap.VNull JNull
| repr_int (n : Z) : repr h (Heap.VInt n) (JInt n)
| repr_float (f : spec_float) : repr h (Heap.VFloat f) (JFloat f)
| repr_bool (b : bool) : repr h (Heap.VBool b) (JBool b)
| repr_str (s : string) : repr h (Heap.VStr s) (JStr s)
| repr_dict (l : Heap.loc) (items : list (string * Heap.val))
            (d : list (string * Json)) :
    h !! l = Some (Heap.ODict items) ->
    Forall2 (fun kv kj => fst kv = fst kj /\ repr h (snd kv) (snd kj)) items d ->
    repr h (Heap.VRef l) (JObject d)
| repr_list (l : Heap.loc) (xs : list Heap.val) (js : list Json) :
    h !! l = Some (Heap.OList xs) ->
    Forall2 (repr h) xs js ->
    repr h (Heap.VRef l) (JArray js).
#[local] Set Elimination Schemes.

(** The list object [v] refers to holds values that denote [js]. *)
Definition repr_list_at (h0 h : Heap.store) (v : Heap.val) (js : list Json) : Prop :=
  exists xs, Heap.as_list h v = Some xs /\ Forall2 (repr h0) xs js.

(** The items of a dict and of an Object correspond. *)
Definition item_rel (h0 : Heap.store) (kv : string * Heap.val)
           (kj : string * Json) : Prop :=
  fst kv = fst kj /\ repr h0 (snd kv) (snd kj).

(** What the wildcard collects from one value, read in the store. *)
Definition star_vals (h : Heap.store) (v : Heap.val) : list Heap.val :=
  match Heap.as_dict h v with Some d => dict_values d | None => nil end
  ++ match Heap.as_list h v with Some l => l | None => nil end.

(** Outcomes that agree: both return, related, or both raise the same
    exception, or both run out of fuel. *)
Definition outcome_rel {A B : Type} (P : A -> B -> Prop)
           (o : outcome A) (o' : outcome B) : Prop :=
  match o, o' with
  | Returns a, Returns b => P a b
  | Raises e, Raises e' => e = e'
  | OutOfFuel, OutOfFuel => True
  | _, _ => False
  end.

(** [v] refers to a list created since [h]: it is not an object of [h],
    and in [h'] it holds values that denote [js]. *)
Definition new_list_at (h0 h h' : Heap.store) (v : Heap.val) (js : list Json)
  : Prop :=
  exists l xs,
    v = Heap.VRef l /\ (l ∉ dom h) /\ h' !! l = Some (Heap.OList xs)
    /\ Forall2 (repr h0) xs js.

(** The two local lists of [_recursive_descent_key], at [todo] and [nr],
    hold values that denote the stack and the matches of the value-level
    loop. *)
Definition rd_inv (h0 : Heap.store) (todo nr : Heap.loc) (h : Heap.store)
           (stack acc : list Json) : Prop :=
  h0 ⊆ h
  /\ (exists tvs, h !! todo = Some (Heap.OList tvs) /\ Forall2 (repr h0) tvs stack)
  /\ (exists avs, h !! nr = Some (Heap.OList avs) /\ Forall2 (repr h0) avs acc).

(** How the store-level run ends, given that the value-level run ends
    with outcome [o1], result set [res'] and the cursor between [pre'] and
    [rest]: in the same way, with a result set that denotes [res']; unless a
    descent loop was given less fuel than [bound]. *)
Definition ends_alike (h0 : Heap.store) {A : Type} (bound rd_fuel : nat)
           (dv : Heap.val) (o1 : outcome A) (res' : list Json)
           (pre' rest : string)
           (o : outcome A) (r2 : Heap.hrunner) (h' : Heap.store) : Prop :=
  (o = OutOfFuel /\ (rd_fuel < bound)%nat)
  \/ (o = o1 /\ h0 ⊆ h'
      /\ exists resv', r2 = cur dv resv' pre' rest /\ repr_list_at h0 h' resv' res').

(** The two drivers run in step from the cursor between [pre] and [suf]
    and result sets that correspond.  The second driver takes the fuel of
    the descent loops as its argument. *)
Definition lockstep (h0 : Heap.store) {A : Type} (m1 : Mv A)
           (m2 : nat -> Heap.Mh A)
           (d : Json) (dv : Heap.val) (res : list Json) (pre suf : string) : Prop :=
  exists o1 res' mid rest bound,
    m1 (cur d res pre suf) = (o1, cur d res' (pre ++ mid) rest)
    /\ forall (rd_fuel : nat) (resv : Heap.val) (h : Heap.store),
         h0 ⊆ h -> repr_list_at h0 h resv res ->
         exists o r2 h',
           m2 rd_fuel (cur dv resv pre suf, h) = (o, (r2, h'))
           /\ ends_alike h0 bound rd_fuel dv o1 res' (pre ++ mid) rest o r2 h'.

(** An evaluator of the store-level model agrees with its value-level
    counterpart, and only adds objects to the store; unless it is a
    descent loop that was given less fuel than [bound]. *)
Definition evaluates (h0 : Heap.store)
           (f2 : nat -> Heap.val -> ST Heap.store Heap.val)
           (f1 : list Json -> outcome (list Json)) : Prop :=
  forall res : list Json,
  exists bound : nat,
  forall (rd_fuel : nat) (h : Heap.store) (resv : Heap.val),
    h0 ⊆ h -> repr_list_at h0 h resv res ->
    exists o h',
      f2 rd_fuel resv h = (o, h') /\ h ⊆ h'
      /\ ((o = OutOfFuel /\ (rd_fuel < bound)%nat)
          \/ outcome_rel (fun out js => repr_list_at h0 h' out js) o (f1 res)).

(** The same for code that returns the result set: a reference on one
    side, the trees on the other. *)
Definition lockstep_out (h0 : Heap.store) (d : Json) (dv : Heap.val)
           (m1 : Mv (list Json)) (m2 : nat -> Heap.Mh Heap.val)
           (res : list Json) (pre suf : string) : Prop :=
  exists bound,
  forall (rd_fuel : nat) (resv : Heap.val) (h : Heap.store),
    h0 ⊆ h -> repr_list_at h0 h resv res ->
    exists o r2 h',
      m2 rd_fuel (cur dv resv pre suf, h) = (o, (r2, h'))
      /\ ((o = OutOfFuel /\ (rd_fuel < bound)%nat)
          \/ outcome_rel (fun out js => repr_list_at h0 h' out js) o
               (fst (m1 (cur d res pre suf)))).

(** *** Values of a tree, and what a selector finds in one *)

(** All the values of a tree, the tree itself first, in depth-first
    pre-order: the values of an Object in key order, the items of an Array
    in index order. *)
Fixpoint nodes (j : Json) : list Json :=
  j :: match j with
       | JObject d => flat_map (fun kv => nodes (snd kv)) d
       | JArray l => flat_map nodes l
       | _ => nil
       end.

Definition is_list (j : Json) : bool :=
  match j with JArray _ => true | _ => false end.

(** A slice whose step is zero: slicing a list with it raises. *)
Definition zero_step (s : PySlice) : bool :=
  match step s with Some 0%Z => true | _ => false end.

(** What a slice selector yields on one input: the selected items of an
    Array, nothing for an Object or a scalar. *)
Definition slice_matches (s : PySlice) (input : Json) : list Json :=
  match input with
  | JArray l => default nil (list_getslice l s)
  | _ => nil
  end.

(** What a descent collects at one node. *)
Definition own_matches (key : KeyOrSlice) (node : Json) : list Json :=
  match key with
  | IsStr k => if String.eqb k "*" then children node else key_matches k node
  | IsSlice s => slice_matches s node
  end.

(** The descent raises when its slice has step zero and it meets a list. *)
Definition descent_raises (key : KeyOrSlice) (visited : list Json) : bool :=
  match key with
  | IsStr _ => false
  | IsSlice s => zero_step s && existsb is_list visited
  end.

(** [l[i]] for a list and an integer: a negative index counts from the
    end; [None] stands for [IndexError]. *)
Definition list_item {A : Type} (l : list A) (i : Z) : option A :=
  let n := Z.of_nat (List.length l) in
  if (0 <=? i)%Z then nth_error l (Z.to_nat i)
  else if (- n <=? i)%Z then nth_error l (Z.to_nat (i + n))
  else None.

(** The descent loop, started with the node [c] on top of its stack and
    fuel for every value of [c], visits these values in pre-order and
    leaves the rest of the stack as it was. *)
Definition visits (key : KeyOrSlice) (c : Json) : Prop :=
  forall n stack acc,
    rd_loop (json_size c + n) key (stack ++ c :: nil) acc
    = if descent_raises key (nodes c)
      then Raises (ValueError step_zero_msg)
      else rd_loop n key stack (acc ++ flat_map (own_matches key) (nodes c)).

Definition option_list {A : Type} (o : option A) : list A :=
  match o with Some x => x :: nil | None => nil end.

(** The position an index stands for in a list of length [len]: a
    negative index counts from the end, and an index beyond either end is
    brought back to that end. *)
Definition clamp (len v : Z) : Z :=
  (if v <? 0 then Z.max (v + len) 0 else Z.min v len)%Z.

(** A value no selector finds anything in: a scalar or an empty dict. *)
Definition barren (j : Json) : bool :=
  match j with
  | JObject nil => true
  | JObject _ => false
  | JArray _ => false
  | _ => true
  end.

(** *** Scanned text *)

(** The longest prefix of [s] whose characters satisfy [p], and what
    follows it. *)
Fixpoint str_span (p : ascii -> bool) (s : string) : string * string :=
  match s with
  | EmptyString => (EmptyString, EmptyString)
  | String c s' =>
      if p c then (String c (fst (str_span p s')), snd (str_span p s'))
      else (EmptyString, s)
  end.

(** The characters that end the scan of a dot key, and those it refuses. *)
Definition key_stop (c : ascii) : bool :=
  existsb (Ascii.eqb c) ("."%char :: "["%char :: nil).

Definition key_forbidden (c : ascii) : bool :=
  existsb (Ascii.eqb c) ("'"%char :: dquote :: nil).

Definition key_char (c : ascii) : bool := negb (key_stop c) && negb (key_forbidden c).

Definition not_char (q c : ascii) : bool := negb (Ascii.eqb c q).

(** Where a path may be continued: at its end, or in front of a "." or a
    "[". *)
Definition seg_start (q : string) : Prop :=
  match q with
  | EmptyString => True
  | String c _ => c = "."%char \/ c = "["%char
  end.

(** The text [num] reads in front of [suf]: an optional "-" and the
    numeric characters that follow; and the text it leaves. *)
Definition numeral_text (suf : string) : string :=
  match suf with
  | String c s =>
      if Ascii.eqb c "-" then String c (fst (str_span isnumeric s))
      else fst (str_span isnumeric suf)
  | EmptyString => EmptyString
  end.

Definition numeral_rest (suf : string) : string :=
  match suf with
  | String c s =>
      if Ascii.eqb c "-" then snd (str_span isnumeric s)
      else snd (str_span isnumeric suf)
  | EmptyString => EmptyString
  end.

(** What [num] makes of the text it read. *)
Definition numeral_value (k : string) : outcome (option Z) :=
  match list_ascii_of_string k with
  | nil => Returns None
  | c :: ds => match int_ (c :: ds) with
               | IntValue n => Returns (Some n)
               | IntInvalid => Raises (ValueError (int_literal_msg k))
               | IntTooLong digits => Raises (ValueError (int_limit_msg digits))
               end
  end.

(** A name that the dot notation reads as a key: its characters are
    neither ".", "[" nor a quote, and it does not start like a subscript
    or a slice ("-", a numeric character, ":") nor with "$". *)
Definition key_head (c : ascii) : bool :=
  key_char c && negb (isnumeric c)
  && negb (existsb (Ascii.eqb c) ("$"%char :: "-"%char :: ":"%char :: nil)).

Definition plain_key (name : string) : bool :=
  match name with
  | String c s => key_head c && forallb key_char (list_ascii_of_string s)
  | EmptyString => false
  end.

(** The characters a bracket selector can start with. *)
Definition bracket_head (c : ascii) : bool :=
  isnumeric c
  || existsb (Ascii.eqb c)
       ("*"%char :: "'"%char :: dquote :: "-"%char :: ":"%char :: nil).

(** [k] times the digit zero. *)
Definition zeros (k : nat) : string := string_of_list_ascii (repeat "0"%char k).

(** *** Segments of a path *)

(** The outcomes of the parser methods: a value, a [ParseError], or one
    of the two [ValueError]s of [int]. *)
Definition reads_ok {A : Type} (o : outcome A) : Prop :=
  match o with
  | Returns _ => True
  | Raises (ParseError _) => True
  | Raises (ValueError m) => int_error m
  | _ => False
  end.

(** [m], started between [pre] and [suf], ends with the cursor further
    right and an outcome of the parser; and when it returns, it returns the
    same after reading the same text wherever [suf] stands in a path that
    goes on with another segment. *)
Definition lands {A : Type} (m : method A) (pre suf : string) : Prop :=
  exists o mid rest,
    scans m pre suf o mid rest /\ reads_ok o
    /\ forall a, o = Returns a ->
         forall pre' q, seg_start q ->
           scans m pre' (suf ++ q) (Returns a) mid (rest ++ q).

(** One pass through the body of [child], up to its final call to itself:
    one segment of the path is read and applied. *)
Definition segment : Mv unit :=
  dot <- match_ "." ;;
  if dot then
    dot2 <- match_ "." ;;
    if dot2 then recursive_descent
    else k <- key ;; apply_selector k
  else
    br <- match_ "[" ;;
    if br then k <- bracket ;; apply_selector k
    else r' <- get ;; raise (AssertionError (unexpected_msg r')).

(** What a segment does to the result set: the key or slice it read,
    applied at one level or, after "..", at every depth. *)
Definition select (deep : bool) (k : KeyOrSlice) (res : list Json)
  : outcome (list Json) :=
  if deep then _recursive_descent_key res k
  else match k with
       | IsStr s => Returns (_apply_key res s)
       | IsSlice sl => _apply_slice res sl
       end.

(** The runner after [self.results = ...] with the cursor between [pre]
    and [rest]. *)
Definition selected (o : outcome (list Json)) (d : Json) (res : list Json)
           (pre rest : string) : outcome unit * runner :=
  match o with
  | Returns v => (Returns tt, cur d v pre rest)
  | Raises e => (Raises e, cur d res pre rest)
  | OutOfFuel => (OutOfFuel, cur d res pre rest)
  end.

(** The exceptions of a malformed path: [ParseError], the two
    [ValueError]s of [int], and the [AssertionError] that ends [child]. *)
Definition path_error (e : exn) : Prop :=
  match e with
  | ParseError _ => True
  | ValueError m => int_error m
  | AssertionError m =>
      exists n c, m = ("Expected '.' or '[' at pos: " ++ str_int n
                       ++ ", got: '" ++ chr_str c ++ "'")%string
  | _ => False
  end.

(** The segment in front of [suf] is malformed: reading it raises, from
    [pre] and whatever the data and the result set. *)
Definition segment_fails_at (pre suf : string) : Prop :=
  exists e mid rest,
    path_error e /\ suf = (mid ++ rest)%string
    /\ forall d res,
         segment (cur d res pre suf) = (Raises e, cur d res (pre ++ mid) rest).

(** The segment in front of [suf] is the text [mid]: it stands for the
    selector [select deep k], wherever it is read. *)
Definition segment_selects (suf : string) (deep : bool) (k : KeyOrSlice)
           (mid rest : string) : Prop :=
  suf = (mid ++ rest)%string /\ mid <> ""%string
  /\ forall d res pre q,
       seg_start q ->
       segment (cur d res pre (suf ++ q))
       = selected (select deep k res) d res (pre ++ mid) (rest ++ q).

(** The result set a run of the driver returns, if it returns. *)
Definition outs (x : outcome unit * runner) : option (list Json) :=
  match fst x with
  | Returns _ => Some (results (snd x))
  | _ => None
  end.

(** Two result sets, one after the other. *)
Definition outcome_app (o1 o2 : outcome (list Json)) : outcome (list Json) :=
  match o1 with
  | Returns v1 => match o2 with
                  | Returns v2 => Returns (v1 ++ v2)
                  | other => other
                  end
  | other => other
  end.

(** What [query] returns on [r] for the path "$" followed by [q]; nothing
    if it raises. *)
Definition continued (q : string) (r : Json) : list Json :=
  match query r (String "$" q) with
  | Returns out => out
  | _ => nil
  end.

(** *** New objects of the store *)

(** A reference to an object that is not in the store [h0]. *)
Definition fresh_ref (h0 : Heap.store) (v : Heap.val) : Prop :=
  exists l, v = Heap.VRef l /\ l ∉ dom h0.

(** A run on the runner and the store, from the cursor between [pre] and
    [suf] and a result set that is not an object of [h0]: it keeps the
    objects of [h0], and the result set it leaves is not one of them. *)
Definition fresh_run (h0 : Heap.store) {A : Type} (m : Heap.Mh A)
           (dv resv : Heap.val) (pre suf : string) : Prop :=
  fresh_ref h0 resv ->
  forall h : Heap.store,
    h0 ⊆ h ->
    exists o resv' mid rest h',
      m (cur dv resv pre suf, h) = (o, (cur dv resv' (pre ++ mid) rest, h'))
      /\ h0 ⊆ h' /\ fresh_ref h0 resv'.

(** * Properties *)

(** ** Strings *)

Lemma str_app_cons (c : ascii) (s t : string) :
  (String c s ++ t = String c (s ++ t))%string.
Proof. reflexivity. Qed.

Lemma str_app_nil_l (s : string) : ("" ++ s = s)%string.
Proof. reflexivity. Qed.

Lemma str_length_app (s t : string) :
  String.length (s ++ t) = (String.length s + String.length t)%nat.
Proof.
  induction s as [|c s IH]; [reflexivity|].
  rewrite str_app_cons. simpl. now rewrite IH.
Qed.

Lemma str_app_assoc (s t u : string) : ((s ++ t) ++ u = s ++ (t ++ u))%string.
Proof.
  induction s as [|c s IH]; [reflexivity|].
  rewrite !str_app_cons. now rewrite IH.
Qed.

Lemma str_app_nil_r (s : string) : (s ++ "" = s)%string.
Proof.
  induction s as [|c s IH]; [reflexivity|].
  rewrite str_app_cons. now rewrite IH.
Qed.

Lemma str_get_app_length (s t : string) :
  String.get (String.length s) (s ++ t) = String.get 0 t.
Proof.
  induction s as [|c s IH]; [reflexivity|].
  rewrite str_app_cons. simpl. exact IH.
Qed.

Lemma str_snoc_app (s t : string) (c : ascii) :
  ((s ++ String c "") ++ t = s ++ String c t)%string.
Proof. now rewrite str_app_assoc. Qed.

Lemma str_length_snoc (s : string) (c : ascii) :
  String.length (s ++ String c "") = S (String.length s).
Proof. rewrite str_length_app. simpl. lia. Qed.

(** ** The cursor *)

Section CursorFacts.
Context {D R : Type}.
Implicit Types (d : D) (res : R) (pre suf : string) (c : ascii).

Lemma new_runner_cur d p res : new_runner d p res = cur d res "" p.
Proof. reflexivity. Qed.

Lemma at_end_cur d res pre suf :
  at_end (cur d res pre suf) = match suf with "" => true | _ => false end.
Proof.
  unfold at_end, cur; simpl. rewrite str_length_app.
  destruct suf; simpl; [apply Z.leb_le | apply Z.leb_gt]; lia.
Qed.

Lemma remaining_cur d res pre suf :
  remaining (cur d res pre suf) = String.length suf.
Proof. unfold remaining, cur; simpl. rewrite str_length_app. lia. Qed.

Lemma str_index_cur pre suf :
  str_index (pre ++ suf) (Z.of_nat (String.length pre)) = String.get 0 suf.
Proof.
  unfold str_index. rewrite str_length_app.
  destruct (Z.ltb_spec (Z.of_nat (String.length pre)) 0); [lia|].
  destruct suf as [|c suf].
  - simpl. rewrite Nat.add_0_r.
    destruct (Z.ltb_spec (Z.of_nat (String.length pre)) (Z.of_nat (String.length pre)));
      [lia|]. now rewrite andb_false_r.
  - destruct (Z.leb_spec 0 (Z.of_nat (String.length pre))); [|lia].
    destruct (Z.ltb_spec (Z.of_nat (String.length pre))
                (Z.of_nat (String.length pre + String.length (String c suf))));
      [|simpl in *; lia].
    simpl andb. cbv iota. rewrite Nat2Z.id. apply str_get_app_length.
Qed.

Lemma set_idx_cur d res pre c suf :
  set_idx (idx (cur d res pre (String c suf)) + 1) (cur d res pre (String c suf))
  = set_curr (Some c) (cur d res (pre ++ String c "") suf).
Proof.
  unfold set_idx, set_curr, cur; simpl.
  rewrite str_snoc_app, str_length_snoc. f_equal. lia.
Qed.

(** One step forward over the character under the cursor. *)
Lemma advance_cur d res pre c suf :
  advance (cur d res pre (String c suf))
  = (Returns tt, cur d res (pre ++ String c "") suf).
Proof.
  unfold advance, bind, get, put. rewrite at_end_cur, set_idx_cur.
  replace (at_end (set_curr (Some c) (cur d res (pre ++ String c "") suf)))
    with (at_end (cur d res (pre ++ String c "") suf)) by reflexivity.
  rewrite at_end_cur.
  destruct suf as [|c' suf]; [reflexivity|].
  simpl negb. cbv iota.
  change (path (set_curr (Some c) (cur d res (pre ++ String c "") (String c' suf))))
    with ((pre ++ String c "") ++ String c' suf)%string.
  change (idx (set_curr (Some c) (cur d res (pre ++ String c "") (String c' suf))))
    with (Z.of_nat (String.length (pre ++ String c ""))).
  rewrite str_index_cur. reflexivity.
Qed.


Lemma match_cur_hit d res pre c suf :
  match_ c (cur d res pre (String c suf))
  = (Returns true, cur d res (pre ++ String c "") suf).
Proof.
  unfold match_, bind, get.
  change (_curr (cur d res pre (String c suf))) with (Some c).
  destruct (decide (Some c = Some c)) as [_|Hn]; [|congruence].
  now rewrite advance_cur.
Qed.

Lemma match_cur_miss d res pre suf c :
  String.get 0 suf <> Some c ->
  match_ c (cur d res pre suf) = (Returns false, cur d res pre suf).
Proof.
  intros Hne. unfold match_, bind, get.
  change (_curr (cur d res pre suf)) with (String.get 0 suf).
  destruct (decide (String.get 0 suf = Some c)); [contradiction | reflexivity].
Qed.

End CursorFacts.

(** ** Evaluation on concrete paths *)

Lemma consume_cur_hit {D R : Type} (d : D) (res : R) pre c suf where_ :
  consume c where_ (cur d res pre (String c suf))
  = (Returns tt, cur d res (pre ++ String c "") suf).
Proof.
  unfold consume, bind, get. rewrite at_end_cur, match_cur_hit. reflexivity.
Qed.

Lemma consume_cur_miss {D R : Type} (d : D) (res : R) pre suf c where_ :
  String.get 0 suf <> Some c ->
  consume c where_ (cur d res pre suf)
  = (Raises (ParseError ("Expected '" ++ chr_str c ++ "' " ++ where_
                         ++ " (pos " ++ str_int (Z.of_nat (String.length pre))
                         ++ ").")),
     cur d res pre suf).
Proof.
  intros Hne. unfold consume, bind, get. rewrite at_end_cur.
  destruct suf as [|c' suf]; [reflexivity|].
  rewrite match_cur_miss by exact Hne. reflexivity.
Qed.

(** C6: on the path "$" the query returns the one-element list holding
    the data itself, whatever the data. *)
Theorem query_root (data : Json) : query data "$" = Returns (data :: nil).
Proof. reflexivity. Qed.

(** C10: the quoted key in "$['']" is the empty string; the query returns
    without raising, with the value stored under the empty key when the
    data is an Object that has one, and with the empty list otherwise. *)
Theorem query_empty_quoted_key (data : Json) :
  query data "$['']" = Returns (key_matches "" data).
Proof.
  transitivity (Returns (_apply_key (data :: nil) "")); [reflexivity|].
  unfold _apply_key. simpl. now rewrite app_nil_r.
Qed.

(** The runner after the leading "$" has been consumed. *)
Lemma Runner_query_after_root (fuel : nat) (d : Json) (suf : string) :
  Runner_query fuel (new_runner d (String "$" suf) nil)
  = (r <- (child fuel ;; get) ;; ret (results r))
      (cur d (d :: nil) "$" suf).
Proof.
  unfold Runner_query. rewrite new_runner_cur. unfold bind at 1. unfold get at 1.
  unfold bind at 1. unfold put at 1.
  change (set_results (data (cur d nil "" (String "$" suf)) :: nil)
            (cur d nil "" (String "$" suf)))
    with (cur d (d :: nil) "" (String "$" suf)).
  unfold bind at 1. rewrite consume_cur_hit.
  unfold bind. simpl. destruct (child fuel _) as [[| |] ?]; reflexivity.
Qed.

(** C2: a segment that starts with a character other than "." or "[" ends
    the query with an [AssertionError] that reports the position, not with
    a [ParseError]. *)
Theorem query_unexpected_char_asserts (data : Json) (c : ascii) (rest : string) :
  c <> "."%char -> c <> "["%char ->
  query data (String "$" (String c rest))
  = Raises (AssertionError
              ("Expected '.' or '[' at pos: 2, got: '" ++ chr_str c ++ "'")).
Proof.
  intros Hdot Hbr. unfold query, run_query.
  rewrite Runner_query_after_root.
  cbn [String.length child]. unfold bind at 1 2 3. unfold get at 1.
  rewrite at_end_cur.
  unfold bind at 1. rewrite match_cur_miss by (simpl; congruence).
  unfold bind at 1. rewrite match_cur_miss by (simpl; congruence).
  reflexivity.
Qed.

Lemma query_unexpected_char_asserts_witness :
  query JNull "$x" = Raises (AssertionError "Expected '.' or '[' at pos: 2, got: 'x'").
Proof. apply (query_unexpected_char_asserts JNull "x" ""); discriminate. Defined.

(** C1: the path "$[-]" makes [num] call [int] on the string "-": the
    query ends with a [ValueError], which is neither a [ParseError] nor a
    returned list. *)
Theorem query_lone_minus_raises_ValueError (d : Json) :
  query d "$[-]"
  = Raises (ValueError "invalid literal for int() with base 10: '-'").
Proof. reflexivity. Qed.

(** Other outcomes that are neither a list nor a [ParseError]. *)
Example query_superscript_digit (d : Json) :
  query d (String "$" (String "[" (String (ascii_of_nat 178) "]")))
  = Raises (ValueError
              (String.append "invalid literal for int() with base 10: '"
                 (String (ascii_of_nat 178) "'"))).
Proof. reflexivity. Qed.

Example query_zero_step :
  query (ints (1 :: 2 :: nil)%Z) "$[::0]" = Raises (ValueError step_zero_msg).
Proof. reflexivity. Qed.

(** C3: on the path "$[::0]." [parse] raises [ParseError] (a key is
    missing after the final "."), while [query] on a one-element list
    raises [ValueError] at the zero-step slice and never reaches the end
    of the path. *)
Theorem parse_and_query_differ_on_zero_step :
  parse "$[::0]." = Raises (ParseError "Expected key at the end of JSONPath.")
  /\ query (ints (1 :: nil)%Z) "$[::0]." = Raises (ValueError step_zero_msg).
Proof. split; reflexivity. Qed.

(** ** The key selector *)

Lemma _apply_key_not_star (results : list Json) (name : string) :
  name <> "*" -> _apply_key results name = flat_map (key_matches name) results.
Proof.
  intros Hne. unfold _apply_key.
  destruct (String.eqb_spec name "*") as [E|_]; [contradiction | reflexivity].
Qed.

(** C7, amended: for a name other than "*", the key selector replaces the
    result set, without raising, by the values stored under the name in the
    Object inputs that contain it, input by input in input order; Arrays
    and scalars contribute nothing. *)
Theorem apply_key_selector (name : string) (r : runner) :
  name <> "*" ->
  apply_selector (IsStr name) r
  = (Returns tt, set_results (flat_map (key_matches name) (results r)) r)
  /\ (forall xs ys, _apply_key (xs ++ ys) name
                    = _apply_key xs name ++ _apply_key ys name)
  /\ (forall l, _apply_key (JArray l :: nil) name = nil)
  /\ (forall d, _apply_key (JObject d :: nil) name
                = match dict_get name d with Some v => v :: nil | None => nil end).
Proof.
  intros Hne. repeat split.
  - unfold apply_selector, update_results, bind, get, put.
    now rewrite _apply_key_not_star.
  - intros xs ys. rewrite !_apply_key_not_star by exact Hne. apply flat_map_app.
  - intros l. now rewrite _apply_key_not_star.
  - intros d. rewrite _apply_key_not_star by exact Hne. simpl.
    now rewrite app_nil_r.
Qed.

Lemma apply_key_selector_witness :
  apply_selector (IsStr "a")
    (new_runner JNull "$.a" (JObject (("a", JInt 1) :: nil) :: ints (2 :: nil)%Z :: nil))
  = (Returns tt,
     set_results (JInt 1 :: nil)
       (new_runner JNull "$.a" (JObject (("a", JInt 1) :: nil) :: ints (2 :: nil)%Z :: nil))).
Proof.
  exact (proj1 (apply_key_selector "a"
                  (new_runner JNull "$.a"
                     (JObject (("a", JInt 1) :: nil) :: ints (2 :: nil)%Z :: nil))
                  ltac:(discriminate))).
Defined.

(** C7 as stated fails at the name "*": the code takes that string for the
    wildcard, so every value of an Object is emitted, and the items of an
    Array are emitted rather than skipped. *)
Lemma apply_key_star_is_wildcard :
  _apply_key (JObject (("*", JInt 1) :: ("a", JInt 2) :: nil) :: nil) "*"
  <> flat_map (key_matches "*") (JObject (("*", JInt 1) :: ("a", JInt 2) :: nil) :: nil)
  /\ _apply_key (ints (7 :: 8 :: nil)%Z :: nil) "*" = JInt 7 :: JInt 8 :: nil
  /\ query (JObject (("*", JInt 1) :: ("a", JInt 2) :: nil)) "$['*']"
     = Returns (JInt 1 :: JInt 2 :: nil).
Proof. split; [vm_compute; discriminate | split; reflexivity]. Qed.

(** ** Recursive descent *)

Lemma json_size_children (j : Json) :
  json_size j = S (list_sum (map json_size (children j))).
Proof.
  destruct j; try reflexivity.
  simpl. unfold dict_values. now rewrite map_map.
Qed.

Lemma preorder_matches_children (name : string) (j : Json) :
  preorder_matches name j
  = _apply_key (j :: nil) name ++ flat_map (preorder_matches name) (children j).
Proof.
  destruct j; try reflexivity.
  simpl. unfold dict_values. f_equal.
  induction items as [|kv d IH]; simpl; [reflexivity | now rewrite IH].
Qed.

Lemma _apply_star_one (j : Json) : _apply_star (j :: nil) = children j.
Proof. destruct j; reflexivity. Qed.

Lemma list_pop_snoc {A : Type} (l : list A) (x : A) :
  list_pop (l ++ x :: nil) = Some (x, l).
Proof. unfold list_pop. rewrite rev_app_distr. simpl. now rewrite rev_involutive. Qed.

Lemma list_pop_nil {A : Type} : list_pop (@nil A) = None.
Proof. reflexivity. Qed.

Section DescentByKey.
Variable name : string.

(** One iteration on a stack whose top is [node]: the node's own matches
    are collected and its children are pushed, last child first. *)
Lemma rd_loop_step (n : nat) (node : Json) (stack acc : list Json) :
  rd_loop (S n) (IsStr name) (stack ++ node :: nil) acc
  = rd_loop n (IsStr name) (stack ++ rev (children node))
      (acc ++ _apply_key (node :: nil) name).
Proof.
  cbn [rd_loop]. rewrite list_pop_snoc. unfold _apply_key, is_star.
  destruct (String.eqb name "*").
  - now rewrite _apply_star_one.
  - destruct node; simpl; rewrite ?app_nil_r; try reflexivity.
    destruct (dict_get name items); simpl; now rewrite ?app_nil_r.
Qed.

(** Popping a node and everything pushed for it takes [json_size node]
    iterations and appends its pre-order matches. *)
Lemma rd_loop_node (node : Json) :
  forall n stack acc,
    rd_loop (json_size node + n) (IsStr name) (stack ++ node :: nil) acc
    = rd_loop n (IsStr name) stack (acc ++ preorder_matches name node).
Proof.
  assert (Hlist : forall cs,
             Forall (fun c => forall n stack acc,
                       rd_loop (json_size c + n) (IsStr name) (stack ++ c :: nil) acc
                       = rd_loop n (IsStr name) stack
                           (acc ++ preorder_matches name c)) cs ->
             forall n stack acc,
               rd_loop (list_sum (map json_size cs) + n) (IsStr name)
                 (stack ++ rev cs) acc
               = rd_loop n (IsStr name) stack
                   (acc ++ flat_map (preorder_matches name) cs)).
  { induction 1 as [|c cs Hc _ IH]; intros n stack acc.
    - simpl. now rewrite !app_nil_r.
    - simpl rev. simpl map. simpl list_sum. simpl flat_map.
      rewrite app_assoc, <- Nat.add_assoc, Hc, IH. now rewrite app_assoc. }
  assert (Hnode : forall j,
             Forall (fun c => forall n stack acc,
                       rd_loop (json_size c + n) (IsStr name) (stack ++ c :: nil) acc
                       = rd_loop n (IsStr name) stack
                           (acc ++ preorder_matches name c)) (children j) ->
             forall n stack acc,
               rd_loop (json_size j + n) (IsStr name) (stack ++ j :: nil) acc
               = rd_loop n (IsStr name) stack (acc ++ preorder_matches name j)).
  { intros j Hch n stack acc.
    rewrite json_size_children, preorder_matches_children.
    cbn [Nat.add]. rewrite rd_loop_step, (Hlist _ Hch). now rewrite app_assoc. }
  induction node using Json_ind; apply Hnode; simpl; auto.
Qed.

Lemma rd_loop_nodes (cs : list Json) :
  forall n stack acc,
    rd_loop (list_sum (map json_size cs) + n) (IsStr name) (stack ++ rev cs) acc
    = rd_loop n (IsStr name) stack (acc ++ flat_map (preorder_matches name) cs).
Proof.
  induction cs as [|c cs IH]; intros n stack acc.
  - simpl. now rewrite !app_nil_r.
  - simpl rev. simpl map. simpl list_sum. simpl flat_map.
    rewrite app_assoc, <- Nat.add_assoc, rd_loop_node, IH. now rewrite app_assoc.
Qed.

Lemma _recursive_descent_key_preorder (results : list Json) :
  _recursive_descent_key results (IsStr name)
  = Returns (flat_map (preorder_matches name) results).
Proof.
  unfold _recursive_descent_key, rd_fuel.
  rewrite <- Nat.add_1_r.
  rewrite <- (app_nil_l (rev results)), rd_loop_nodes. reflexivity.
Qed.

End DescentByKey.

(** For a name other than "*", the node's own match is the value stored
    under the name. *)
Lemma preorder_matches_key (name : string) (node : Json) :
  name <> "*" ->
  preorder_matches name node
  = key_matches name node ++ flat_map (preorder_matches name) (children node).
Proof.
  intros Hne. rewrite preorder_matches_children, _apply_key_not_star by exact Hne.
  simpl. now rewrite app_nil_r.
Qed.

(** C4: a recursive descent by key returns, starting node by starting
    node, the matches in depth-first pre-order: a node's own match first,
    then the matches below it, the children of an Object taken in key order
    and those of an Array in index order. *)
Theorem recursive_descent_key_is_preorder :
  (forall name results,
      _recursive_descent_key results (IsStr name)
      = Returns (flat_map (preorder_matches name) results))
  /\ query (JObject (("a", JObject (("b", JObject (("a", JInt 1) :: nil)) :: nil)) :: nil))
       "$..a"
     = Returns (JObject (("b", JObject (("a", JInt 1) :: nil)) :: nil) :: JInt 1 :: nil).
Proof. split; [exact _recursive_descent_key_preorder | reflexivity]. Qed.

(** ** Numerals *)

Lemma uint_chars_decimal (u : Decimal.uint) : forallb isdecimal (uint_chars u) = true.
Proof. induction u; simpl; auto. Qed.

Lemma digits_fold_acc (u : Decimal.uint) (acc : positive) :
  fold_left (fun a c => 10 * a + digit_value c)%Z (uint_chars u) (Z.pos acc)
  = Z.pos (Pos.of_uint_acc u acc).
Proof.
  revert acc. unfold uint_chars.
  induction u; intros acc; cbn [NilEmpty.string_of_uint list_ascii_of_string fold_left Pos.of_uint_acc];
    [reflexivity | ..]; rewrite <- IHu; f_equal;
    match goal with
    | |- context [digit_value ?c] =>
        let v := eval vm_compute in (digit_value c) in
        change (digit_value c) with v
    end; lia.
Qed.

Lemma digits_value_uint (u : Decimal.uint) :
  digits_value (uint_chars u) = Z.of_N (Pos.of_uint u).
Proof.
  unfold digits_value, uint_chars.
  induction u; cbn [NilEmpty.string_of_uint list_ascii_of_string fold_left Pos.of_uint];
    [reflexivity | exact IHu | ..]; apply (digits_fold_acc u).
Qed.

Lemma uint_chars_pos_nonnil (p : positive) : uint_chars (Pos.to_uint p) <> nil.
Proof.
  pose proof (Unsigned.to_uint_nonnil p) as H.
  destruct (Pos.to_uint p); [congruence | ..]; discriminate.
Qed.

Lemma int_digits_pos (p : positive) :
  int_digits (uint_chars (Pos.to_uint p)) = Some (Z.pos p).
Proof.
  unfold int_digits. pose proof (uint_chars_pos_nonnil p) as Hn.
  destruct (uint_chars (Pos.to_uint p)) eqn:E; [congruence|].
  rewrite <- E, uint_chars_decimal, digits_value_uint.
  now rewrite DecimalPos.Unsigned.of_to.
Qed.

Lemma string_of_uint_pos (p : positive) :
  NilZero.string_of_uint (Pos.to_uint p) = NilEmpty.string_of_uint (Pos.to_uint p).
Proof.
  pose proof (Unsigned.to_uint_nonnil p) as H.
  destruct (Pos.to_uint p); [congruence | ..]; reflexivity.
Qed.

Lemma str_int_sign (n : Z) :
  str_int n = ((if (n <? 0)%Z then "-" else "") ++ abs_digits n)%string.
Proof.
  destruct n as [|p|p]; unfold str_int, abs_digits; simpl;
    [reflexivity | ..]; now rewrite string_of_uint_pos.
Qed.

Lemma abs_digits_decimal (n : Z) :
  forallb isdecimal (list_ascii_of_string (abs_digits n)) = true.
Proof. apply uint_chars_decimal. Qed.

Lemma abs_digits_value (n : Z) :
  int_digits (list_ascii_of_string (abs_digits n)) = Some (Z.abs n).
Proof.
  destruct n as [|p|p]; [reflexivity | ..]; apply int_digits_pos.
Qed.

Lemma isdecimal_isnumeric (c : ascii) : isdecimal c = true -> isnumeric c = true.
Proof. unfold isnumeric. now intros ->. Qed.

Lemma abs_digits_head (n : Z) :
  exists c s, abs_digits n = String c s /\ isdecimal c = true.
Proof.
  pose proof (abs_digits_decimal n) as Hd. pose proof (abs_digits_value n) as Hv.
  destruct (abs_digits n) as [|c s]; [discriminate|].
  exists c, s. split; [reflexivity|].
  simpl in Hd. now apply andb_true_iff in Hd.
Qed.

(** ** Scanning a numeral *)

Section ScanNumeral.
Context {D R : Type}.
Implicit Types (d : D) (res : R) (pre suf : string) (c : ascii).

Lemma curr_cur d res pre c suf :
  curr (cur d res pre (String c suf)) = (Returns c, cur d res pre (String c suf)).
Proof. reflexivity. Qed.

Lemma num_loop_run (s : string) :
  forall fuel k d res pre suf,
    forallb isnumeric (list_ascii_of_string s) = true ->
    ends_number suf ->
    (String.length s <= fuel)%nat ->
    num_loop fuel k (cur d res pre (s ++ suf))
    = (Returns (k ++ list_ascii_of_string s), cur d res (pre ++ s) suf).
Proof.
  induction s as [|c s IH]; intros fuel k d res pre suf Hnum Hend Hfuel.
  - rewrite str_app_nil_l, str_app_nil_r, app_nil_r.
    destruct fuel; cbn [num_loop]; unfold bind at 1; unfold get at 1;
      rewrite at_end_cur; (destruct suf as [|c suf]; [reflexivity|]);
      unfold bind at 1; rewrite curr_cur, (Hend c) by reflexivity; reflexivity.
  - simpl in Hnum. apply andb_true_iff in Hnum as [Hc Hs].
    destruct fuel as [|fuel]; [simpl in Hfuel; lia|].
    rewrite str_app_cons. cbn [num_loop]. unfold bind at 1. unfold get at 1.
    rewrite at_end_cur. unfold bind at 1. rewrite curr_cur, Hc.
    unfold bind at 1. rewrite advance_cur.
    rewrite IH by (auto; simpl in Hfuel; lia).
    rewrite <- app_assoc, str_app_assoc. reflexivity.
Qed.

Lemma int_minus (ds : list ascii) :
  int_decimal ("-"%char :: ds) = option_map Z.opp (int_digits ds).
Proof. reflexivity. Qed.

Lemma int_decimal_head c (ds : list ascii) :
  isdecimal c = true -> int_decimal (c :: ds) = int_digits (c :: ds).
Proof.
  intros Hc. unfold int_decimal.
  destruct (Ascii.eqb_spec c "-") as [->|_]; [discriminate | reflexivity].
Qed.

Lemma int_unsigned_head c (ds : list ascii) :
  isdecimal c = true -> int_unsigned (c :: ds) = c :: ds.
Proof.
  intros Hc. unfold int_unsigned.
  destruct (Ascii.eqb_spec c "-") as [->|_]; [discriminate | reflexivity].
Qed.

Lemma leading_digits_all (ds : list ascii) :
  forallb isdecimal ds = true -> leading_digits ds = List.length ds.
Proof.
  induction ds as [|c ds IH]; [reflexivity|]. cbn [forallb leading_digits].
  intros H. apply andb_true_iff in H as [-> H]. cbn [List.length]. now rewrite IH.
Qed.

Lemma length_list_ascii_of_string (s : string) :
  List.length (list_ascii_of_string s) = String.length s.
Proof. induction s as [|c s IH]; [reflexivity|]. simpl. now rewrite IH. Qed.

(** Within the limit [int] reads a decimal literal, and beyond it [int]
    raises, with the number of digits. *)
Lemma int_within (s : list ascii) :
  (Z.of_nat (leading_digits (int_unsigned s)) <= int_max_str_digits)%Z ->
  int_ s = match int_decimal s with Some n => IntValue n | None => IntInvalid end.
Proof.
  intros H. unfold int_.
  destruct (Z.ltb_spec int_max_str_digits
              (Z.of_nat (leading_digits (int_unsigned s)))); [lia | reflexivity].
Qed.

Lemma int_beyond (s : list ascii) :
  (int_max_str_digits < Z.of_nat (leading_digits (int_unsigned s)))%Z ->
  int_ s = IntTooLong (Z.of_nat (leading_digits (int_unsigned s))).
Proof.
  intros H. unfold int_.
  destruct (Z.ltb_spec int_max_str_digits
              (Z.of_nat (leading_digits (int_unsigned s)))); [reflexivity | lia].
Qed.

(** [int] on the numeral of [n], in the two parts [num] collects. *)
Lemma int_numeral (n : Z) :
  int_ ((if (n <? 0)%Z then "-"%char :: nil else nil)
        ++ list_ascii_of_string (abs_digits n))
  = if short_numeral n then IntValue n else IntTooLong (numeral_length n).
Proof.
  pose proof (abs_digits_decimal n) as Hdec.
  pose proof (abs_digits_value n) as Hval.
  assert (Hlen : Z.of_nat (leading_digits (list_ascii_of_string (abs_digits n)))
                 = numeral_length n).
  { unfold numeral_length.
    now rewrite leading_digits_all, length_list_ascii_of_string by exact Hdec. }
  assert (Hun : int_unsigned ((if (n <? 0)%Z then "-"%char :: nil else nil)
                              ++ list_ascii_of_string (abs_digits n))
                = list_ascii_of_string (abs_digits n)).
  { destruct (n <? 0)%Z; [reflexivity|]. cbn [app].
    destruct (abs_digits_head n) as (c & s & Es & Hc). rewrite Es.
    cbn [list_ascii_of_string]. now apply int_unsigned_head. }
  assert (Hdecimal : int_decimal ((if (n <? 0)%Z then "-"%char :: nil else nil)
                                  ++ list_ascii_of_string (abs_digits n))
                     = Some n).
  { destruct (Z.ltb_spec n 0) as [Hneg|Hpos]; cbn [app].
    - rewrite int_minus, Hval. cbn [option_map]. f_equal. lia.
    - destruct (abs_digits_head n) as (c & s & Es & Hc). rewrite Es in *.
      cbn [list_ascii_of_string] in *. rewrite int_decimal_head, Hval by exact Hc.
      f_equal. lia. }
  unfold short_numeral.
  destruct (Z.leb_spec (numeral_length n) int_max_str_digits) as [Hle|Hgt].
  - rewrite int_within by (rewrite Hun, Hlen; exact Hle). now rewrite Hdecimal.
  - rewrite int_beyond by (rewrite Hun, Hlen; exact Hgt). now rewrite Hun, Hlen.
Qed.

(** [num] reads back the integer that [str] printed, when its numeral is
    within the digit limit of [int]; beyond the limit it raises. *)
Lemma num_str_int (n : Z) d res pre suf :
  ends_number suf ->
  num (cur d res pre (str_int n ++ suf))
  = (read_int n, cur d res (pre ++ str_int n) suf).
Proof.
  intros Hend. pose proof (int_numeral n) as Hint. unfold read_int.
  rewrite str_int_sign.
  pose proof (abs_digits_decimal n) as Hdec.
  pose proof (abs_digits_value n) as Hval.
  assert (Hnum : forallb isnumeric (list_ascii_of_string (abs_digits n)) = true).
  { apply forallb_forall. intros c Hc. apply isdecimal_isnumeric.
    now apply (proj1 (forallb_forall _ _) Hdec). }
  unfold num. destruct (Z.ltb_spec n 0) as [Hneg|Hpos].
  - rewrite !str_app_cons, !str_app_nil_l.
    unfold bind at 1. rewrite match_cur_hit.
    unfold bind at 1. unfold get at 1. unfold bind at 1.
    rewrite remaining_cur, num_loop_run
      by (auto; rewrite str_length_app; lia).
    destruct (Z.ltb_spec n 0) as [_|?]; [|lia].
    cbn [app] in Hint |- *. rewrite Hint.
    rewrite str_app_assoc, str_app_cons, str_app_nil_l.
    destruct (short_numeral n); reflexivity.
  - rewrite str_app_nil_l.
    destruct (abs_digits_head n) as (c & s & Es & Hc).
    unfold bind at 1. rewrite match_cur_miss.
    2:{ rewrite Es, str_app_cons. simpl. intros [= ->]. discriminate. }
    unfold bind at 1. unfold get at 1. unfold bind at 1.
    rewrite remaining_cur, num_loop_run
      by (auto; rewrite str_length_app; lia).
    destruct (Z.ltb_spec n 0) as [?|_]; [lia|].
    cbn [app] in Hint |- *. rewrite Hint. rewrite Es.
    cbn [list_ascii_of_string]. destruct (short_numeral n); reflexivity.
Qed.

(** Where no number starts, [num] returns [None] and reads nothing. *)
Lemma num_absent d res pre suf :
  String.get 0 suf <> Some "-"%char ->
  ends_number suf ->
  num (cur d res pre suf) = (Returns None, cur d res pre suf).
Proof.
  intros Hminus Hend. unfold num.
  unfold bind at 1. rewrite match_cur_miss by exact Hminus.
  unfold bind at 1. unfold get at 1. unfold bind at 1.
  rewrite <- (str_app_nil_l suf) at 2.
  rewrite num_loop_run; simpl; auto with arith.
  now rewrite str_app_nil_r.
Qed.

End ScanNumeral.

(** ** Subscripts and slices *)

Section ScanSlice.
Context {D R : Type}.
Implicit Types (d : D) (res : R) (pre suf : string) (c : ascii).

Lemma ends_number_cons c suf : isnumeric c = false -> ends_number (String c suf).
Proof. intros Hc c' [= <-]. exact Hc. Qed.

Lemma read_int_short (n : Z) : short_numeral n = true -> read_int n = Returns (Some n).
Proof. unfold read_int. now intros ->. Qed.

Lemma read_int_long (n : Z) :
  short_numeral n = false
  -> read_int n = Raises (ValueError (int_limit_msg (numeral_length n))).
Proof. unfold read_int. now intros ->. Qed.

Lemma slice_bare (n : Z) d res pre suf :
  short_numeral n = true ->
  ends_number suf ->
  String.get 0 suf <> Some ":"%char ->
  slice (cur d res pre (str_int n ++ suf))
  = (Returns (Some (bare_subscript n)), cur d res (pre ++ str_int n) suf).
Proof.
  intros Hshort Hend Hcolon. unfold slice.
  unfold bind at 1. rewrite num_str_int, read_int_short by assumption.
  unfold bind at 1. rewrite match_cur_miss by exact Hcolon.
  unfold bare_subscript. destruct (Z.eqb_spec n (-1)) as [->|Hn]; reflexivity.
Qed.

(** A numeral beyond the digit limit stops [slice] where it ends. *)
Lemma slice_long (n : Z) d res pre suf :
  short_numeral n = false ->
  ends_number suf ->
  slice (cur d res pre (str_int n ++ suf))
  = (Raises (ValueError (int_limit_msg (numeral_length n))),
     cur d res (pre ++ str_int n) suf).
Proof.
  intros Hn Hend. unfold slice.
  unfold bind at 1. rewrite num_str_int, read_int_long by assumption. reflexivity.
Qed.

Lemma slice_start_stop (n m : Z) d res pre suf :
  short_numeral n = true ->
  short_numeral m = true ->
  ends_number suf ->
  String.get 0 suf <> Some ":"%char ->
  slice (cur d res pre (str_int n ++ String ":" (str_int m ++ suf)))
  = (Returns (Some (mk_slice (Some n) (Some m) None)),
     cur d res (pre ++ str_int n ++ String ":" (str_int m)) suf).
Proof.
  intros Hn Hm Hend Hcolon. unfold slice.
  unfold bind at 1.
  rewrite num_str_int, read_int_short by (try assumption; now apply ends_number_cons).
  unfold bind at 1. rewrite match_cur_hit.
  unfold bind at 1. rewrite num_str_int, read_int_short by assumption.
  unfold bind at 1. rewrite match_cur_miss by exact Hcolon.
  rewrite !str_app_assoc, str_app_cons, str_app_nil_l. reflexivity.
Qed.

(** The text of an integer starts with "-" or a decimal digit. *)
Lemma str_int_head (n : Z) :
  exists c s, str_int n = String c s /\ (c = "-"%char \/ isdecimal c = true).
Proof.
  rewrite str_int_sign. destruct (abs_digits_head n) as (c & s & E & Hc).
  destruct (n <? 0)%Z.
  - exists "-"%char, (abs_digits n). auto.
  - exists c, s. rewrite str_app_nil_l. auto.
Qed.

(** In front of a number, [bracket] goes to the subscript branch. *)
Lemma bracket_number (n : Z) d res pre suf :
  bracket (cur d res pre (str_int n ++ suf))
  = (result <- slice ;;
     match result with
     | None =>
         r <- get ;;
         raise (ParseError ("Expected a subscript or a slice after '[' (pos "
                            ++ str_int (idx r) ++ ")."))%string
     | Some s =>
         consume "]" "after numerical subscript or slice" ;;
         ret (IsSlice s)
     end) (cur d res pre (str_int n ++ suf)).
Proof.
  destruct (str_int_head n) as (c & s & E & Hc).
  assert (Hmiss : forall x, x <> "-"%char -> isdecimal x = false ->
                            String.get 0 (str_int n ++ suf) <> Some x).
  { intros x Hx1 Hx2. rewrite E, str_app_cons. simpl. intros [= ->].
    destruct Hc; congruence. }
  unfold bracket.
  unfold bind at 1. rewrite match_cur_miss by (apply Hmiss; [discriminate | reflexivity]).
  unfold bind at 1. rewrite match_cur_miss by (apply Hmiss; [discriminate | reflexivity]).
  unfold bind at 1. rewrite match_cur_miss by (apply Hmiss; [discriminate | reflexivity]).
  reflexivity.
Qed.

End ScanSlice.

Lemma list_getslice_equal_bounds {A : Type} (l : list A) (n : Z) :
  list_getslice l (mk_slice (Some n) (Some n) None) = Some nil.
Proof.
  unfold list_getslice, slice_indices. cbn [step start stop default].
  change (1 =? 0)%Z with false. change (1 <? 0)%Z with false. cbv iota.
  unfold slice_length. change (1 <? 0)%Z with false. cbv iota.
  now rewrite Z.ltb_irrefl.
Qed.

(** C5: a bare numeric subscript [n], written with at most 4300 digits,
    is read as the slice [n : n + 1], except that [-1] is read as the slice
    from [-1] with no end; so "$[-1]" selects the last item. *)
Theorem slice_bare_subscript (n : Z) (d : Json) (res : list Json) (pre suf : string) :
  short_numeral n = true ->
  ends_number suf ->
  String.get 0 suf <> Some ":"%char ->
  slice (cur d res pre (str_int n ++ suf))
  = (Returns (Some (if (n =? -1)%Z
                    then mk_slice (Some (-1)%Z) None None
                    else mk_slice (Some n) (Some (n + 1)%Z) None)),
     cur d res (pre ++ str_int n) suf)
  /\ query (ints (1 :: 2 :: 3 :: nil)%Z) "$[-1]" = Returns (JInt 3 :: nil).
Proof.
  intros Hshort Hend Hcolon. split; [|reflexivity].
  now apply slice_bare.
Qed.

Lemma slice_bare_subscript_witness :
  slice (cur (ints (1 :: 2 :: 3 :: nil)%Z) (ints (1 :: 2 :: 3 :: nil)%Z :: nil) "$[" "-1]")
  = (Returns (Some (mk_slice (Some (-1)%Z) None None)),
     cur (ints (1 :: 2 :: 3 :: nil)%Z) (ints (1 :: 2 :: 3 :: nil)%Z :: nil) "$[-1" "]")
  /\ query (ints (1 :: 2 :: 3 :: nil)%Z) "$[-1]" = Returns (JInt 3 :: nil).
Proof.
  apply (slice_bare_subscript (-1) _ _ "$[" "]").
  - reflexivity.
  - intros c [= <-]. reflexivity.
  - discriminate.
Defined.

(** A bare subscript of 4301 digits is not read as a slice: [int] refuses
    its numeral, and [slice] raises [ValueError]. *)
Lemma slice_long_subscript_raises :
  slice (cur JNull (JNull :: nil) "$[" (str_int (10 ^ 4300) ++ "]"))
  = (Raises (ValueError
               "Exceeds the limit (4300 digits) for integer string conversion: value has 4301 digits; use sys.set_int_max_str_digits() to increase the limit"),
     cur JNull (JNull :: nil) ("$[" ++ str_int (10 ^ 4300)) "]").
Proof.
  rewrite slice_long;
    [|vm_compute; reflexivity | intros c [= <-]; reflexivity].
  replace (numeral_length (10 ^ 4300)) with 4301%Z by (vm_compute; reflexivity).
  reflexivity.
Qed.

(** ** Segments of the driver *)

Lemma child_end (fuel : nat) (d : Json) (res : list Json) (pre : string) :
  child (S fuel) (cur d res pre "") = (Returns tt, cur d res pre "").
Proof. cbn [child]. unfold bind, get. now rewrite at_end_cur. Qed.

Lemma child_bracket (fuel : nat) (d : Json) (res : list Json) (pre suf : string) :
  child (S fuel) (cur d res pre (String "[" suf))
  = (k <- bracket ;; apply_selector k ;; child fuel)
      (cur d res (pre ++ "[") suf).
Proof.
  cbn [child]. unfold bind at 1. unfold get at 1. rewrite at_end_cur.
  unfold bind at 1. rewrite match_cur_miss by discriminate.
  unfold bind at 1. rewrite match_cur_hit. reflexivity.
Qed.

Lemma apply_selector_cur (k : KeyOrSlice) (d : Json) (res : list Json) pre suf :
  apply_selector k (cur d res pre suf)
  = match k with
    | IsStr s => (Returns tt, cur d (_apply_key res s) pre suf)
    | IsSlice sl =>
        match _apply_slice res sl with
        | Returns v => (Returns tt, cur d v pre suf)
        | Raises e => (Raises e, cur d res pre suf)
        | OutOfFuel => (OutOfFuel, cur d res pre suf)
        end
    end.
Proof.
  destruct k as [s|sl]; unfold apply_selector, update_results, bind, get;
    [reflexivity|].
  change (results (cur d res pre suf)) with res.
  destruct (_apply_slice res sl); reflexivity.
Qed.

(** C8: a slice whose two bounds are the same integer, written with at
    most 4300 digits, selects nothing, whatever the array. *)
Theorem query_equal_bounds_empty (arr : list Json) (n : Z) :
  short_numeral n = true ->
  query (JArray arr) ("$[" ++ str_int n ++ ":" ++ str_int n ++ "]") = Returns nil
  /\ query (ints (1 :: 2 :: 3 :: 4 :: nil)%Z) "$[0:0]" = Returns nil.
Proof.
  intros Hshort. split; [|reflexivity].
  unfold query, run_query.
  change ("$[" ++ str_int n ++ ":" ++ str_int n ++ "]")%string
    with (String "$" (String "[" (str_int n ++ String ":" (str_int n ++ "]")))).
  rewrite Runner_query_after_root. cbn [String.length].
  unfold bind at 1 2. rewrite child_bracket.
  unfold bind at 1. rewrite bracket_number.
  unfold bind at 1.
  rewrite slice_start_stop
    by first [ exact Hshort | intros c [= <-]; reflexivity | discriminate ].
  unfold bind at 1. rewrite consume_cur_hit.
  unfold ret at 1. unfold bind at 1. rewrite apply_selector_cur.
  cbn [_apply_slice]. rewrite list_getslice_equal_bounds.
  cbn [app]. rewrite child_end. reflexivity.
Qed.

Lemma query_equal_bounds_empty_witness :
  query (JArray (JInt 1 :: JInt 2 :: JInt 3 :: nil))
        ("$[" ++ str_int 2 ++ ":" ++ str_int 2 ++ "]") = Returns nil
  /\ query (ints (1 :: 2 :: 3 :: 4 :: nil)%Z) "$[0:0]" = Returns nil.
Proof.
  apply (query_equal_bounds_empty (JInt 1 :: JInt 2 :: JInt 3 :: nil) 2).
  reflexivity.
Defined.

(** With equal bounds of 4301 digits the query does not return the empty
    list: [int] refuses the first bound, and the [ValueError] ends the
    query. *)
Lemma query_equal_long_bounds_raises :
  query (ints (1 :: 2 :: 3 :: 4 :: nil)%Z)
        ("$[" ++ str_int (10 ^ 4300) ++ ":" ++ str_int (10 ^ 4300) ++ "]")
  = Raises (ValueError
              "Exceeds the limit (4300 digits) for integer string conversion: value has 4301 digits; use sys.set_int_max_str_digits() to increase the limit").
Proof.
  unfold query, run_query.
  change ("$[" ++ str_int (10 ^ 4300) ++ ":" ++ str_int (10 ^ 4300) ++ "]")%string
    with (String "$" (String "[" (str_int (10 ^ 4300)
                                  ++ String ":" (str_int (10 ^ 4300) ++ "]")))).
  rewrite Runner_query_after_root.
  unfold bind at 1 2. rewrite child_bracket.
  unfold bind at 1. rewrite bracket_number.
  unfold bind at 1.
  rewrite slice_long;
    [|vm_compute; reflexivity | intros c [= <-]; reflexivity].
  replace (numeral_length (10 ^ 4300)) with 4301%Z by (vm_compute; reflexivity).
  reflexivity.
Qed.

(** ** What the code writes to: the store-level model *)

Section Frame.
Import Heap.
Variable h0 : store.

Lemma keeps_ret {A : Type} (a : A) (post : A -> Prop) :
  post a -> keeps h0 (ret a) post.
Proof. intros Ha h Hh. split; [exact Hh|]. now intros a' [= <-]. Qed.

Lemma keeps_raise {A : Type} (e : exn) (post : A -> Prop) : keeps h0 (raise e) post.
Proof. intros h Hh. split; [exact Hh | discriminate]. Qed.

Lemma keeps_out_of_fuel {A : Type} (post : A -> Prop) : keeps h0 out_of_fuel post.
Proof. intros h Hh. split; [exact Hh | discriminate]. Qed.

Lemma keeps_get : keeps h0 get (fun h => h0 ⊆ h).
Proof. intros h Hh. split; [exact Hh|]. now intros a [= <-]. Qed.

Lemma keeps_bind {A B : Type} (m : ST store A) (k : A -> ST store B)
      (mid : A -> Prop) (post : B -> Prop) :
  keeps h0 m mid -> (forall a, mid a -> keeps h0 (k a) post) -> keeps h0 (bind m k) post.
Proof.
  intros Hm Hk h Hh. unfold bind. destruct (Hm h Hh) as [Hsub Hret].
  destruct (m h) as [[a| |] h1]; simpl in *.
  - apply (Hk a); auto.
  - split; [exact Hsub | discriminate].
  - split; [exact Hsub | discriminate].
Qed.

Lemma keeps_weaken {A : Type} (m : ST store A) (post post' : A -> Prop) :
  keeps h0 m post -> (forall a, post a -> post' a) -> keeps h0 m post'.
Proof.
  intros Hm Himp h Hh. destruct (Hm h Hh) as [Hsub Hret]. split; auto.
Qed.

(** A write at a reference outside [h0] keeps [h0]. *)
Lemma keeps_write (l : loc) (o : obj) (h : store) :
  l ∉ dom h0 -> h0 ⊆ h -> h0 ⊆ <[l := o]> h.
Proof.
  intros Hl Hh. apply insert_subseteq_r; [|exact Hh].
  now apply not_elem_of_dom.
Qed.

Lemma keeps_new_list (xs : list val) :
  keeps h0 (new_list xs) (fun l => l ∉ dom h0).
Proof.
  intros h Hh. unfold new_list, bind, get, put, ret. simpl.
  assert (Hfresh : fresh (dom h) ∉ dom h0).
  { intros Hin. apply (is_fresh (dom h)).
    now apply (subseteq_dom h0 h Hh). }
  split; [now apply keeps_write|]. now intros a [= <-].
Qed.

Lemma keeps_read_list (v : val) : keeps h0 (read_list v) any.
Proof.
  intros h Hh. unfold read_list, bind, get.
  destruct (as_list h v); (split; [exact Hh | now intros]).
Qed.

Lemma keeps_read_dict (v : val) : keeps h0 (read_dict v) any.
Proof.
  intros h Hh. unfold read_dict, bind, get.
  destruct (as_dict h v); (split; [exact Hh | now intros]).
Qed.

Lemma keeps_list_extend (l : loc) (xs : list val) :
  l ∉ dom h0 -> keeps h0 (list_extend l xs) any.
Proof.
  intros Hl. unfold list_extend.
  apply (keeps_bind _ _ any); [apply keeps_read_list|]. intros ys _.
  intros h Hh. unfold bind, get, put. simpl.
  split; [now apply keeps_write | now intros].
Qed.

Lemma keeps_list_append (l : loc) (x : val) :
  l ∉ dom h0 -> keeps h0 (list_append l x) any.
Proof. apply keeps_list_extend. Qed.

Lemma keeps_list_pop_at (l : loc) :
  l ∉ dom h0 -> keeps h0 (list_pop_at l) any.
Proof.
  intros Hl. unfold list_pop_at.
  apply (keeps_bind _ _ any); [apply keeps_read_list|]. intros ys _.
  destruct (list_pop ys) as [[x ys']|]; [|apply keeps_raise].
  intros h Hh. unfold bind, get, put, ret. simpl.
  split; [now apply keeps_write | now intros].
Qed.

Lemma keeps_for_each {A : Type} (xs : list A) (body : A -> ST store unit) :
  (forall x, keeps h0 (body x) any) -> keeps h0 (for_each xs body) any.
Proof.
  intros Hbody. induction xs as [|x xs IH]; cbn [for_each].
  - now apply keeps_ret.
  - apply (keeps_bind _ _ any); auto.
Qed.

Ltac keeps_step :=
  first [ apply keeps_raise
        | apply keeps_out_of_fuel
        | apply keeps_ret; exact I
        | apply keeps_read_list
        | apply keeps_read_dict
        | apply keeps_list_extend; assumption
        | apply keeps_list_append; assumption
        | apply keeps_list_pop_at; assumption
        | eapply keeps_bind; [apply keeps_get | intros ? _]
        | eapply keeps_bind; [apply keeps_new_list | intros ? ?]
        | eapply keeps_bind; [apply keeps_read_list | intros ? _]
        | eapply keeps_bind; [apply keeps_read_dict | intros ? _]
        | eapply keeps_bind;
            [apply keeps_list_extend; assumption | intros ? _]
        | eapply keeps_bind;
            [apply keeps_list_pop_at; assumption | intros ? _] ].

Lemma keeps__apply_star (results : val) : keeps h0 (_apply_star results) any.
Proof.
  unfold _apply_star. repeat keeps_step.
  eapply keeps_bind; [|intros ? _; now apply keeps_ret].
  apply keeps_for_each. intros result.
  keeps_step.
  eapply (keeps_bind _ _ any).
  { destruct (as_dict _ result); keeps_step. }
  intros _ _. keeps_step. destruct (as_list _ result); keeps_step.
Qed.

Lemma keeps__apply_key (results : val) (key : string) :
  keeps h0 (_apply_key results key) any.
Proof.
  unfold _apply_key. destruct (String.eqb key "*"); [apply keeps__apply_star|].
  repeat keeps_step.
Qed.

Lemma keeps__apply_slice (results : val) (sl : PySlice) :
  keeps h0 (_apply_slice results sl) any.
Proof.
  unfold _apply_slice. repeat keeps_step.
  match goal with |- context [slice_items ?h ?i ?s] => destruct (slice_items h i s) end;
    repeat keeps_step.
Qed.

Lemma keeps_rd_loop (fuel : nat) (key : KeyOrSlice) (todo new_results : loc) :
  todo ∉ dom h0 -> new_results ∉ dom h0 ->
  keeps h0 (rd_loop fuel key todo new_results) any.
Proof.
  intros Htodo Hnr. induction fuel as [|fuel IH]; cbn [rd_loop]; [keeps_step|].
  eapply keeps_bind; [apply keeps_read_list | intros pending _].
  destruct pending as [|x pending]; [keeps_step|].
  eapply keeps_bind; [now apply keeps_list_pop_at | intros curr _].
  destruct (is_star key).
  - keeps_step.
    eapply keeps_bind; [apply keeps__apply_star | intros new_values _].
    repeat keeps_step. exact IH.
  - eapply keeps_bind; [apply keeps_get | intros h _].
    destruct (as_dict h curr) as [d|]; [|destruct (as_list h curr) as [l|]].
    + eapply (keeps_bind _ _ any).
      { destruct key as [k|s]; [destruct (dict_get k d)|]; keeps_step. }
      intros _ _. repeat keeps_step. exact IH.
    + eapply (keeps_bind _ _ any).
      { destruct key as [k|s]; [|destruct (list_getslice l s)]; keeps_step. }
      intros _ _. repeat keeps_step. exact IH.
    + exact IH.
Qed.

Lemma keeps__recursive_descent_key (fuel : nat) (results : val) (key : KeyOrSlice) :
  keeps h0 (_recursive_descent_key fuel results key) any.
Proof.
  unfold _recursive_descent_key. repeat keeps_step.
  eapply keeps_bind; [now apply keeps_rd_loop | intros _ _; keeps_step].
Qed.

End Frame.

Section FrameRunner.
Import Heap.
Variable h0 : store.

Lemma keeps_h_on_runner {A : Type} (m : ST hrunner A) : keeps_h h0 (on_runner m).
Proof. intros r h Hh. unfold on_runner. now destruct (m r). Qed.

Lemma keeps_h_on_store {A : Type} (m : ST store A) (post : A -> Prop) :
  keeps h0 m post -> keeps_h h0 (on_store m).
Proof.
  intros Hm r h Hh. unfold on_store. destruct (Hm h Hh) as [Hsub _].
  now destruct (m h).
Qed.

Lemma keeps_h_ret {A : Type} (a : A) : keeps_h h0 (ret a).
Proof. now intros r h Hh. Qed.

Lemma keeps_h_raise {A : Type} (e : exn) : keeps_h h0 (@raise _ A e).
Proof. now intros r h Hh. Qed.

Lemma keeps_h_out_of_fuel {A : Type} : keeps_h h0 (@out_of_fuel _ A).
Proof. now intros r h Hh. Qed.

Lemma keeps_h_bind {A B : Type} (m : Mh A) (k : A -> Mh B) :
  keeps_h h0 m -> (forall a, keeps_h h0 (k a)) -> keeps_h h0 (bind m k).
Proof.
  intros Hm Hk r h Hh. unfold bind. specialize (Hm r h Hh).
  destruct (m (r, h)) as [[a| |] [r1 h1]]; simpl in *; auto.
  now apply Hk.
Qed.

Ltac keeps_h_step :=
  first [ apply keeps_h_ret | apply keeps_h_raise | apply keeps_h_out_of_fuel
        | apply keeps_h_on_runner
        | apply keeps_h_bind; [apply keeps_h_on_runner | intros ?] ].

Lemma keeps_h_update_results (f : val -> ST store val) :
  (forall v, keeps h0 (f v) any) -> keeps_h h0 (update_results f).
Proof.
  intros Hf. unfold update_results. keeps_h_step.
  apply keeps_h_bind; [now apply (keeps_h_on_store _ any) | intros v].
  repeat keeps_h_step.
Qed.

Lemma keeps_h_apply_selector (k : KeyOrSlice) : keeps_h h0 (apply_selector k).
Proof.
  destruct k as [s|sl]; apply keeps_h_update_results; intros v.
  - apply keeps__apply_key.
  - apply keeps__apply_slice.
Qed.

Lemma keeps_h_recursive_descent (fuel : nat) : keeps_h h0 (recursive_descent fuel).
Proof.
  unfold recursive_descent.
  apply keeps_h_bind; [apply keeps_h_on_runner | intros b].
  apply keeps_h_bind; [apply keeps_h_on_runner | intros k].
  apply keeps_h_update_results. intros v. apply keeps__recursive_descent_key.
Qed.

Lemma keeps_h_child (rd_fuel fuel : nat) : keeps_h h0 (child rd_fuel fuel).
Proof.
  induction fuel as [|fuel IH]; cbn [child]; [apply keeps_h_out_of_fuel|].
  apply keeps_h_bind; [apply keeps_h_on_runner | intros r].
  destruct (at_end r); [apply keeps_h_ret|].
  apply keeps_h_bind; [apply keeps_h_on_runner | intros dot].
  destruct dot.
  - apply keeps_h_bind; [apply keeps_h_on_runner | intros dot2].
    apply keeps_h_bind; [|intros _; exact IH].
    destruct dot2.
    + apply keeps_h_recursive_descent.
    + apply keeps_h_bind; [apply keeps_h_on_runner | intros k].
      apply keeps_h_apply_selector.
  - apply keeps_h_bind; [apply keeps_h_on_runner | intros br].
    destruct br.
    + apply keeps_h_bind; [apply keeps_h_on_runner | intros k].
      apply keeps_h_bind; [apply keeps_h_apply_selector | intros _; exact IH].
    + apply keeps_h_bind; [apply keeps_h_on_runner | intros r'].
      apply keeps_h_raise.
Qed.

Lemma keeps_h_Runner_query (rd_fuel fuel : nat) : keeps_h h0 (Runner_query rd_fuel fuel).
Proof.
  unfold Runner_query.
  apply keeps_h_bind; [apply keeps_h_on_runner | intros r].
  apply keeps_h_bind;
    [apply (keeps_h_on_store _ (fun l => l ∉ dom h0)), keeps_new_list | intros root].
  apply keeps_h_bind; [apply keeps_h_on_runner | intros _].
  apply keeps_h_bind; [apply keeps_h_on_runner | intros _].
  apply keeps_h_bind; [apply keeps_h_child | intros _].
  apply keeps_h_bind; [apply keeps_h_on_runner | intros r'].
  apply keeps_h_ret.
Qed.

Lemma keeps_query (rd_fuel : nat) (d : val) (p : string) :
  keeps h0 (query rd_fuel d p) any.
Proof.
  intros h Hh. split; [|now intros]. unfold query, bind.
  destruct (keeps_new_list h0 nil h Hh) as [Hsub _].
  destruct (new_list nil h) as [[res0| |] h1]; simpl in *; auto.
  pose proof (keeps_h_Runner_query rd_fuel (S (String.length p))
                (new_runner d p (VRef res0)) h1 Hsub) as Hq.
  destruct (Runner_query _ _ _) as [o [r' h']]. exact Hq.
Qed.

End FrameRunner.

(** A tree read from a store is read the same from any store that extends
    it. *)
Lemma read_json_extends (n : nat) :
  forall (h h' : Heap.store) (v : Heap.val) (j : Json),
    h ⊆ h' -> Heap.read_json n h v = Some j -> Heap.read_json n h' v = Some j.
Proof.
  induction n as [|n IH]; intros h h' v j Hsub; [discriminate|].
  cbn [Heap.read_json]. destruct v as [| | | | |l]; auto.
  destruct (h !! l) as [o|] eqn:E; [|discriminate].
  rewrite (lookup_weaken h h' l o E Hsub).
  destruct o as [d|xs]; intros Hr.
  - destruct (mapM _ d) as [items|] eqn:Em; [|discriminate].
    apply mapM_Some in Em.
    assert (Em' : mapM (fun kv => option_map (pair (fst kv))
                                    (Heap.read_json n h' (snd kv))) d = Some items).
    { apply mapM_Some. eapply Forall2_impl; [exact Em|].
      intros [k v] [k' j'] Hkv. simpl in *.
      destruct (Heap.read_json n h v) as [j0|] eqn:E0; [|discriminate].
      now rewrite (IH h h' v j0 Hsub E0). }
    now rewrite Em'.
  - destruct (mapM _ xs) as [items|] eqn:Em; [|discriminate].
    apply mapM_Some in Em.
    assert (Em' : mapM (Heap.read_json n h') xs = Some items).
    { apply mapM_Some. eapply Forall2_impl; [exact Em|].
      intros v j' Hv. now apply (IH h h'). }
    now rewrite Em'.
Qed.

(** C9: a query writes only to lists it created.  Every object of the
    store the caller passes is in the store the call leaves, unchanged,
    whether the call returns, raises or is cut short; so the tree the data
    denotes reads the same before and after. *)
Theorem query_keeps_the_data (rd_fuel : nat) (d : Heap.val) (p : string)
        (h : Heap.store) :
  h ⊆ snd (Heap.query rd_fuel d p h)
  /\ forall n j,
       Heap.read_json n h d = Some j ->
       Heap.read_json n (snd (Heap.query rd_fuel d p h)) d = Some j.
Proof.
  assert (Hsub : h ⊆ snd (Heap.query rd_fuel d p h)).
  { now apply (keeps_query h rd_fuel d p h). }
  split; [exact Hsub|]. intros n j. now apply read_json_extends.
Qed.

Lemma query_keeps_the_data_witness :
  Heap.read_json 3 (snd (Heap.query 10 (Heap.VRef 2%positive) "$..[0]" sample_store))
    (Heap.VRef 2%positive)
  = Some (JObject (("a", ints (1 :: 2 :: nil)%Z) :: nil)).
Proof.
  apply (proj2 (query_keeps_the_data 10 (Heap.VRef 2%positive) "$..[0]" sample_store)).
  vm_compute. reflexivity.
Defined.

(** On that store the query returns a new list that refers to the items
    found. *)
Example query_on_sample_store :
  let (o, h') := Heap.query 10 (Heap.VRef 2%positive) "$..[0]" sample_store in
  match o with
  | Returns res =>
      option_map (fun xs => mapM (Heap.read_json 3 h') xs) (Heap.as_list h' res)
  | _ => None
  end = Some (Some (JInt 1 :: nil)).
Proof. vm_compute. reflexivity. Qed.

(** ** The parser reads the path only

    Every cursor and parser method, run with the cursor between [pre] and
    [suf], ends with the cursor further right in the same path; its outcome
    and the text it reads do not depend on the data or on the result set;
    the scanning loops never run out of fuel, and nothing is raised but
    [ParseError], [AssertionError] and [ValueError]. *)

Lemma expected_finishes {A : Type} (o : outcome A) : expected o -> o <> OutOfFuel.
Proof. now intros H ->. Qed.

Lemma idx_cur {D R : Type} (d : D) (res : R) (pre suf : string) :
  idx (cur d res pre suf) = Z.of_nat (String.length pre).
Proof. reflexivity. Qed.

Lemma _curr_cur {D R : Type} (d : D) (res : R) (pre suf : string) :
  _curr (cur d res pre suf) = String.get 0 suf.
Proof. reflexivity. Qed.

Lemma total_here {A : Type} (m : method A) (pre suf : string) (o : outcome A) :
  expected o ->
  (forall (D R : Type) (d : D) (res : R),
      m D R (cur d res pre suf) = (o, cur d res pre suf)) ->
  total m pre suf.
Proof.
  intros Ho Hm. exists o, ""%string, suf. split; [split|exact Ho].
  - reflexivity.
  - intros. now rewrite str_app_nil_r.
Qed.

Lemma total_ret {A : Type} (a : A) (pre suf : string) :
  total (fun D R => ret a) pre suf.
Proof. now apply (total_here _ _ _ (Returns a)). Qed.

Lemma total_raise {A : Type} (e : exn) (pre suf : string) :
  expected (@Raises A e) -> total (fun D R => @raise _ A e) pre suf.
Proof. intros He. now apply (total_here _ _ _ (Raises e)). Qed.

Lemma total_ext {A : Type} (m m' : method A) (pre suf : string) :
  (forall (D R : Type) (d : D) (res : R),
      m D R (cur d res pre suf) = m' D R (cur d res pre suf)) ->
  total m' pre suf -> total m pre suf.
Proof.
  intros Heq (o & mid & rest & [Hsuf Hm] & Ho).
  exists o, mid, rest. split; [split|exact Ho]; [exact Hsuf|].
  intros. now rewrite Heq.
Qed.

Lemma total_bind_scans {A B : Type} (m : method A) (k : A -> method B)
      (pre suf : string) :
  total m pre suf ->
  (forall a mid rest,
      scans m pre suf (Returns a) mid rest -> total (k a) (pre ++ mid) rest) ->
  total (fun D R => bind (m D R) (fun a => k a D R)) pre suf.
Proof.
  intros (o & mid & rest & [Hsuf Hm] & Ho) Hk.
  destruct o as [a| e |]; [| |contradiction].
  - destruct (Hk a mid rest (conj Hsuf Hm))
      as (o' & mid' & rest' & [Hsuf' Hk'] & Ho').
    exists o', (mid ++ mid')%string, rest'. split; [split|exact Ho'].
    + now rewrite str_app_assoc, <- Hsuf'.
    + intros. unfold bind. rewrite Hm, Hk'. now rewrite str_app_assoc.
  - exists (Raises e), mid, rest. split; [split|exact Ho]; [exact Hsuf|].
    intros. unfold bind. now rewrite Hm.
Qed.

Lemma total_bind {A B : Type} (m : method A) (k : A -> method B)
      (pre suf : string) :
  total m pre suf ->
  (forall a mid rest,
      suf = (mid ++ rest)%string -> total (k a) (pre ++ mid) rest) ->
  total (fun D R => bind (m D R) (fun a => k a D R)) pre suf.
Proof.
  intros Hm Hk. apply total_bind_scans; [exact Hm|].
  intros a mid rest [Hsuf _]. now apply Hk.
Qed.

(** What a run reads is as long as the cursor moves. *)
Lemma scans_unique {A : Type} (m : method A) (pre suf : string)
      (o o' : outcome A) (mid mid' rest rest' : string) :
  scans m pre suf o mid rest -> scans m pre suf o' mid' rest' ->
  o = o' /\ String.length mid = String.length mid'
  /\ String.length rest = String.length rest'.
Proof.
  intros [Hsuf Hm] [Hsuf' Hm'].
  specialize (Hm unit unit tt tt). rewrite (Hm' unit unit tt tt) in Hm.
  injection Hm as Ho _ Hidx _. rewrite !str_length_app in Hidx.
  assert (Hlen : String.length mid = String.length mid') by lia.
  split; [now symmetry|]. split; [exact Hlen|].
  apply (f_equal String.length) in Hsuf, Hsuf'.
  rewrite str_length_app in Hsuf, Hsuf'. lia.
Qed.

Lemma scans_advance (pre suf : string) (a : unit) (mid rest : string) :
  scans (@advance) pre suf (Returns a) mid rest ->
  S (String.length rest) = String.length suf.
Proof.
  intros Hs. destruct suf as [|c suf].
  - destruct Hs as [_ Hm]. specialize (Hm unit unit tt tt).
    unfold advance, bind, get in Hm. rewrite at_end_cur in Hm. discriminate.
  - assert (Hs' : scans (@advance) pre (String c suf) (Returns tt) (String c "") suf).
    { split; [reflexivity|]. intros. apply advance_cur. }
    destruct (scans_unique _ _ _ _ _ _ _ _ _ Hs Hs') as (_ & _ & Hr).
    simpl. now rewrite Hr.
Qed.

Lemma scans_match_hit (c : ascii) (pre suf : string) (mid rest : string) :
  scans (fun D R => @match_ D R c) pre suf (Returns true) mid rest ->
  S (String.length rest) = String.length suf.
Proof.
  intros Hs. destruct (decide (String.get 0 suf = Some c)) as [Hc|Hc].
  - destruct suf as [|c' suf]; [discriminate|]. simpl in Hc. injection Hc as ->.
    assert (Hs' : scans (fun D R => @match_ D R c) pre (String c suf)
                    (Returns true) (String c "") suf).
    { split; [reflexivity|]. intros. apply match_cur_hit. }
    destruct (scans_unique _ _ _ _ _ _ _ _ _ Hs Hs') as (_ & _ & Hr).
    simpl. now rewrite Hr.
  - destruct Hs as [_ Hm]. specialize (Hm unit unit tt tt).
    rewrite match_cur_miss in Hm by exact Hc. discriminate.
Qed.

Lemma scans_length {A : Type} (m : method A) (pre suf : string)
      (o : outcome A) (mid rest : string) :
  scans m pre suf o mid rest -> (String.length rest <= String.length suf)%nat.
Proof. intros [-> _]. rewrite str_length_app. lia. Qed.

(** [r <- get ;; k r] where [k] uses the runner it is given through
    [at_end], [remaining], [idx] and [_curr] only. *)
Lemma total_get_bind {A : Type}
      (k : forall D R : Type, Runner D R -> ST (Runner D R) A)
      (m : method A) (pre suf : string) :
  (forall (D R : Type) (d : D) (res : R), k D R (cur d res pre suf) = m D R) ->
  total m pre suf ->
  total (fun D R => bind get (k D R)) pre suf.
Proof. intros Hk. apply total_ext. intros. unfold bind, get. now rewrite Hk. Qed.

Ltac cur_fields :=
  rewrite ?at_end_cur, ?remaining_cur, ?idx_cur, ?_curr_cur.

Lemma total_advance (pre suf : string) : total (@advance) pre suf.
Proof.
  destruct suf as [|c suf].
  - apply (total_here _ _ _ (Raises (AssertionError ""))); [exact I|].
    intros. unfold advance, bind, get. now rewrite at_end_cur.
  - exists (Returns tt), (String c ""), suf. split; [split|exact I].
    + reflexivity.
    + intros. apply advance_cur.
Qed.

Lemma total_match_ (c : ascii) (pre suf : string) :
  total (fun D R => @match_ D R c) pre suf.
Proof.
  destruct (decide (String.get 0 suf = Some c)) as [Hc|Hc].
  - destruct suf as [|c' suf]; [discriminate|]. simpl in Hc. injection Hc as ->.
    exists (Returns true), (String c ""), suf. split; [split|exact I].
    + reflexivity.
    + intros. apply match_cur_hit.
  - apply (total_here _ _ _ (Returns false)); [exact I|].
    intros. now apply match_cur_miss.
Qed.

Lemma total_curr (pre suf : string) : total (@curr) pre suf.
Proof.
  destruct suf as [|c suf].
  - now apply (total_here _ _ _ (Raises (AssertionError ""))).
  - now apply (total_here _ _ _ (Returns c)).
Qed.

Lemma str_get_in_range (s : string) :
  forall n, (n < String.length s)%nat -> exists c, String.get n s = Some c.
Proof.
  induction s as [|c s IH]; intros n Hn; [simpl in Hn; lia|].
  destruct n as [|n]; simpl; [eauto|]. apply IH. simpl in Hn. lia.
Qed.

(** [prev] after at least one character has been read. *)
Lemma total_prev (pre suf : string) : pre <> "" -> total (@prev) pre suf.
Proof.
  intros Hpre.
  assert (Hlen : (0 < String.length pre)%nat) by (destruct pre; [congruence | simpl; lia]).
  destruct (str_get_in_range (pre ++ suf) (String.length pre - 1)) as [c Hc].
  { rewrite str_length_app. lia. }
  apply (total_here _ _ _ (Returns c)); [exact I|].
  intros. unfold prev, bind, get. cbn [path cur]. rewrite idx_cur.
  unfold str_index. rewrite str_length_app.
  replace (Z.of_nat (String.length pre) - 1 <? 0)%Z with false
    by (symmetry; apply Z.ltb_ge; lia).
  replace (0 <=? Z.of_nat (String.length pre) - 1)%Z with true
    by (symmetry; apply Z.leb_le; lia).
  replace (Z.of_nat (String.length pre) - 1
           <? Z.of_nat (String.length pre + String.length suf))%Z with true
    by (symmetry; apply Z.ltb_lt; lia).
  cbn [andb].
  replace (Z.to_nat (Z.of_nat (String.length pre) - 1))
    with (String.length pre - 1)%nat by lia.
  now rewrite Hc.
Qed.

Lemma total_consume (c : ascii) (where_ : string) (pre suf : string) :
  total (fun D R => @consume D R c where_) pre suf.
Proof.
  unfold consume. eapply total_get_bind.
  { intros. cur_fields. reflexivity. }
  apply total_bind.
  - destruct suf; [apply total_ret | apply total_match_].
  - intros [|] mid rest _; [apply total_ret|].
    eapply total_get_bind.
    { intros. cur_fields. reflexivity. }
    now apply total_raise.
Qed.

Lemma total_num_loop (fuel : nat) :
  forall (k : list ascii) (pre suf : string),
    (String.length suf <= fuel)%nat ->
    total (fun D R => @num_loop D R fuel k) pre suf.
Proof.
  induction fuel as [|fuel IH]; intros k pre suf Hlen.
  - destruct suf; [|simpl in Hlen; lia].
    cbn [num_loop]. eapply total_get_bind.
    { intros. cur_fields. reflexivity. }
    apply total_ret.
  - cbn [num_loop]. eapply total_get_bind.
    { intros. cur_fields. reflexivity. }
    destruct suf as [|c suf]; [apply total_ret|].
    apply total_bind; [apply total_curr|]. intros c' mid rest Hsuf.
    destruct (isnumeric c'); [|apply total_ret].
    apply total_bind_scans; [apply total_advance|]. intros [] mid' rest' Hadv.
    apply IH. apply scans_advance in Hadv.
    apply (f_equal String.length) in Hsuf. rewrite str_length_app in Hsuf.
    simpl in *. lia.
Qed.

Lemma total_num (pre suf : string) : total (@num) pre suf.
Proof.
  unfold num. apply total_bind; [apply total_match_|]. intros neg mid rest _.
  eapply total_get_bind.
  { intros. cur_fields. reflexivity. }
  apply total_bind; [now apply total_num_loop|]. intros k mid' rest' _.
  destruct k as [|c k]; [apply total_ret|].
  destruct (int_ (c :: k));
    [apply total_ret | now apply total_raise | now apply total_raise].
Qed.

Lemma total_slice (pre suf : string) : total (@slice) pre suf.
Proof.
  unfold slice. apply total_bind; [apply total_num|]. intros start mid rest _.
  apply total_bind; [apply total_match_|]. intros [|] mid1 rest1 _.
  - apply total_bind; [apply total_num|]. intros end_ mid2 rest2 _.
    apply total_bind; [apply total_match_|]. intros [|] mid3 rest3 _.
    + apply total_bind; [apply total_num|]. intros step mid4 rest4 _.
      apply total_ret.
    + apply total_ret.
  - destruct start as [n|]; [|apply total_ret].
    destruct (n =? -1)%Z; apply total_ret.
Qed.

Lemma total_any_match (cs : list ascii) :
  forall pre suf, total (fun D R => @any_match D R cs) pre suf.
Proof.
  induction cs as [|c cs IH]; intros pre suf; cbn [any_match]; [apply total_ret|].
  apply total_bind; [apply total_match_|]. intros [|] mid rest _;
    [apply total_ret | apply IH].
Qed.

Lemma total_key_loop (fuel : nat) :
  forall (k : list ascii) (pre suf : string),
    (String.length suf <= fuel)%nat ->
    total (fun D R => @key_loop D R fuel k) pre suf.
Proof.
  induction fuel as [|fuel IH]; intros k pre suf Hlen.
  - destruct suf; [|simpl in Hlen; lia].
    cbn [key_loop]. eapply total_get_bind.
    { intros. cur_fields. reflexivity. }
    apply total_ret.
  - cbn [key_loop]. eapply total_get_bind.
    { intros. cur_fields. reflexivity. }
    destruct suf as [|c suf]; [apply total_ret|].
    apply total_bind; [apply total_curr|]. intros c' mid rest Hsuf.
    destruct (existsb (Ascii.eqb c') _); [apply total_ret|].
    destruct (existsb (Ascii.eqb c') _); [now apply total_raise|].
    apply total_bind_scans; [apply total_advance|]. intros [] mid' rest' Hadv.
    apply IH. apply scans_advance in Hadv.
    apply (f_equal String.length) in Hsuf. rewrite str_length_app in Hsuf.
    simpl in *. lia.
Qed.

Lemma scans_any_match_hit (cs : list ascii) :
  forall (pre suf mid rest : string),
    scans (fun D R => @any_match D R cs) pre suf (Returns true) mid rest ->
    suf = (mid ++ rest)%string /\ S (String.length rest) = String.length suf.
Proof.
  induction cs as [|c cs IH]; intros pre suf mid rest Hs.
  - destruct Hs as [_ Hm]. specialize (Hm unit unit tt tt). discriminate.
  - split; [apply Hs|].
    destruct (decide (String.get 0 suf = Some c)) as [Hc|Hc].
    + destruct suf as [|c' suf]; [discriminate|]. simpl in Hc. injection Hc as ->.
      assert (Hs' : scans (fun D R => @any_match D R (c :: cs)) pre (String c suf)
                      (Returns true) (String c "") suf).
      { split; [reflexivity|]. intros. cbn [any_match]. unfold bind.
        now rewrite match_cur_hit. }
      destruct (scans_unique _ _ _ _ _ _ _ _ _ Hs Hs') as (_ & _ & Hr).
      simpl. now rewrite Hr.
    + apply (IH pre suf mid rest). destruct Hs as [Hsuf Hm].
      split; [exact Hsuf|]. intros. specialize (Hm D R d res).
      cbn [any_match] in Hm. unfold bind in Hm.
      now rewrite match_cur_miss in Hm by exact Hc.
Qed.

Lemma total_key (pre suf : string) : total (@key) pre suf.
Proof.
  unfold key. eapply total_get_bind.
  { intros. cur_fields. reflexivity. }
  destruct suf as [|c suf]; [now apply total_raise|].
  apply total_bind_scans; [apply total_any_match|]. intros [|] mid rest Hany.
  - apply total_bind.
    { apply total_prev. intros E. apply scans_any_match_hit in Hany.
      destruct Hany as [Hsuf Hlen]. destruct pre; [|discriminate].
      rewrite str_app_nil_l in E. subst mid. rewrite str_app_nil_l in Hsuf.
      subst rest. simpl in Hlen. lia. }
    intros p mid1 rest1 _.
    eapply total_get_bind.
    { intros. cur_fields. reflexivity. }
    now apply total_raise.
  - apply total_bind; [apply total_slice|]. intros [s|] mid1 rest1 _;
      [apply total_ret|].
    eapply total_get_bind.
    { intros. cur_fields. reflexivity. }
    apply total_bind; [now apply total_key_loop|]. intros k mid2 rest2 _.
    apply total_ret.
Qed.

Lemma total_quoted_loop (fuel : nat) (q : ascii) :
  forall (k : list ascii) (pre suf : string),
    (String.length suf <= fuel)%nat ->
    total (fun D R => @quoted_loop D R fuel q k) pre suf.
Proof.
  induction fuel as [|fuel IH]; intros k pre suf Hlen.
  - destruct suf; [|simpl in Hlen; lia].
    cbn [quoted_loop]. eapply total_get_bind.
    { intros. cur_fields. reflexivity. }
    apply total_ret.
  - cbn [quoted_loop]. eapply total_get_bind.
    { intros. cur_fields. reflexivity. }
    destruct suf as [|c suf]; [apply total_ret|].
    destruct (decide (String.get 0 (String c suf) = Some q)); [apply total_ret|].
    cbn [String.get].
    apply total_bind_scans; [apply total_advance|]. intros [] mid' rest' Hadv.
    apply IH. apply scans_advance in Hadv. simpl in *. lia.
Qed.

Lemma total_quoted (q : ascii) (pre suf : string) :
  total (fun D R => @quoted D R q) pre suf.
Proof.
  unfold quoted. eapply total_get_bind.
  { intros. cur_fields. reflexivity. }
  apply total_bind; [now apply total_quoted_loop|]. intros k mid rest _.
  eapply total_get_bind.
  { intros. cur_fields. reflexivity. }
  destruct rest as [|c rest]; [now apply total_raise|].
  apply total_bind; [apply total_match_|]. intros [|] mid1 rest1 _;
    [|now apply total_raise].
  apply total_bind; [apply total_consume|]. intros [] mid2 rest2 _.
  apply total_ret.
Qed.

Lemma total_bracket (pre suf : string) : total (@bracket) pre suf.
Proof.
  unfold bracket. apply total_bind; [apply total_match_|]. intros [|] mid rest _.
  - apply total_bind; [apply total_consume|]. intros [] mid1 rest1 _.
    apply total_ret.
  - apply total_bind; [apply total_match_|]. intros [|] mid1 rest1 _;
      [apply total_quoted|].
    apply total_bind; [apply total_match_|]. intros [|] mid2 rest2 _;
      [apply total_quoted|].
    apply total_bind; [apply total_slice|]. intros [s|] mid3 rest3 _.
    + apply total_bind; [apply total_consume|]. intros [] mid4 rest4 _.
      apply total_ret.
    + eapply total_get_bind.
      { intros. cur_fields. reflexivity. }
      now apply total_raise.
Qed.

(** ** The query always finishes *)

Lemma list_pop_Some {A : Type} (l l' : list A) (x : A) :
  list_pop l = Some (x, l') -> l = l' ++ x :: nil.
Proof.
  unfold list_pop. intros H. destruct (rev l) as [|y r] eqn:E; [discriminate|].
  injection H as -> <-. rewrite <- (rev_involutive l), E. reflexivity.
Qed.

Lemma total_size_app (l1 l2 : list Json) :
  total_size (l1 ++ l2) = (total_size l1 + total_size l2)%nat.
Proof. unfold total_size. now rewrite map_app, list_sum_app. Qed.

Lemma total_size_rev (l : list Json) : total_size (rev l) = total_size l.
Proof.
  induction l as [|x l IH]; [reflexivity|].
  simpl rev. rewrite total_size_app, IH. unfold total_size. simpl. lia.
Qed.

Lemma total_size_snoc (l : list Json) (x : Json) :
  total_size (l ++ x :: nil) = S (total_size l + total_size (children x)).
Proof.
  rewrite total_size_app. unfold total_size at 2. simpl.
  rewrite json_size_children. fold (total_size (children x)). lia.
Qed.

(** The descent loop pops each value once: as much fuel as there are
    values on the stack and below them is enough, for every key. *)
Lemma rd_loop_finishes (fuel : nat) :
  forall (key : KeyOrSlice) (todo acc : list Json),
    (total_size todo < fuel)%nat -> rd_loop fuel key todo acc <> OutOfFuel.
Proof.
  induction fuel as [|fuel IH]; intros key todo acc Hfuel; [lia|].
  cbn [rd_loop]. destruct (list_pop todo) as [[curr todo']|] eqn:E; [|discriminate].
  apply list_pop_Some in E. subst todo. rewrite total_size_snoc in Hfuel.
  destruct (is_star key).
  - apply IH. rewrite _apply_star_one, total_size_app, total_size_rev. lia.
  - destruct curr; try (apply IH; simpl in Hfuel; lia).
    + apply IH. rewrite total_size_app, total_size_rev. simpl in Hfuel. lia.
    + destruct key as [k|s].
      * apply IH. rewrite total_size_app, total_size_rev. simpl in Hfuel. lia.
      * destruct (list_getslice elems s); [|discriminate].
        apply IH. rewrite total_size_app, total_size_rev. simpl in Hfuel. lia.
Qed.

Lemma _recursive_descent_key_finishes (results : list Json) (key : KeyOrSlice) :
  _recursive_descent_key results key <> OutOfFuel.
Proof.
  unfold _recursive_descent_key, rd_fuel. apply rd_loop_finishes.
  rewrite total_size_rev. unfold total_size. lia.
Qed.

Lemma _apply_slice_finishes (results : list Json) (sl : PySlice) :
  _apply_slice results sl <> OutOfFuel.
Proof.
  induction results as [|r results IH]; cbn [_apply_slice]; [discriminate|].
  destruct r; auto.
  destruct (list_getslice elems sl); [|discriminate].
  destruct (_apply_slice results sl); [discriminate | discriminate | congruence].
Qed.

Lemma rd_loop_raises (fuel : nat) :
  forall (key : KeyOrSlice) (todo acc : list Json) (e : exn),
    rd_loop fuel key todo acc = Raises e -> e = ValueError step_zero_msg.
Proof.
  induction fuel as [|fuel IH]; intros key todo acc e; [discriminate|].
  cbn [rd_loop]. destruct (list_pop todo) as [[curr todo']|]; [|discriminate].
  destruct (is_star key); [apply IH|].
  destruct curr; try apply IH.
  destruct key as [k|s]; [apply IH|].
  destruct (list_getslice elems s); [apply IH | now intros [= <-]].
Qed.

Lemma _recursive_descent_key_expected (results : list Json) (key : KeyOrSlice) :
  expected (_recursive_descent_key results key).
Proof.
  pose proof (_recursive_descent_key_finishes results key) as Hfin.
  destruct (_recursive_descent_key results key) as [v|e|] eqn:E;
    [exact I | | congruence].
  apply rd_loop_raises in E. now subst e.
Qed.

Lemma _apply_slice_raises (results : list Json) (sl : PySlice) (e : exn) :
  _apply_slice results sl = Raises e -> e = ValueError step_zero_msg.
Proof.
  induction results as [|r results IH]; cbn [_apply_slice]; [discriminate|].
  destruct r; auto.
  destruct (list_getslice elems sl); [|now intros [= <-]].
  destruct (_apply_slice results sl); [discriminate | auto | discriminate].
Qed.

Lemma _apply_slice_expected (results : list Json) (sl : PySlice) :
  expected (_apply_slice results sl).
Proof.
  pose proof (_apply_slice_finishes results sl) as Hfin.
  destruct (_apply_slice results sl) as [v|e|] eqn:E; [exact I | | congruence].
  apply _apply_slice_raises in E. now subst e.
Qed.

Lemma runs_method {A : Type} (m : method A) d res pre suf :
  total m pre suf -> runs (m Json (list Json)) d res pre suf.
Proof.
  intros (o & mid & rest & [Hsuf Hm] & Ho). exists o, res, mid, rest. auto.
Qed.

Lemma runs_match_ (c : ascii) d res pre suf :
  runs (@match_ Json (list Json) c) d res pre suf.
Proof. apply (runs_method (fun D R => @match_ D R c)), total_match_. Qed.

Lemma runs_key d res pre suf : runs (@key Json (list Json)) d res pre suf.
Proof. apply (runs_method (@key)), total_key. Qed.

Lemma runs_bracket d res pre suf :
  runs (@bracket Json (list Json)) d res pre suf.
Proof. apply (runs_method (@bracket)), total_bracket. Qed.

Lemma runs_consume (c : ascii) (w : string) d res pre suf :
  runs (@consume Json (list Json) c w) d res pre suf.
Proof. apply (runs_method (fun D R => @consume D R c w)), total_consume. Qed.

Lemma runs_here {A : Type} (m : Mv A) (o : outcome A) d res res' pre suf :
  m (cur d res pre suf) = (o, cur d res' pre suf) -> expected o ->
  runs m d res pre suf.
Proof.
  intros Hm Ho. exists o, res', ""%string, suf.
  rewrite str_app_nil_r. auto.
Qed.

Lemma runs_bind {A B : Type} (m : Mv A) (k : A -> Mv B) d res pre suf :
  runs m d res pre suf ->
  (forall a res' mid rest,
      suf = (mid ++ rest)%string ->
      m (cur d res pre suf) = (Returns a, cur d res' (pre ++ mid) rest) ->
      runs (k a) d res' (pre ++ mid) rest) ->
  runs (bind m k) d res pre suf.
Proof.
  intros (o & res' & mid & rest & Hsuf & Hm & Ho) Hk.
  destruct o as [a|e|]; [| |contradiction].
  - destruct (Hk a res' mid rest Hsuf Hm)
      as (o' & res'' & mid' & rest' & Hsuf' & Hk' & Ho').
    exists o', res'', (mid ++ mid')%string, rest'. repeat split.
    + now rewrite str_app_assoc, <- Hsuf'.
    + unfold bind. rewrite Hm, Hk'. now rewrite str_app_assoc.
    + exact Ho'.
  - exists (Raises e), res', mid, rest. split; [exact Hsuf|]. split; [|exact Ho].
    unfold bind. now rewrite Hm.
Qed.

Lemma runs_get_bind {A : Type} (k : runner -> Mv A) d res pre suf :
  runs (k (cur d res pre suf)) d res pre suf -> runs (bind get k) d res pre suf.
Proof. intros H. exact H. Qed.

Lemma runs_update_results (f : list Json -> outcome (list Json)) d res pre suf :
  (forall l, expected (f l)) -> runs (update_results f) d res pre suf.
Proof.
  intros Hf. unfold update_results. apply runs_get_bind.
  change (results (cur d res pre suf)) with res.
  specialize (Hf res). destruct (f res) as [v|e|]; [| |contradiction].
  - now apply (runs_here _ (Returns tt) _ _ v).
  - now apply (runs_here _ (Raises e) _ _ res).
Qed.

Lemma runs_apply_selector (k : KeyOrSlice) d res pre suf :
  runs (apply_selector k) d res pre suf.
Proof.
  destruct k as [s|sl]; apply runs_update_results; intros l;
    [exact I | apply _apply_slice_expected].
Qed.

Lemma runs_recursive_descent d res pre suf :
  runs recursive_descent d res pre suf.
Proof.
  unfold recursive_descent.
  apply runs_bind; [apply runs_match_|]. intros b res1 mid rest _ _.
  apply runs_bind.
  { destruct b; [apply runs_bracket | apply runs_key]. }
  intros k res2 mid1 rest1 _ _. apply runs_update_results.
  intros l. apply _recursive_descent_key_expected.
Qed.

Lemma match_hit_shortens (c : ascii) (d : Json) (res res' : list Json)
      (pre suf mid rest : string) :
  suf = (mid ++ rest)%string ->
  match_ c (cur d res pre suf) = (Returns true, cur d res' (pre ++ mid) rest) ->
  S (String.length rest) = String.length suf.
Proof.
  intros Hsuf Hm. destruct (decide (String.get 0 suf = Some c)) as [Hc|Hc].
  - destruct suf as [|c' suf]; [discriminate|]. simpl in Hc. injection Hc as ->.
    rewrite match_cur_hit in Hm. injection Hm as _ Hidx _ _.
    rewrite !str_length_app in Hidx.
    apply (f_equal String.length) in Hsuf. rewrite str_length_app in Hsuf.
    simpl in *. lia.
  - rewrite match_cur_miss in Hm by exact Hc. discriminate.
Qed.

Lemma runs_child (fuel : nat) :
  forall d res pre suf,
    (String.length suf < fuel)%nat -> runs (child fuel) d res pre suf.
Proof.
  induction fuel as [|fuel IH]; intros d res pre suf Hfuel; [lia|].
  cbn [child]. apply runs_get_bind. rewrite at_end_cur.
  destruct suf as [|c0 suf0]; [now apply (runs_here _ (Returns tt) _ _ res)|].
  set (suf := String c0 suf0) in *.
  apply runs_bind; [apply runs_match_|].
  intros dot res1 mid rest Hsuf Hdot. destruct dot.
  - pose proof (match_hit_shortens _ _ _ _ _ _ _ _ Hsuf Hdot) as Hlen.
    apply runs_bind; [apply runs_match_|].
    intros dot2 res2 mid1 rest1 Hsuf1 _.
    assert (Hlen1 : (String.length rest1 <= String.length rest)%nat).
    { rewrite Hsuf1, str_length_app. lia. }
    apply runs_bind.
    { destruct dot2; [apply runs_recursive_descent|].
      apply runs_bind; [apply runs_key|].
      intros k res3 mid2 rest2 _ _. apply runs_apply_selector. }
    intros [] res3 mid2 rest2 Hsuf2 _. apply IH.
    rewrite Hsuf2, str_length_app in Hlen1. lia.
  - apply runs_bind; [apply runs_match_|].
    intros br res2 mid1 rest1 Hsuf1 Hbr. destruct br.
    + pose proof (match_hit_shortens _ _ _ _ _ _ _ _ Hsuf1 Hbr) as Hlen.
      assert (Hlen0 : (String.length rest <= String.length suf)%nat).
      { rewrite Hsuf, str_length_app. lia. }
      apply runs_bind; [apply runs_bracket|].
      intros k res3 mid2 rest2 Hsuf2 _.
      apply runs_bind; [apply runs_apply_selector|].
      intros [] res4 mid3 rest3 Hsuf3 _. apply IH.
      apply (f_equal String.length) in Hsuf2, Hsuf3.
      rewrite str_length_app in Hsuf2, Hsuf3. lia.
    + apply runs_get_bind.
      now apply (runs_here _ (Raises (AssertionError
                (unexpected_msg (cur d res2 ((pre ++ mid) ++ mid1) rest1)))) _ _ res2).
Qed.

(** Whatever the data and the path, the fuel [query] gives the driver is
    enough, and the query returns a list or raises [ParseError],
    [AssertionError] or [ValueError]. *)
Theorem query_outcomes (d : Json) (p : string) : expected (query d p).
Proof.
  unfold query, run_query, Runner_query.
  rewrite new_runner_cur. unfold bind at 1. unfold get at 1.
  unfold bind at 1. unfold put at 1.
  change (set_results (data (cur d nil "" p) :: nil) (cur d nil "" p))
    with (cur d (d :: nil) "" p).
  assert (H : runs (consume "$" "at the beginning of JSONPath" ;;
                    child (S (String.length p)) ;;
                    r' <- get ;; ret (results r')) d (d :: nil) "" p).
  { apply runs_bind; [apply runs_consume|].
    intros [] res1 mid rest Hsuf _.
    apply runs_bind.
    { apply runs_child. rewrite Hsuf, str_length_app. lia. }
    intros [] res2 mid1 rest1 _ _. apply runs_get_bind.
    now apply (runs_here _ (Returns res2) _ _ res2). }
  destruct H as (o & res' & mid & rest & _ & Hrun & Ho).
  rewrite Hrun. exact Ho.
Qed.

Corollary query_finishes (d : Json) (p : string) : query d p <> OutOfFuel.
Proof. apply expected_finishes, query_outcomes. Qed.



(** ** The store-level model computes what the value-level model computes *)

Lemma _apply_star_flat_map (results : list Json) :
  _apply_star results = flat_map children results.
Proof.
  unfold _apply_star.
  enough (H : forall acc,
             fold_left
               (fun new_results result =>
                  let new_results :=
                    match result with
                    | JObject d => new_results ++ dict_values d
                    | _ => new_results
                    end in
                  match result with
                  | JArray l => new_results ++ l
                  | _ => new_results
                  end) results acc
             = acc ++ flat_map children results) by apply (H nil).
  induction results as [|r results IH]; intros acc; simpl.
  - now rewrite app_nil_r.
  - rewrite IH. destruct r; simpl; rewrite <- ?app_assoc; reflexivity.
Qed.

Section Simulation.
Variable h0 : Heap.store.

(** How a value that denotes a tree in [h0] looks in a Heap.store that extends
    [h0]. *)
Lemma repr_shape (h : Heap.store) (v : Heap.val) (j : Json) :
  h0 ⊆ h -> repr h0 v j ->
  match j with
  | JObject d =>
      exists items, Heap.as_dict h v = Some items /\ Heap.as_list h v = None
                    /\ Forall2 (item_rel h0) items d
  | JArray js =>
      exists xs, Heap.as_dict h v = None /\ Heap.as_list h v = Some xs
                 /\ Forall2 (repr h0) xs js
  | _ => Heap.as_dict h v = None /\ Heap.as_list h v = None
  end.
Proof.
  intros Hsub Hr. destruct Hr; try (split; reflexivity).
  - exists items. simpl. rewrite (lookup_weaken _ _ _ _ H Hsub). auto.
  - exists xs. simpl. rewrite (lookup_weaken _ _ _ _ H Hsub). auto.
Qed.

Lemma repr_read_stable (h : Heap.store) (v : Heap.val) (j : Json) :
  h0 ⊆ h -> repr h0 v j ->
  Heap.as_dict h v = Heap.as_dict h0 v /\ Heap.as_list h v = Heap.as_list h0 v.
Proof.
  intros Hsub Hr. destruct Hr; try (split; reflexivity); simpl;
    now rewrite (lookup_weaken _ _ _ _ H Hsub), H.
Qed.

Lemma repr_in_dom (v : Heap.val) (j : Json) (l : Heap.loc) :
  repr h0 v j -> v = Heap.VRef l -> l ∈ dom h0.
Proof.
  intros Hr ->. inversion Hr; subst; apply elem_of_dom; eauto.
Qed.

Lemma item_rel_values items d :
  Forall2 (item_rel h0) items d -> Forall2 (repr h0) (dict_values items) (dict_values d).
Proof.
  induction 1 as [|kv kj items d [_ Hv] _ IH]; simpl; constructor; auto.
Qed.

Lemma item_rel_get (k : string) items d :
  Forall2 (item_rel h0) items d ->
  match dict_get k items, dict_get k d with
  | Some v, Some j => repr h0 v j
  | None, None => True
  | _, _ => False
  end.
Proof.
  induction 1 as [|[k1 v] [k2 j] items d [Hk Hv] _ IH]; simpl; [exact I|].
  simpl in Hk. subst k2. destruct (String.eqb k1 k); auto.
Qed.

Lemma star_vals_children (h : Heap.store) (v : Heap.val) (j : Json) :
  h0 ⊆ h -> repr h0 v j -> Forall2 (repr h0) (star_vals h v) (children j).
Proof.
  intros Hsub Hr. pose proof (repr_shape h v j Hsub Hr) as Hs. unfold star_vals.
  destruct j; simpl in *;
    try (destruct Hs as [-> ->]; constructor).
  - destruct Hs as (its & -> & -> & Hits). rewrite app_nil_r.
    now apply item_rel_values.
  - destruct Hs as (xs & -> & -> & Hxs). exact Hxs.
Qed.

Lemma Forall2_flat_map {A B C D : Type} (P : C -> D -> Prop) (Q : A -> B -> Prop)
      (f : A -> list C) (g : B -> list D) (xs : list A) (ys : list B) :
  (forall x y, Q x y -> Forall2 P (f x) (g y)) ->
  Forall2 Q xs ys -> Forall2 P (flat_map f xs) (flat_map g ys).
Proof.
  intros Hfg. induction 1; simpl; [constructor|]. apply Forall2_app; auto.
Qed.

(** *** The list operations *)

Lemma new_list_eq (xs : list Heap.val) (h : Heap.store) :
  Heap.new_list xs h = (Returns (fresh (dom h)), <[fresh (dom h) := Heap.OList xs]> h).
Proof. reflexivity. Qed.

Lemma read_list_eq (v : Heap.val) (xs : list Heap.val) (h : Heap.store) :
  Heap.as_list h v = Some xs -> Heap.read_list v h = (Returns xs, h).
Proof. intros H. unfold Heap.read_list, bind, get. now rewrite H. Qed.

Lemma list_extend_eq (l : Heap.loc) (ys xs : list Heap.val) (h : Heap.store) :
  h !! l = Some (Heap.OList ys) ->
  Heap.list_extend l xs h = (Returns tt, <[l := Heap.OList (ys ++ xs)]> h).
Proof.
  intros H. unfold Heap.list_extend, bind. rewrite (read_list_eq _ ys); [reflexivity|].
  simpl. now rewrite H.
Qed.

Lemma list_pop_at_eq (l : Heap.loc) (ys : list Heap.val) (x : Heap.val) (h : Heap.store) :
  h !! l = Some (Heap.OList (ys ++ x :: nil)) ->
  Heap.list_pop_at l h = (Returns x, <[l := Heap.OList ys]> h).
Proof.
  intros H. unfold Heap.list_pop_at, bind.
  rewrite (read_list_eq _ (ys ++ x :: nil)) by (simpl; now rewrite H).
  now rewrite list_pop_snoc.
Qed.

(** Reading a value of [h0] is not affected by a write at a new
    reference. *)
Lemma as_dict_insert_new (h : Heap.store) (l : Heap.loc) (o : Heap.obj) (v : Heap.val) (j : Json) :
  h0 ⊆ h -> l ∉ dom h0 -> repr h0 v j ->
  Heap.as_dict (<[l := o]> h) v = Heap.as_dict h v.
Proof.
  intros Hsub Hl Hr. destruct v as [| | | | |l']; try reflexivity.
  simpl. rewrite lookup_insert_ne; [reflexivity|].
  intros ->. apply Hl. now apply (repr_in_dom _ _ _ Hr).
Qed.

Lemma as_list_insert_new (h : Heap.store) (l : Heap.loc) (o : Heap.obj) (v : Heap.val) (j : Json) :
  h0 ⊆ h -> l ∉ dom h0 -> repr h0 v j ->
  Heap.as_list (<[l := o]> h) v = Heap.as_list h v.
Proof.
  intros Hsub Hl Hr. destruct v as [| | | | |l']; try reflexivity.
  simpl. rewrite lookup_insert_ne; [reflexivity|].
  intros ->. apply Hl. now apply (repr_in_dom _ _ _ Hr).
Qed.

Lemma star_vals_insert_new (h : Heap.store) (l : Heap.loc) (o : Heap.obj) (v : Heap.val) (j : Json) :
  h0 ⊆ h -> l ∉ dom h0 -> repr h0 v j ->
  star_vals (<[l := o]> h) v = star_vals h v.
Proof.
  intros. unfold star_vals.
  now rewrite (as_dict_insert_new h l o v j), (as_list_insert_new h l o v j).
Qed.

Lemma fresh_not_in_h0 (h : Heap.store) : h0 ⊆ h -> fresh (dom h) ∉ dom h0.
Proof.
  intros Hsub Hin. apply (is_fresh (dom h)). now apply (subseteq_dom h0 h Hsub).
Qed.

(** The loop of [Heap._apply_star], with the list under construction at [nr]. *)
Lemma apply_star_loop (nr : Heap.loc) (items : list Heap.val) (js : list Json) :
  nr ∉ dom h0 ->
  Forall2 (repr h0) items js ->
  forall (h : Heap.store) (acc : list Heap.val),
    h0 ⊆ h ->
    for_each items
      (fun result =>
         h <- get ;;
         match Heap.as_dict h result with
         | Some d => Heap.list_extend nr (dict_values d)
         | None => ret tt
         end ;;
         h <- get ;;
         match Heap.as_list h result with
         | Some l => Heap.list_extend nr l
         | None => ret tt
         end) (<[nr := Heap.OList acc]> h)
    = (Returns tt, <[nr := Heap.OList (acc ++ flat_map (star_vals h) items)]> h).
Proof.
  intros Hnr. induction 1 as [|v j items js Hv _ IH]; intros h acc Hsub.
  - simpl. now rewrite app_nil_r.
  - cbn [for_each flat_map]. unfold bind at 1.
    assert (Hbody :
      (h1 <- get ;;
       match Heap.as_dict h1 v with
       | Some d => Heap.list_extend nr (dict_values d)
       | None => ret tt
       end ;;
       h2 <- get ;;
       match Heap.as_list h2 v with
       | Some l => Heap.list_extend nr l
       | None => ret tt
       end) (<[nr := Heap.OList acc]> h)
      = (Returns tt, <[nr := Heap.OList (acc ++ star_vals h v)]> h)).
    { unfold bind at 1. unfold get at 1.
      rewrite (as_dict_insert_new h nr _ v j) by assumption.
      unfold star_vals.
      pose proof (repr_shape h v j Hsub Hv) as Hs.
      destruct j; simpl in Hs;
        try (destruct Hs as [Ed El]; rewrite Ed; unfold bind, ret, get;
             rewrite (as_list_insert_new h nr _ v _ Hsub Hnr Hv), El;
             now rewrite app_nil_r).
      - destruct Hs as (its & Ed & El & _). rewrite Ed.
        unfold bind at 1. rewrite (list_extend_eq nr acc) by apply lookup_insert_eq.
        rewrite insert_insert_eq. unfold bind, get.
        rewrite (as_list_insert_new h nr _ v _ Hsub Hnr Hv), El.
        now rewrite app_nil_r.
      - destruct Hs as (xs & Ed & El & _). rewrite Ed.
        unfold bind, ret, get.
        rewrite (as_list_insert_new h nr _ v _ Hsub Hnr Hv), El.
        rewrite (list_extend_eq nr acc) by apply lookup_insert_eq.
        now rewrite insert_insert_eq. }
    rewrite Hbody, IH by assumption. now rewrite <- app_assoc.
Qed.

Lemma new_list_at_repr (h h' : Heap.store) (v : Heap.val) (js : list Json) :
  new_list_at h0 h h' v js -> repr_list_at h0 h' v js.
Proof.
  intros (l & xs & -> & _ & Hl & Hxs). exists xs. simpl. now rewrite Hl.
Qed.

Lemma as_list_lookup (h : Heap.store) (v : Heap.val) (xs : list Heap.val) :
  Heap.as_list h v = Some xs ->
  exists l, v = Heap.VRef l /\ h !! l = Some (Heap.OList xs).
Proof.
  destruct v as [| | | | |l]; try discriminate. simpl.
  destruct (h !! l) as [[d|ys]|] eqn:E; try discriminate.
  intros [= ->]. eauto.
Qed.

Lemma as_list_insert_fresh (h : Heap.store) (o : Heap.obj) (v : Heap.val)
      (xs : list Heap.val) :
  Heap.as_list h v = Some xs ->
  Heap.as_list (<[fresh (dom h) := o]> h) v = Some xs.
Proof.
  intros H. destruct (as_list_lookup h v xs H) as (l & -> & Hl). simpl.
  rewrite lookup_insert_ne; [now rewrite Hl|].
  intros <-. apply (is_fresh (dom h)). apply elem_of_dom. eauto.
Qed.

Lemma insert_fresh_extends (h : Heap.store) (o : Heap.obj) :
  h ⊆ <[fresh (dom h) := o]> h.
Proof. apply insert_subseteq. apply not_elem_of_dom, is_fresh. Qed.

Lemma heap_apply_star (h : Heap.store) (results : Heap.val) (js : list Json) :
  h0 ⊆ h -> repr_list_at h0 h results js ->
  exists out h',
    Heap._apply_star results h = (Returns out, h')
    /\ h ⊆ h' /\ new_list_at h0 h h' out (_apply_star js).
Proof.
  intros Hsub (items & Hitems & Hrep).
  pose proof (fresh_not_in_h0 h Hsub) as Hnr.
  set (nr := fresh (dom h)) in *.
  exists (Heap.VRef nr), (<[nr := Heap.OList (flat_map (star_vals h) items)]> h).
  split; [|split].
  - unfold Heap._apply_star. unfold bind at 1. rewrite new_list_eq. fold nr.
    unfold bind at 1.
    rewrite (read_list_eq _ items) by now apply as_list_insert_fresh.
    unfold bind at 1. rewrite (apply_star_loop nr items js) by assumption.
    reflexivity.
  - apply insert_fresh_extends.
  - exists nr, (flat_map (star_vals h) items). repeat split.
    + apply is_fresh.
    + now rewrite lookup_insert_eq.
    + rewrite _apply_star_flat_map.
      eapply Forall2_flat_map; [|exact Hrep].
      intros v j. now apply star_vals_children.
Qed.

Lemma heap_apply_key (h : Heap.store) (results : Heap.val) (js : list Json)
      (key : string) :
  h0 ⊆ h -> repr_list_at h0 h results js ->
  exists out h',
    Heap._apply_key results key h = (Returns out, h')
    /\ h ⊆ h' /\ new_list_at h0 h h' out (_apply_key js key).
Proof.
  intros Hsub Hres. unfold Heap._apply_key, _apply_key.
  destruct (String.eqb key "*"); [now apply heap_apply_star|].
  destruct Hres as (items & Hitems & Hrep).
  unfold bind at 1. rewrite (read_list_eq _ items) by exact Hitems.
  unfold bind at 1. unfold get at 1. unfold bind at 1. rewrite new_list_eq.
  eexists _, _. split; [reflexivity|]. split; [apply insert_fresh_extends|].
  eexists _, _. repeat split.
  - apply is_fresh.
  - now rewrite lookup_insert_eq.
  - eapply Forall2_flat_map; [|exact Hrep].
    intros v j Hv. pose proof (repr_shape h v j Hsub Hv) as Hs.
    destruct j; simpl in Hs; try (destruct Hs as [-> _]; constructor).
    + destruct Hs as (its & -> & _ & Hits).
      pose proof (item_rel_get key its items0 Hits) as Hg.
      destruct (dict_get key its), (dict_get key items0); try contradiction;
        repeat constructor; assumption.
    + destruct Hs as (xs & -> & _). constructor.
Qed.

Lemma Forall2_nth_error {A B : Type} (P : A -> B -> Prop)
      (xs : list A) (ys : list B) (i : nat) :
  Forall2 P xs ys ->
  Forall2 P (match nth_error xs i with Some x => x :: nil | None => nil end)
            (match nth_error ys i with Some y => y :: nil | None => nil end).
Proof.
  intros H. revert i. induction H as [|x y xs ys Hxy _ IH]; intros [|i]; simpl;
    repeat constructor; auto.
Qed.

Lemma list_getslice_rel {A B : Type} (P : A -> B -> Prop)
      (xs : list A) (ys : list B) (s : PySlice) :
  Forall2 P xs ys ->
  match list_getslice xs s, list_getslice ys s with
  | Some a, Some b => Forall2 P a b
  | None, None => True
  | _, _ => False
  end.
Proof.
  intros H. unfold list_getslice. rewrite (Forall2_length _ _ _ H).
  destruct (slice_indices s _) as [[[b e] st]|]; [|exact I].
  apply (Forall2_flat_map P eq); [|clear; induction (seq _ _); constructor; auto].
  intros i ? <-. now apply Forall2_nth_error.
Qed.

Lemma slice_items_rel (h : Heap.store) (items : list Heap.val) (js : list Json)
      (sl : PySlice) :
  h0 ⊆ h -> Forall2 (repr h0) items js ->
  outcome_rel (Forall2 (repr h0)) (Heap.slice_items h items sl) (_apply_slice js sl).
Proof.
  intros Hsub. induction 1 as [|v j items js Hv _ IH]; simpl; [constructor|].
  pose proof (repr_shape h v j Hsub Hv) as Hs.
  destruct j; simpl in Hs; try (destruct Hs as [_ ->]; exact IH).
  - destruct Hs as (its & _ & -> & _). exact IH.
  - destruct Hs as (xs & _ & -> & Hxs).
    pose proof (list_getslice_rel _ xs elems sl Hxs) as Hg.
    destruct (list_getslice xs sl), (list_getslice elems sl); try contradiction;
      [|reflexivity].
    destruct (Heap.slice_items h items sl), (_apply_slice js sl);
      simpl in *; try contradiction; auto.
    now apply Forall2_app.
Qed.

Lemma heap_apply_slice (h : Heap.store) (results : Heap.val) (js : list Json)
      (sl : PySlice) :
  h0 ⊆ h -> repr_list_at h0 h results js ->
  exists o h',
    Heap._apply_slice results sl h = (o, h')
    /\ h ⊆ h'
    /\ outcome_rel (new_list_at h0 h h') o (_apply_slice js sl).
Proof.
  intros Hsub (items & Hitems & Hrep). unfold Heap._apply_slice.
  unfold bind at 1. rewrite (read_list_eq _ items) by exact Hitems.
  unfold bind at 1. unfold get at 1.
  pose proof (slice_items_rel h items js sl Hsub Hrep) as Hrel.
  destruct (Heap.slice_items h items sl) as [vs|e|],
           (_apply_slice js sl) as [js'|e'|]; simpl in Hrel; try contradiction.
  - unfold bind at 1. rewrite new_list_eq.
    eexists _, _. split; [reflexivity|]. split; [apply insert_fresh_extends|].
    eexists _, _. repeat split; [apply is_fresh | now rewrite lookup_insert_eq | exact Hrel].
  - subst e'. eexists _, _. split; [reflexivity|]. split; [reflexivity|]. reflexivity.
  - eexists _, _. split; [reflexivity|]. split; [reflexivity|]. exact I.
Qed.

Lemma Forall2_rev {A B : Type} (P : A -> B -> Prop) (xs : list A) (ys : list B) :
  Forall2 P xs ys -> Forall2 P (rev xs) (rev ys).
Proof.
  induction 1; simpl; [constructor|]. apply Forall2_app; [assumption|].
  now repeat constructor.
Qed.

(** *** The descent loop *)

Section DescentLoop.
Variables todo nr : Heap.loc.
Hypothesis todo_new : todo ∉ dom h0.
Hypothesis nr_new : nr ∉ dom h0.
Hypothesis todo_nr : todo <> nr.

Lemma rd_inv_extends (h h' : Heap.store) (stack acc : list Json) :
  rd_inv h0 todo nr h stack acc -> h ⊆ h' -> rd_inv h0 todo nr h' stack acc.
Proof.
  intros (Hsub & (tvs & Ht & Htr) & (avs & Ha & Har)) Hext. repeat split.
  - now transitivity h.
  - exists tvs. split; [eapply lookup_weaken; eauto | exact Htr].
  - exists avs. split; [eapply lookup_weaken; eauto | exact Har].
Qed.

Lemma rd_inv_push (h : Heap.store) (stack acc js : list Json) (vs : list Heap.val) :
  rd_inv h0 todo nr h stack acc -> Forall2 (repr h0) vs js ->
  exists h', Heap.list_extend todo vs h = (Returns tt, h')
             /\ rd_inv h0 todo nr h' (stack ++ js) acc.
Proof.
  intros (Hsub & (tvs & Ht & Htr) & (avs & Ha & Har)) Hvs.
  eexists. split; [now apply (list_extend_eq todo tvs)|]. repeat split.
  - now apply keeps_write.
  - eexists. split; [apply lookup_insert_eq | now apply Forall2_app].
  - exists avs. split; [now rewrite lookup_insert_ne | exact Har].
Qed.

Lemma rd_inv_collect (h : Heap.store) (stack acc js : list Json) (vs : list Heap.val) :
  rd_inv h0 todo nr h stack acc -> Forall2 (repr h0) vs js ->
  exists h', Heap.list_extend nr vs h = (Returns tt, h')
             /\ rd_inv h0 todo nr h' stack (acc ++ js).
Proof.
  intros (Hsub & (tvs & Ht & Htr) & (avs & Ha & Har)) Hvs.
  eexists. split; [now apply (list_extend_eq nr avs)|]. repeat split.
  - now apply keeps_write.
  - exists tvs. split; [now rewrite lookup_insert_ne | exact Htr].
  - eexists. split; [apply lookup_insert_eq | now apply Forall2_app].
Qed.

Lemma rd_inv_pop (h : Heap.store) (stack acc : list Json) (j : Json) :
  rd_inv h0 todo nr h (stack ++ j :: nil) acc ->
  exists tvs x h',
    Heap.read_list (Heap.VRef todo) h = (Returns (tvs ++ x :: nil), h)
    /\ Heap.list_pop_at todo h = (Returns x, h')
    /\ repr h0 x j /\ rd_inv h0 todo nr h' stack acc.
Proof.
  intros (Hsub & (tvs & Ht & Htr) & (avs & Ha & Har)).
  apply Forall2_app_inv_r in Htr as (tvs' & xs & Htvs' & Hxs & ->).
  inversion Hxs as [|x j' xs' js' Hx Hnil]; subst. inversion Hnil; subst.
  exists tvs', x, (<[todo := Heap.OList tvs']> h). repeat split.
  - apply read_list_eq. simpl. now rewrite Ht.
  - now apply list_pop_at_eq.
  - exact Hx.
  - now apply keeps_write.
  - eexists. split; [apply lookup_insert_eq | exact Htvs'].
  - exists avs. split; [now rewrite lookup_insert_ne | exact Har].
Qed.

Lemma rd_inv_empty (h : Heap.store) (acc : list Json) :
  rd_inv h0 todo nr h nil acc -> Heap.read_list (Heap.VRef todo) h = (Returns nil, h).
Proof.
  intros (_ & (tvs & Ht & Htr) & _). inversion Htr; subst.
  apply read_list_eq. simpl. now rewrite Ht.
Qed.

Lemma snoc_not_nil {A : Type} (l : list A) (x : A) : l ++ x :: nil <> nil.
Proof. destruct l; discriminate. Qed.

(** The two loops run in step. *)
Lemma heap_rd_loop (key : KeyOrSlice) (fuel : nat) :
  forall (h : Heap.store) (stack acc : list Json),
    rd_inv h0 todo nr h stack acc ->
    exists o h',
      Heap.rd_loop fuel key todo nr h = (o, h')
      /\ outcome_rel (fun _ res => rd_inv h0 todo nr h' nil res) o (rd_loop fuel key stack acc).
Proof.
  induction fuel as [|fuel IH]; intros h stack acc Hinv.
  { eexists _, _. split; reflexivity. }
  cbn [Heap.rd_loop rd_loop].
  destruct stack as [|j0 stack0] using rev_ind.
  { rewrite list_pop_nil. unfold bind at 1. rewrite (rd_inv_empty h acc Hinv).
    eexists _, _. split; [reflexivity|]. exact Hinv. }
  clear IHstack0. rename stack0 into stack, j0 into j.
  rewrite list_pop_snoc.
  destruct (rd_inv_pop h stack acc j Hinv) as (tvs & x & h1 & Hread & Hpop & Hx & Hinv1).
  unfold bind at 1. rewrite Hread.
  destruct (tvs ++ x :: nil) as [|y ys] eqn:Etv; [now apply snoc_not_nil in Etv|].
  unfold bind at 1. rewrite Hpop.
  destruct (is_star key).
  - unfold bind at 1. rewrite new_list_eq.
    set (arg := fresh (dom h1)). set (h2 := <[arg := Heap.OList (x :: nil)]> h1).
    assert (Hext2 : h1 ⊆ h2) by apply insert_fresh_extends.
    pose proof (rd_inv_extends _ _ _ _ Hinv1 Hext2) as Hinv2.
    destruct (heap_apply_star h2 (Heap.VRef arg) (j :: nil))
      as (out & h3 & Hstar & Hext3 & (l & vs & -> & Hl & Hl3 & Hvs)).
    { apply Hinv2. }
    { exists (x :: nil). split; [|now repeat constructor].
      simpl. unfold h2. now rewrite lookup_insert_eq. }
    pose proof (rd_inv_extends _ _ _ _ Hinv2 Hext3) as Hinv3.
    unfold bind at 1. rewrite Hstar.
    unfold bind at 1. rewrite (read_list_eq _ vs) by (simpl; now rewrite Hl3).
    destruct (rd_inv_collect h3 stack acc _ vs Hinv3 Hvs) as (h4 & Hcol & Hinv4).
    unfold bind at 1. rewrite Hcol.
    assert (Hl4 : h4 !! l = Some (Heap.OList vs)).
    { unfold Heap.list_extend, bind in Hcol.
      destruct Hinv3 as (_ & _ & (avs & Ha & _)).
      rewrite (read_list_eq _ avs) in Hcol by (simpl; now rewrite Ha).
      injection Hcol as <-. rewrite lookup_insert_ne; [exact Hl3|].
      intros <-. apply Hl. apply elem_of_dom.
      destruct Hinv2 as (_ & _ & (avs2 & Ha2 & _)). eauto. }
    unfold bind at 1. rewrite (read_list_eq _ vs) by (simpl; now rewrite Hl4).
    destruct (rd_inv_push h4 stack _ (rev (_apply_star (j :: nil))) (rev vs) Hinv4)
      as (h5 & Hpush & Hinv5).
    { now apply Forall2_rev. }
    unfold bind at 1. rewrite Hpush. now apply IH.
  - unfold bind at 1. unfold get at 1.
    assert (Hsub1 : h0 ⊆ h1) by apply Hinv1.
    pose proof (repr_shape h1 x j Hsub1 Hx) as Hs.
    destruct j; simpl in Hs;
      try (destruct Hs as [-> ->]; now apply IH).
    + destruct Hs as (its & Hd1 & _ & Hits). rewrite Hd1.
      assert (Hstep : exists h2,
                 (match key with
                  | IsStr k => match dict_get k its with
                               | Some v => Heap.list_append nr v
                               | None => ret tt
                               end
                  | IsSlice _ => ret tt
                  end) h1 = (Returns tt, h2)
                 /\ rd_inv h0 todo nr h2 stack
                      (match key with
                       | IsStr k => match dict_get k items with
                                    | Some v => acc ++ v :: nil
                                    | None => acc
                                    end
                       | IsSlice _ => acc
                       end)).
      { destruct key as [k|s]; [|eexists; split; [reflexivity | exact Hinv1]].
        pose proof (item_rel_get k its items Hits) as Hg.
        destruct (dict_get k its) as [v|], (dict_get k items) as [jv|];
          try contradiction; [|eexists; split; [reflexivity | exact Hinv1]].
        apply (rd_inv_collect h1 stack acc (jv :: nil) (v :: nil) Hinv1).
        now repeat constructor. }
      destruct Hstep as (h2 & Hstep & Hinv2).
      unfold bind at 1. rewrite Hstep.
      assert (Hd2 : Heap.read_dict x h2 = (Returns its, h2)).
      { unfold Heap.read_dict, bind, get.
        rewrite (proj1 (repr_read_stable h2 x _ (proj1 Hinv2) Hx)).
        rewrite <- (proj1 (repr_read_stable h1 x _ Hsub1 Hx)).
        now rewrite Hd1. }
      unfold bind at 1. rewrite Hd2.
      destruct (rd_inv_push h2 stack _ (rev (dict_values items)) (rev (dict_values its)) Hinv2)
        as (h3 & Hpush & Hinv3).
      { apply Forall2_rev. now apply item_rel_values. }
      unfold bind at 1. rewrite Hpush. now apply IH.
    + destruct Hs as (xs & -> & -> & Hxs).
      assert (Hstep : exists o h2,
                 (match key with
                  | IsSlice s =>
                      match list_getslice xs s with
                      | None => raise (ValueError step_zero_msg)
                      | Some values => Heap.list_extend nr values
                      end
                  | IsStr _ => ret tt
                  end) h1 = (o, h2)
                 /\ match key with
                    | IsSlice s =>
                        match list_getslice elems s with
                        | None => o = Raises (ValueError step_zero_msg)
                        | Some values => o = Returns tt /\ rd_inv h0 todo nr h2 stack (acc ++ values)
                        end
                    | IsStr _ => o = Returns tt /\ rd_inv h0 todo nr h2 stack acc
                    end).
      { destruct key as [k|s]; [eexists _, _; split; [reflexivity | auto]|].
        pose proof (list_getslice_rel _ xs elems s Hxs) as Hg.
        destruct (list_getslice xs s) as [vs|], (list_getslice elems s) as [jvs|];
          try contradiction; [|eexists _, _; split; reflexivity].
        destruct (rd_inv_collect h1 stack acc jvs vs Hinv1 Hg) as (h2 & Hc & Hi).
        eexists _, _. split; [exact Hc | auto]. }
      destruct Hstep as (o & h2 & Hstep & Hcase).
      unfold bind at 1. rewrite Hstep.
      assert (Hcont : forall acc',
                 rd_inv h0 todo nr h2 stack acc' ->
                 exists o' h',
                   (l' <- Heap.read_list x ;;
                    Heap.list_extend todo (rev l') ;;
                    Heap.rd_loop fuel key todo nr) h2 = (o', h')
                   /\ outcome_rel (fun _ res => rd_inv h0 todo nr h' nil res) o'
                        (rd_loop fuel key (stack ++ rev elems) acc')).
      { intros acc' Hinv2.
        pose proof (repr_shape h2 x (JArray elems) (proj1 Hinv2) Hx) as Hs2.
        simpl in Hs2. destruct Hs2 as (xs2 & _ & Hl2 & Hxs2).
        unfold bind at 1. rewrite (read_list_eq _ xs2) by exact Hl2.
        destruct (rd_inv_push h2 stack acc' (rev elems) (rev xs2) Hinv2)
          as (h3 & Hpush & Hinv3); [now apply Forall2_rev|].
        unfold bind at 1. rewrite Hpush. now apply IH. }
      destruct key as [k|s].
      * destruct Hcase as [-> Hinv2]. now apply Hcont.
      * destruct (list_getslice elems s) as [jvs|].
        -- destruct Hcase as [-> Hinv2]. now apply Hcont.
        -- subst o. eexists _, _. split; reflexivity.
Qed.

End DescentLoop.

Lemma heap_recursive_descent_key (h : Heap.store) (results : Heap.val)
      (js : list Json) (key : KeyOrSlice) (fuel : nat) :
  h0 ⊆ h -> repr_list_at h0 h results js ->
  exists o h',
    Heap._recursive_descent_key fuel results key h = (o, h')
    /\ outcome_rel (fun out res => repr_list_at h0 h' out res) o
         (rd_loop fuel key (rev js) nil).
Proof.
  intros Hsub (items & Hitems & Hrep). unfold Heap._recursive_descent_key.
  unfold bind at 1. rewrite new_list_eq.
  set (nr := fresh (dom h)). set (h1 := <[nr := Heap.OList nil]> h).
  unfold bind at 1. rewrite (read_list_eq _ items)
    by now apply as_list_insert_fresh.
  unfold bind at 1. rewrite new_list_eq.
  set (todo := fresh (dom h1)). set (h2 := <[todo := Heap.OList (rev items)]> h1).
  assert (Hnr : nr ∉ dom h0) by now apply fresh_not_in_h0.
  assert (Hsub1 : h0 ⊆ h1) by now apply keeps_write.
  assert (Htodo : todo ∉ dom h0) by now apply fresh_not_in_h0.
  assert (Hne : todo <> nr).
  { intros E. apply (is_fresh (dom h1)). fold todo. rewrite E.
    apply elem_of_dom. unfold h1. rewrite lookup_insert_eq. eauto. }
  assert (Hinv : rd_inv h0 todo nr h2 (rev js) nil).
  { repeat split.
    - now apply keeps_write.
    - eexists. split; [apply lookup_insert_eq | now apply Forall2_rev].
    - exists nil. split; [|constructor].
      unfold h2, h1. rewrite lookup_insert_ne by exact Hne. apply lookup_insert_eq. }
  destruct (heap_rd_loop todo nr Htodo Hnr Hne key fuel h2 (rev js) nil Hinv)
    as (o & h' & Hloop & Hrel).
  unfold bind at 1. rewrite Hloop.
  destruct o as [[]|e|], (rd_loop fuel key (rev js) nil) as [res|e'|];
    simpl in Hrel; try contradiction.
  - eexists _, _. split; [reflexivity|]. simpl.
    destruct Hrel as (_ & _ & (avs & Ha & Har)). exists avs. simpl. now rewrite Ha.
  - eexists _, _. split; [reflexivity | exact Hrel].
  - eexists _, _. split; [reflexivity | exact I].
Qed.

(** More fuel does not change the outcome of a loop that finished. *)
Lemma rd_loop_more_fuel (key : KeyOrSlice) (fuel : nat) :
  forall (stack acc : list Json) (fuel' : nat),
    rd_loop fuel key stack acc <> OutOfFuel -> (fuel <= fuel')%nat ->
    rd_loop fuel' key stack acc = rd_loop fuel key stack acc.
Proof.
  induction fuel as [|fuel IH]; intros stack acc fuel' Hfin Hle;
    [now contradiction Hfin|].
  destruct fuel' as [|fuel']; [lia|]. cbn [rd_loop] in *.
  destruct (list_pop stack) as [[curr stack']|]; [|reflexivity].
  destruct (is_star key); [apply IH; [exact Hfin | lia]|].
  destruct curr; try (apply IH; [exact Hfin | lia]).
  destruct key as [k|s]; [apply IH; [exact Hfin | lia]|].
  destruct (list_getslice elems s); [apply IH; [exact Hfin | lia] | reflexivity].
Qed.

Lemma rd_loop_any_fuel (key : KeyOrSlice) (results : list Json) (fuel : nat) :
  rd_loop fuel key (rev results) nil <> OutOfFuel ->
  rd_loop fuel key (rev results) nil = _recursive_descent_key results key.
Proof.
  intros Hfin. unfold _recursive_descent_key.
  pose proof (_recursive_descent_key_finishes results key) as Hfin'.
  unfold _recursive_descent_key in Hfin'.
  rewrite <- (rd_loop_more_fuel key fuel _ _ (Nat.max fuel (rd_fuel results)))
    by (auto; lia).
  apply rd_loop_more_fuel; [exact Hfin' | lia].
Qed.

(** *** The driver *)

Section Driver.
Variables (d : Json) (dv : Heap.val).

Lemma lockstep_here {A : Type} (m1 : Mv A) (m2 : nat -> Heap.Mh A)
      (o : outcome A) res pre suf :
  m1 (cur d res pre suf) = (o, cur d res pre suf) ->
  (forall rd_fuel resv h,
      m2 rd_fuel (cur dv resv pre suf, h) = (o, (cur dv resv pre suf, h))) ->
  lockstep h0 m1 m2 d dv res pre suf.
Proof.
  intros H1 H2. exists o, res, ""%string, suf, 0%nat. rewrite str_app_nil_r.
  split; [exact H1|]. intros rd_fuel resv h Hsub Hres.
  eexists _, _, _. split; [apply H2|]. right. eauto.
Qed.

Lemma lockstep_method {A : Type} (m : method A) res pre suf :
  total m pre suf ->
  lockstep h0 (m Json (list Json)) (fun _ => Heap.on_runner (m Heap.val Heap.val))
           d dv res pre suf.
Proof.
  intros (o & mid & rest & [Hsuf Hm] & _).
  exists o, res, mid, rest, 0%nat. split; [apply Hm|].
  intros rd_fuel resv h Hsub Hres. eexists _, _, _. split.
  - unfold Heap.on_runner. rewrite Hm. reflexivity.
  - right. eauto.
Qed.

Lemma lockstep_bind {A B : Type} (m1 : Mv A) (m2 : nat -> Heap.Mh A)
      (k1 : A -> Mv B) (k2 : nat -> A -> Heap.Mh B) res pre suf :
  lockstep h0 m1 m2 d dv res pre suf ->
  (forall a res' mid rest,
      lockstep h0 (k1 a) (fun n => k2 n a) d dv res' (pre ++ mid) rest) ->
  lockstep h0 (bind m1 k1) (fun n => bind (m2 n) (k2 n)) d dv res pre suf.
Proof.
  intros (o1 & res1 & mid & rest & N1 & H1 & Hm2) Hk.
  destruct o1 as [a|e|].
  - destruct (Hk a res1 mid rest) as (o2 & res2 & mid' & rest' & N2 & H1' & Hk2).
    exists o2, res2, (mid ++ mid')%string, rest', (Nat.max N1 N2). split.
    + unfold bind. rewrite H1, H1'. now rewrite str_app_assoc.
    + intros rd_fuel resv h Hsub Hres.
      destruct (Hm2 rd_fuel resv h Hsub Hres) as (o & r2 & h1 & H2 & Hcase).
      unfold bind. rewrite H2.
      destruct Hcase as [[-> Hlt]|(-> & Hsub1 & resv1 & -> & Hres1)].
      { eexists _, _, _. split; [reflexivity|]. left. split; [reflexivity | lia]. }
      destruct (Hk2 rd_fuel resv1 h1 Hsub1 Hres1) as (o' & r2' & h2 & H2' & Hcase').
      eexists _, _, _. split; [exact H2'|]. rewrite str_app_assoc in Hcase'.
      destruct Hcase' as [[-> Hlt]|Hr]; [left; split; [reflexivity | lia] | now right].
  - exists (Raises e), res1, mid, rest, N1. split.
    + unfold bind. now rewrite H1.
    + intros rd_fuel resv h Hsub Hres.
      destruct (Hm2 rd_fuel resv h Hsub Hres) as (o & r2 & h1 & H2 & Hcase).
      unfold bind. rewrite H2.
      destruct Hcase as [[-> Hlt]|(-> & Hsub1 & resv1 & -> & Hres1)].
      * eexists _, _, _. split; [reflexivity|]. now left.
      * eexists _, _, _. split; [reflexivity|]. right. eauto.
  - exists OutOfFuel, res1, mid, rest, N1. split.
    + unfold bind. now rewrite H1.
    + intros rd_fuel resv h Hsub Hres.
      destruct (Hm2 rd_fuel resv h Hsub Hres) as (o & r2 & h1 & H2 & Hcase).
      unfold bind. rewrite H2.
      destruct Hcase as [[-> Hlt]|(-> & Hsub1 & resv1 & -> & Hres1)].
      * eexists _, _, _. split; [reflexivity|]. now left.
      * eexists _, _, _. split; [reflexivity|]. right. eauto.
Qed.

Lemma lockstep_get_bind {A : Type} (k1 : runner -> Mv A)
      (k2 : nat -> Heap.hrunner -> Heap.Mh A)
      (m1 : Mv A) (m2 : nat -> Heap.Mh A) res pre suf :
  k1 (cur d res pre suf) = m1 ->
  (forall n resv, k2 n (cur dv resv pre suf) = m2 n) ->
  lockstep h0 m1 m2 d dv res pre suf ->
  lockstep h0 (bind get k1) (fun n => bind (Heap.on_runner get) (k2 n))
           d dv res pre suf.
Proof.
  intros <- Hk2 (o1 & res1 & mid & rest & N & H1 & H2).
  exists o1, res1, mid, rest, N. split; [exact H1|].
  intros rd_fuel resv h Hsub Hres.
  destruct (H2 rd_fuel resv h Hsub Hres) as (o & r2 & h1 & H2' & Hcase).
  exists o, r2, h1. split; [|exact Hcase].
  unfold bind, Heap.on_runner, get. now rewrite Hk2.
Qed.

Lemma lockstep_ret {A : Type} (a : A) res pre suf :
  lockstep h0 (ret a) (fun _ => ret a) d dv res pre suf.
Proof. now apply (lockstep_here _ _ (Returns a)). Qed.

Lemma lockstep_raise {A : Type} (e : exn) res pre suf :
  lockstep h0 (@raise _ A e) (fun _ => raise e) d dv res pre suf.
Proof. now apply (lockstep_here _ _ (Raises e)). Qed.

Lemma lockstep_out_of_fuel {A : Type} res pre suf :
  lockstep h0 (@out_of_fuel _ A) (fun _ => out_of_fuel) d dv res pre suf.
Proof. now apply (lockstep_here _ _ OutOfFuel). Qed.

Lemma repr_list_at_extends (h h' : Heap.store) (v : Heap.val) (js : list Json) :
  h ⊆ h' -> repr_list_at h0 h v js -> repr_list_at h0 h' v js.
Proof.
  intros Hsub (xs & Hxs & Hrep). exists xs. split; [|exact Hrep].
  destruct (as_list_lookup h v xs Hxs) as (l & -> & Hl). simpl.
  now rewrite (lookup_weaken _ _ _ _ Hl Hsub).
Qed.

Lemma lockstep_update_results f2 f1 res pre suf :
  evaluates h0 f2 f1 -> (forall l, f1 l <> OutOfFuel) ->
  lockstep h0 (update_results f1) (fun n => Heap.update_results (f2 n))
           d dv res pre suf.
Proof.
  intros Hf Hfin. destruct (Hf res) as (N & Hf2). specialize (Hfin res).
  destruct (f1 res) as [js|e|] eqn:E1; [| |congruence].
  - exists (Returns tt), js, ""%string, suf, N. rewrite str_app_nil_r. split.
    { unfold update_results, bind, get, put.
      change (results (cur d res pre suf)) with res. now rewrite E1. }
    intros rd_fuel resv h Hsub Hres.
    destruct (Hf2 rd_fuel h resv Hsub Hres) as (o & h' & H2 & Hext & Hcase).
    unfold Heap.update_results, bind, get, put, Heap.on_runner, Heap.on_store.
    change (results (cur dv resv pre suf)) with resv. rewrite H2.
    destruct Hcase as [[-> Hlt]|Hrel].
    { eexists _, _, _. split; [reflexivity | now left]. }
    destruct o as [out|e|]; simpl in Hrel; try contradiction.
    eexists _, _, _. split; [reflexivity|]. right.
    split; [reflexivity|]. split; [now transitivity h|]. exists out. auto.
  - exists (Raises e), res, ""%string, suf, N. rewrite str_app_nil_r. split.
    { unfold update_results, bind, get, put.
      change (results (cur d res pre suf)) with res. now rewrite E1. }
    intros rd_fuel resv h Hsub Hres.
    destruct (Hf2 rd_fuel h resv Hsub Hres) as (o & h' & H2 & Hext & Hcase).
    unfold Heap.update_results, bind, get, put, Heap.on_runner, Heap.on_store.
    change (results (cur dv resv pre suf)) with resv. rewrite H2.
    destruct Hcase as [[-> Hlt]|Hrel].
    { eexists _, _, _. split; [reflexivity | now left]. }
    destruct o as [out|e'|]; simpl in Hrel; try contradiction. subst e'.
    eexists _, _, _. split; [reflexivity|]. right.
    split; [reflexivity|]. split; [now transitivity h|]. exists resv.
    split; [reflexivity | now apply (repr_list_at_extends h)].
Qed.

Lemma evaluates_apply_key (key : string) :
  evaluates h0 (fun _ res => Heap._apply_key res key)
            (fun res => Returns (_apply_key res key)).
Proof.
  intros res. exists 0%nat. intros rd_fuel h resv Hsub Hres.
  destruct (heap_apply_key h resv res key Hsub Hres) as (out & h' & H2 & Hext & Hnew).
  exists (Returns out), h'. repeat split; auto. right.
  now apply (new_list_at_repr h).
Qed.

Lemma evaluates_apply_slice (sl : PySlice) :
  evaluates h0 (fun _ res => Heap._apply_slice res sl) (fun res => _apply_slice res sl).
Proof.
  intros res. exists 0%nat. intros rd_fuel h resv Hsub Hres.
  destruct (heap_apply_slice h resv res sl Hsub Hres) as (o & h' & H2 & Hext & Hrel).
  exists o, h'. repeat split; auto. right.
  destruct o, (_apply_slice res sl); simpl in *; auto.
  now apply (new_list_at_repr h).
Qed.

Lemma evaluates_recursive_descent_key (key : KeyOrSlice) :
  evaluates h0 (fun n res => Heap._recursive_descent_key n res key)
            (fun res => _recursive_descent_key res key).
Proof.
  intros res. exists (rd_fuel res). intros fuel h resv Hsub Hres.
  destruct (heap_recursive_descent_key h resv res key fuel Hsub Hres)
    as (o & h' & H2 & Hrel).
  exists o, h'. split; [exact H2|]. split.
  { pose proof (keeps__recursive_descent_key h fuel resv key h) as Hk.
    rewrite H2 in Hk. now apply Hk. }
  destruct (rd_loop fuel key (rev res) nil) as [js|e|] eqn:E.
  - right. rewrite <- (rd_loop_any_fuel key res fuel) by (rewrite E; discriminate).
    now rewrite E.
  - right. rewrite <- (rd_loop_any_fuel key res fuel) by (rewrite E; discriminate).
    now rewrite E.
  - left. destruct o; simpl in Hrel; try contradiction. split; [reflexivity|].
    destruct (Nat.lt_ge_cases fuel (rd_fuel res)) as [Hlt|Hge]; [exact Hlt|].
    exfalso.
    pose proof (_recursive_descent_key_finishes res key) as Hfin.
    unfold _recursive_descent_key in Hfin.
    rewrite (rd_loop_more_fuel key (rd_fuel res) _ _ fuel Hfin Hge) in E.
    congruence.
Qed.

Lemma lockstep_apply_selector (k : KeyOrSlice) res pre suf :
  lockstep h0 (apply_selector k) (fun _ => Heap.apply_selector k) d dv res pre suf.
Proof.
  destruct k as [s|sl].
  - apply (lockstep_update_results (fun _ res => Heap._apply_key res s));
      [apply evaluates_apply_key | discriminate].
  - apply (lockstep_update_results (fun _ res => Heap._apply_slice res sl));
      [apply evaluates_apply_slice | intros l; apply _apply_slice_finishes].
Qed.

Lemma lockstep_match_ (c : ascii) res pre suf :
  lockstep h0 (match_ c) (fun _ => Heap.on_runner (match_ c)) d dv res pre suf.
Proof. apply (lockstep_method (fun D R => @match_ D R c)), total_match_. Qed.

Lemma lockstep_key res pre suf :
  lockstep h0 key (fun _ => Heap.on_runner key) d dv res pre suf.
Proof. apply (lockstep_method (@key)), total_key. Qed.

Lemma lockstep_bracket res pre suf :
  lockstep h0 bracket (fun _ => Heap.on_runner bracket) d dv res pre suf.
Proof. apply (lockstep_method (@bracket)), total_bracket. Qed.

Lemma lockstep_consume (c : ascii) (w : string) res pre suf :
  lockstep h0 (consume c w) (fun _ => Heap.on_runner (consume c w)) d dv res pre suf.
Proof. apply (lockstep_method (fun D R => @consume D R c w)), total_consume. Qed.

Lemma lockstep_recursive_descent res pre suf :
  lockstep h0 recursive_descent (fun n => Heap.recursive_descent n) d dv res pre suf.
Proof.
  unfold recursive_descent, Heap.recursive_descent.
  apply (lockstep_bind _ (fun _ => Heap.on_runner (match_ "["))
           _ (fun n b => key <- Heap.on_runner (if b then bracket else key) ;;
                         Heap.update_results
                           (fun res => Heap._recursive_descent_key n res key)));
    [apply lockstep_match_|].
  intros b res1 mid rest.
  apply (lockstep_bind _ (fun _ => Heap.on_runner (if b then bracket else key))
           _ (fun n key => Heap.update_results
                             (fun res => Heap._recursive_descent_key n res key))).
  { destruct b; [apply lockstep_bracket | apply lockstep_key]. }
  intros k res2 mid2 rest2.
  apply (lockstep_update_results
           (fun n res => Heap._recursive_descent_key n res k)).
  - apply evaluates_recursive_descent_key.
  - intros l. apply _recursive_descent_key_finishes.
Qed.

Lemma lockstep_child (fuel : nat) :
  forall res pre suf,
    lockstep h0 (child fuel) (fun n => Heap.child n fuel) d dv res pre suf.
Proof.
  induction fuel as [|fuel IH]; intros res pre suf;
    [apply lockstep_out_of_fuel|].
  cbn [child Heap.child]. eapply lockstep_get_bind.
  { rewrite at_end_cur. reflexivity. }
  { intros n resv. rewrite at_end_cur. reflexivity. }
  destruct suf as [|c suf]; [apply lockstep_ret|].
  apply (lockstep_bind _ (fun _ => Heap.on_runner (match_ "."))
           _ (fun n (dot : bool) =>
                if dot then
                  dot2 <- Heap.on_runner (match_ ".") ;;
                  (if dot2 then Heap.recursive_descent n
                   else k <- Heap.on_runner key ;; Heap.apply_selector k) ;;
                  Heap.child n fuel
                else
                  br <- Heap.on_runner (match_ "[") ;;
                  if br then
                    k <- Heap.on_runner bracket ;;
                    Heap.apply_selector k ;;
                    Heap.child n fuel
                  else
                    r' <- Heap.on_runner get ;;
                    raise (AssertionError (unexpected_msg r'))));
    [apply lockstep_match_|].
  intros dot res1 mid1 rest1. destruct dot.
  - apply (lockstep_bind _ (fun _ => Heap.on_runner (match_ "."))
             _ (fun n (dot2 : bool) =>
                  (if dot2 then Heap.recursive_descent n
                   else k <- Heap.on_runner key ;; Heap.apply_selector k) ;;
                  Heap.child n fuel));
      [apply lockstep_match_|].
    intros dot2 res2 mid2 rest2.
    apply (lockstep_bind _
             (fun n => if dot2 then Heap.recursive_descent n
                       else k <- Heap.on_runner key ;; Heap.apply_selector k)
             _ (fun n _ => Heap.child n fuel)).
    + destruct dot2; [apply lockstep_recursive_descent|].
      apply (lockstep_bind _ (fun _ => Heap.on_runner key)
               _ (fun _ k => Heap.apply_selector k));
        [apply lockstep_key|].
      intros k res3 mid3 rest3. apply lockstep_apply_selector.
    + intros [] res3 mid3 rest3. apply IH.
  - apply (lockstep_bind _ (fun _ => Heap.on_runner (match_ "["))
             _ (fun n (br : bool) =>
                  if br then
                    k <- Heap.on_runner bracket ;;
                    Heap.apply_selector k ;;
                    Heap.child n fuel
                  else
                    r' <- Heap.on_runner get ;;
                    raise (AssertionError (unexpected_msg r'))));
      [apply lockstep_match_|].
    intros br res2 mid2 rest2. destruct br.
    + apply (lockstep_bind _ (fun _ => Heap.on_runner bracket)
               _ (fun n k => Heap.apply_selector k ;; Heap.child n fuel));
        [apply lockstep_bracket|].
      intros k res3 mid3 rest3.
      apply (lockstep_bind _ (fun _ => Heap.apply_selector k)
               _ (fun n _ => Heap.child n fuel));
        [apply lockstep_apply_selector|].
      intros [] res4 mid4 rest4. apply IH.
    + eapply lockstep_get_bind; [reflexivity | |apply lockstep_raise].
      intros n resv. reflexivity.
Qed.

Lemma lockstep_out_bind {A : Type} (m1 : Mv A) (m2 : nat -> Heap.Mh A)
      (k1 : A -> Mv (list Json)) (k2 : nat -> A -> Heap.Mh Heap.val)
      res pre suf :
  lockstep h0 m1 m2 d dv res pre suf ->
  (forall a res' mid rest,
      lockstep_out h0 d dv (k1 a) (fun n => k2 n a) res' (pre ++ mid) rest) ->
  lockstep_out h0 d dv (bind m1 k1) (fun n => bind (m2 n) (k2 n)) res pre suf.
Proof.
  intros (o1 & res1 & mid & rest & N1 & H1 & Hm2) Hk.
  destruct o1 as [a|e|].
  - destruct (Hk a res1 mid rest) as (N2 & Hk2). exists (Nat.max N1 N2).
    intros rd_fuel resv h Hsub Hres.
    destruct (Hm2 rd_fuel resv h Hsub Hres) as (o & r2 & h1 & H2 & Hcase).
    unfold bind. rewrite H2, H1.
    destruct Hcase as [[-> Hlt]|(-> & Hsub1 & resv1 & -> & Hres1)].
    { eexists _, _, _. split; [reflexivity|]. left. split; [reflexivity | lia]. }
    destruct (Hk2 rd_fuel resv1 h1 Hsub1 Hres1) as (o' & r2' & h2 & H2' & Hcase').
    eexists _, _, _. split; [exact H2'|].
    destruct Hcase' as [[-> Hlt]|Hr]; [left; split; [reflexivity | lia] | now right].
  - exists N1. intros rd_fuel resv h Hsub Hres.
    destruct (Hm2 rd_fuel resv h Hsub Hres) as (o & r2 & h1 & H2 & Hcase).
    unfold bind. rewrite H2, H1.
    destruct Hcase as [[-> Hlt]|(-> & _)];
      eexists _, _, _; (split; [reflexivity|]); [now left | right; reflexivity].
  - exists N1. intros rd_fuel resv h Hsub Hres.
    destruct (Hm2 rd_fuel resv h Hsub Hres) as (o & r2 & h1 & H2 & Hcase).
    unfold bind. rewrite H2, H1.
    destruct Hcase as [[-> Hlt]|(-> & _)];
      eexists _, _, _; (split; [reflexivity|]); [now left | right; exact I].
Qed.

Lemma lockstep_out_results res pre suf :
  lockstep_out h0 d dv (r' <- get ;; ret (results r'))
               (fun _ => r' <- Heap.on_runner get ;; ret (results r'))
               res pre suf.
Proof.
  exists 0%nat. intros rd_fuel resv h Hsub Hres.
  eexists _, _, _. split; [reflexivity|]. right. exact Hres.
Qed.

End Driver.

End Simulation.

(** X27: the query of the store-level model, run on a value that denotes
    the tree [d] in the caller's store, ends as the value-level query on
    [d] does: it returns a new list of values that denote the trees that
    one returns, or raises the same exception.  Only a descent loop that
    was given too little fuel makes it stop short, and some amount of
    fuel, which depends on the data and the path, is always enough. *)
Theorem heap_query_agrees (h : Heap.store) (dv : Heap.val) (d : Json) (p : string) :
  repr h dv d ->
  exists bound : nat,
  forall rd_fuel : nat,
  exists o h',
    Heap.query rd_fuel dv p h = (o, h')
    /\ ((o = OutOfFuel /\ (rd_fuel < bound)%nat)
        \/ outcome_rel (fun out js => repr_list_at h h' out js) o (query d p)).
Proof.
  intros Hd.
  destruct (lockstep_out_bind h d dv
              (consume "$" "at the beginning of JSONPath")
              (fun _ => Heap.on_runner (consume "$" "at the beginning of JSONPath"))
              (fun _ => child (S (String.length p)) ;;
                        r' <- get ;; ret (results r'))
              (fun n _ => Heap.child n (S (String.length p)) ;;
                          r' <- Heap.on_runner get ;; ret (results r'))
              (d :: nil) "" p) as (N & Hlock).
  { apply lockstep_consume. }
  { intros [] res1 mid1 rest1.
    apply (lockstep_out_bind h d dv (child (S (String.length p)))
             (fun n => Heap.child n (S (String.length p)))
             (fun _ => r' <- get ;; ret (results r'))
             (fun _ _ => r' <- Heap.on_runner get ;; ret (results r')));
      [apply lockstep_child|].
    intros [] res2 mid2 rest2. apply lockstep_out_results. }
  exists N. intros rd_fuel.
  unfold Heap.query. unfold bind at 1. rewrite new_list_eq.
  set (res0 := fresh (dom h)). set (h1 := <[res0 := Heap.OList nil]> h).
  assert (Hsub1 : h ⊆ h1) by apply insert_fresh_extends.
  rewrite new_runner_cur. unfold Heap.Runner_query.
  unfold bind at 1. unfold Heap.on_runner at 1. unfold get at 1.
  unfold bind at 1. unfold Heap.on_store at 1. rewrite new_list_eq.
  change (data (cur dv (Heap.VRef res0) "" p)) with dv.
  set (root := fresh (dom h1)). set (h2 := <[root := Heap.OList (dv :: nil)]> h1).
  assert (Hsub2 : h ⊆ h2).
  { transitivity h1; [exact Hsub1 | apply insert_fresh_extends]. }
  unfold bind at 1. unfold Heap.on_runner at 1. unfold put at 1.
  change (set_results (Heap.VRef root) (cur dv (Heap.VRef res0) "" p))
    with (cur dv (Heap.VRef root) "" p).
  assert (Hroot : repr_list_at h h2 (Heap.VRef root) (d :: nil)).
  { exists (dv :: nil). split; [|now repeat constructor].
    simpl. unfold h2. now rewrite lookup_insert_eq. }
  destruct (Hlock rd_fuel (Heap.VRef root) h2 Hsub2 Hroot)
    as (o & r2 & h3 & H2 & Hcase).
  rewrite H2. exists o, h3. split; [reflexivity|]. exact Hcase.
Qed.

Lemma heap_query_agrees_witness :
  exists bound : nat,
  forall rd_fuel : nat,
  exists o h',
    Heap.query rd_fuel (Heap.VRef 2%positive) "$.a[0]" sample_store = (o, h')
    /\ ((o = OutOfFuel /\ (rd_fuel < bound)%nat)
        \/ outcome_rel (fun out js => repr_list_at sample_store h' out js) o
             (query (JObject (("a", ints (1 :: 2 :: nil)%Z) :: nil)) "$.a[0]")).
Proof.
  apply (heap_query_agrees sample_store (Heap.VRef 2%positive)
           (JObject (("a", ints (1 :: 2 :: nil)%Z) :: nil)) "$.a[0]").
  eapply repr_dict; [reflexivity|].
  constructor; [|constructor]. split; [reflexivity|].
  eapply repr_list; [reflexivity|]. repeat constructor.
Defined.

(** On the sample store the two models return the same: the first item of
    the list under "a". *)
Example heap_query_agrees_sample :
  repr sample_store (Heap.VRef 2%positive)
       (JObject (("a", ints (1 :: 2 :: nil)%Z) :: nil))
  /\ fst (Heap.query 10 (Heap.VRef 2%positive) "$.a[0]" sample_store)
     <> OutOfFuel
  /\ query (JObject (("a", ints (1 :: 2 :: nil)%Z) :: nil)) "$.a[0]"
     = Returns (JInt 1 :: nil).
Proof.
  split; [|split; [vm_compute; discriminate | reflexivity]].
  eapply repr_dict; [reflexivity|].
  constructor; [|constructor]. split; [reflexivity|].
  eapply repr_list; [reflexivity|]. repeat constructor.
Qed.

(** ** [parse] and [query] *)

Lemma empties_nil : empties nil.
Proof. constructor. Qed.

Lemma _apply_key_empties (res : list Json) (key : string) :
  empties res -> _apply_key res key = nil.
Proof.
  intros H. unfold _apply_key. rewrite _apply_star_flat_map.
  destruct (String.eqb key "*"); induction H as [|j res <- _ IH]; simpl; auto.
Qed.

Lemma _apply_slice_empties (res : list Json) (sl : PySlice) :
  empties res -> _apply_slice res sl = Returns nil.
Proof. induction 1 as [|j res <- _ IH]; simpl; auto. Qed.

Lemma rd_loop_empties (key : KeyOrSlice) (fuel : nat) :
  forall (stack acc : list Json),
    empties stack -> (List.length stack < fuel)%nat ->
    rd_loop fuel key stack acc = Returns acc.
Proof.
  induction fuel as [|fuel IH]; intros stack acc Hst Hfuel; [lia|].
  cbn [rd_loop]. destruct stack as [|j stack] using rev_ind; [reflexivity|].
  clear IHstack. rewrite list_pop_snoc.
  apply Forall_app in Hst as [Hst Hj]. inversion Hj as [|? ? <- _]; subst.
  rewrite length_app in Hfuel. simpl in Hfuel.
  destruct (is_star key); simpl; rewrite ?app_nil_r.
  - apply IH; [exact Hst | lia].
  - destruct key; apply IH; auto; lia.
Qed.

Lemma _recursive_descent_key_empties (res : list Json) (key : KeyOrSlice) :
  empties res -> _recursive_descent_key res key = Returns nil.
Proof.
  intros H. unfold _recursive_descent_key. apply rd_loop_empties.
  - now apply List.Forall_rev.
  - rewrite length_rev. unfold rd_fuel.
    enough (list_sum (map json_size res) = List.length res) by lia.
    induction H as [|j res <- _ IH]; simpl; auto.
Qed.

Section Twin.
Variable d : Json.

Lemma twin_bind {A B : Type} (m : Mv A) (k : A -> Mv B) res res0 pre suf :
  twin m d res res0 pre suf ->
  (forall a res' res0' mid rest,
      empties res0' -> twin (k a) d res' res0' (pre ++ mid) rest) ->
  twin (bind m k) d res res0 pre suf.
Proof.
  intros [Hzero|(o & res1 & res01 & mid & rest & H1 & H0 & Hemp)] Hk.
  { left. unfold bind. destruct (m (cur d res pre suf)) as [[a|e|] r].
    - discriminate.
    - simpl in *. now injection Hzero as ->.
    - discriminate. }
  destruct o as [a|e|].
  - destruct (Hk a res1 res01 mid rest Hemp)
      as [Hzero|(o' & res2 & res02 & mid' & rest' & H1' & H0' & Hemp')].
    + left. unfold bind. now rewrite H1.
    + right. exists o', res2, res02, (mid ++ mid')%string, rest'.
      unfold bind. rewrite H1, H0, H1', H0', str_app_assoc. auto.
  - right. exists (Raises e), res1, res01, mid, rest.
    unfold bind. rewrite H1, H0. auto.
  - right. exists OutOfFuel, res1, res01, mid, rest.
    unfold bind. rewrite H1, H0. auto.
Qed.

Lemma twin_method {A : Type} (m : method A) res res0 pre suf :
  total m pre suf -> empties res0 ->
  twin (m Json (list Json)) d res res0 pre suf.
Proof.
  intros (o & mid & rest & [_ Hm] & _) Hemp. right.
  exists o, res, res0, mid, rest. rewrite !Hm. auto.
Qed.

Lemma twin_match_ (c : ascii) res res0 pre suf :
  empties res0 -> twin (match_ c) d res res0 pre suf.
Proof. apply (twin_method (fun D R => @match_ D R c)), total_match_. Qed.

Lemma twin_key res res0 pre suf :
  empties res0 -> twin key d res res0 pre suf.
Proof. apply (twin_method (@key)), total_key. Qed.

Lemma twin_bracket res res0 pre suf :
  empties res0 -> twin bracket d res res0 pre suf.
Proof. apply (twin_method (@bracket)), total_bracket. Qed.

Lemma twin_here {A : Type} (m : Mv A) (o : outcome A) res res0 pre suf :
  (forall d' res', m (cur d' res' pre suf) = (o, cur d' res' pre suf)) ->
  empties res0 -> twin m d res res0 pre suf.
Proof.
  intros Hm Hemp. right. exists o, res, res0, ""%string, suf.
  rewrite str_app_nil_r, !Hm. auto.
Qed.

Lemma twin_update_results (f : list Json -> outcome (list Json)) res res0 pre suf :
  (forall l e, f l = Raises e -> e = ValueError step_zero_msg) ->
  (forall l, f l <> OutOfFuel) ->
  (forall l, empties l -> f l = Returns nil) ->
  empties res0 ->
  twin (update_results f) d res res0 pre suf.
Proof.
  intros Hraise Hfin Hemp0 Hemp. unfold twin, update_results, bind, get, put.
  change (results (cur d res pre suf)) with res.
  change (results (cur (JObject nil) res0 pre suf)) with res0.
  rewrite (Hemp0 res0 Hemp). specialize (Hfin res).
  destruct (f res) as [v|e|] eqn:E; [| |congruence].
  - right. exists (Returns tt), v, nil, ""%string, suf.
    rewrite str_app_nil_r. repeat split. apply empties_nil.
  - left. simpl. now rewrite (Hraise res e E).
Qed.

Lemma twin_apply_selector (k : KeyOrSlice) res res0 pre suf :
  empties res0 -> twin (apply_selector k) d res res0 pre suf.
Proof.
  intros Hemp. destruct k as [s|sl]; apply twin_update_results;
    try exact Hemp.
  - intros l e. discriminate.
  - intros l. discriminate.
  - intros l Hl. now rewrite _apply_key_empties.
  - intros l e. apply _apply_slice_raises.
  - intros l. apply _apply_slice_finishes.
  - intros l. apply _apply_slice_empties.
Qed.

Lemma twin_recursive_descent res res0 pre suf :
  empties res0 -> twin recursive_descent d res res0 pre suf.
Proof.
  intros Hemp. unfold recursive_descent.
  apply twin_bind; [now apply twin_match_|].
  intros b res1 res01 mid rest Hemp1. apply twin_bind.
  { destruct b; [now apply twin_bracket | now apply twin_key]. }
  intros k res2 res02 mid2 rest2 Hemp2. apply twin_update_results;
    try exact Hemp2.
  - intros l e. apply rd_loop_raises.
  - intros l. apply _recursive_descent_key_finishes.
  - intros l. apply _recursive_descent_key_empties.
Qed.

Lemma twin_child (fuel : nat) :
  forall res res0 pre suf,
    empties res0 -> twin (child fuel) d res res0 pre suf.
Proof.
  induction fuel as [|fuel IH]; intros res res0 pre suf Hemp.
  { now apply (twin_here _ OutOfFuel). }
  cbn [child]. unfold bind at 1. unfold get at 1.
  assert (Hget : forall (k : runner -> Mv unit) (m : Mv unit),
             (forall d' res', k (cur d' res' pre suf) = m) ->
             twin m d res res0 pre suf ->
             twin (fun r => k r r) d res res0 pre suf).
  { intros k m Hk Hm. unfold twin in *. now rewrite !Hk. }
  eapply (Hget (fun r =>
                  if at_end r then ret tt
                  else dot <- match_ "." ;; _)).
  { intros d' res'. rewrite at_end_cur. reflexivity. }
  destruct suf as [|c suf]; [now apply (twin_here _ (Returns tt))|].
  apply twin_bind; [now apply twin_match_|].
  intros dot res1 res01 mid1 rest1 Hemp1. destruct dot.
  - apply twin_bind; [now apply twin_match_|].
    intros dot2 res2 res02 mid2 rest2 Hemp2. apply twin_bind.
    + destruct dot2; [now apply twin_recursive_descent|].
      apply twin_bind; [now apply twin_key|].
      intros k res3 res03 mid3 rest3 Hemp3. now apply twin_apply_selector.
    + intros [] res3 res03 mid3 rest3 Hemp3. now apply IH.
  - apply twin_bind; [now apply twin_match_|].
    intros br res2 res02 mid2 rest2 Hemp2. destruct br.
    + apply twin_bind; [now apply twin_bracket|].
      intros k res3 res03 mid3 rest3 Hemp3.
      apply twin_bind; [now apply twin_apply_selector|].
      intros [] res4 res04 mid4 rest4 Hemp4. now apply IH.
    + unfold bind, get.
      now apply (twin_here _ (Raises (AssertionError
                   (unexpected_msg (cur d res2 ((pre ++ mid1) ++ mid2) rest2))))).
Qed.

Lemma twin_out_bind {A : Type} (m : Mv A) (k : A -> Mv (list Json))
      res res0 pre suf :
  twin m d res res0 pre suf ->
  (forall a res' res0' mid rest,
      empties res0' -> twin_out d (k a) res' res0' (pre ++ mid) rest) ->
  twin_out d (bind m k) res res0 pre suf.
Proof.
  intros [Hzero|(o & res1 & res01 & mid & rest & H1 & H0 & Hemp)] Hk.
  { left. unfold bind. destruct (m (cur d res pre suf)) as [[a|e|] r].
    - discriminate.
    - simpl in *. now injection Hzero as ->.
    - discriminate. }
  unfold twin_out, bind. rewrite H1, H0. destruct o as [a|e|].
  - apply (Hk a res1 res01 mid rest Hemp).
  - right. reflexivity.
  - right. reflexivity.
Qed.

Lemma twin_out_results res res0 pre suf :
  twin_out d (r' <- get ;; ret (results r')) res res0 pre suf.
Proof. right. intros e. split; discriminate. Qed.

End Twin.

(** X3: whether a [ParseError], or any other exception, ends the run is
    the same for [query] on any data and for [parse], with one exception:
    a query that stops with [ValueError] at a zero-step slice, which
    [parse] never applies to a list. *)
Theorem parse_query_parity (d : Json) (p : string) :
  query d p = Raises (ValueError step_zero_msg)
  \/ forall e, query d p = Raises e <-> parse p = Raises e.
Proof.
  assert (Htwin : twin_out d
                    (consume "$" "at the beginning of JSONPath" ;;
                     child (S (String.length p)) ;;
                     r' <- get ;; ret (results r'))
                    (d :: nil) (JObject nil :: nil) "" p).
  { apply twin_out_bind.
    - apply (twin_method d (fun D R => @consume D R "$"%char
                                           "at the beginning of JSONPath")).
      + apply total_consume.
      + now repeat constructor.
    - intros [] res1 res01 mid1 rest1 Hemp1.
      apply twin_out_bind; [now apply twin_child|].
      intros [] res2 res02 mid2 rest2 Hemp2. apply twin_out_results. }
  change (query d p = Raises (ValueError step_zero_msg)
          \/ forall e, query d p = Raises e <-> query (JObject nil) p = Raises e)
    in Htwin.
  destruct Htwin as [Hz|Hiff]; [now left | right].
  intros e. rewrite Hiff. unfold parse.
  destruct (query (JObject nil) p); split; congruence.
Qed.

(** ** Slices, input by input *)

Lemma list_getslice_None {A : Type} (l : list A) (s : PySlice) :
  list_getslice l s = None <-> zero_step s = true.
Proof.
  unfold list_getslice, slice_indices, zero_step.
  destruct (step s) as [[|p|p]|]; simpl; split; intros H; try discriminate; auto.
Qed.

Lemma list_getslice_zero {A : Type} (l : list A) (s : PySlice) :
  zero_step s = true -> list_getslice l s = None.
Proof. apply list_getslice_None. Qed.

Lemma list_getslice_nonzero {A : Type} (l : list A) (s : PySlice) :
  zero_step s = false -> list_getslice l s = Some (default nil (list_getslice l s)).
Proof.
  intros H. destruct (list_getslice l s) eqn:E; [reflexivity|].
  apply list_getslice_None in E. congruence.
Qed.

Lemma _apply_slice_cases (results : list Json) (s : PySlice) :
  _apply_slice results s
  = if zero_step s && existsb is_list results
    then Raises (ValueError step_zero_msg)
    else Returns (flat_map (slice_matches s) results).
Proof.
  destruct (zero_step s) eqn:Hz; simpl.
  - induction results as [|r results IH]; [reflexivity|].
    cbn [_apply_slice existsb]. destruct r; simpl; try exact IH.
    now rewrite list_getslice_zero.
  - induction results as [|r results IH]; [reflexivity|].
    cbn [_apply_slice flat_map]. destruct r; simpl; try exact IH.
    rewrite (list_getslice_nonzero _ _ Hz), IH. reflexivity.
Qed.

(** X7: [_apply_slice] raises [ValueError] exactly when the step of the
    slice is zero and a list is among the inputs.  Otherwise it returns,
    in input order, the items the slice selects in each input that is a
    list; a dict or a scalar adds nothing. *)
Theorem apply_slice_selector (results : list Json) (s : PySlice) :
  _apply_slice results s
  = if zero_step s && existsb is_list results
    then Raises (ValueError step_zero_msg)
    else Returns (flat_map (slice_matches s) results).
Proof. apply _apply_slice_cases. Qed.

Lemma nodes_children (j : Json) : nodes j = j :: flat_map nodes (children j).
Proof.
  destruct j; try reflexivity.
  simpl. f_equal. unfold dict_values.
  induction items as [|kv d IH]; simpl; [reflexivity | now rewrite IH].
Qed.

Section DescentAll.
Variable key : KeyOrSlice.

Lemma rd_loop_visit (n : nat) (node : Json) (stack acc : list Json) :
  rd_loop (S n) key (stack ++ node :: nil) acc
  = if descent_raises key (node :: nil)
    then Raises (ValueError step_zero_msg)
    else rd_loop n key (stack ++ rev (children node)) (acc ++ own_matches key node).
Proof.
  cbn [rd_loop]. rewrite list_pop_snoc. unfold is_star, descent_raises, own_matches.
  destruct key as [k|s].
  - destruct (String.eqb k "*").
    + now rewrite _apply_star_one.
    + destruct node; simpl; rewrite ?app_nil_r; try reflexivity.
      destruct (dict_get k items); simpl; now rewrite ?app_nil_r.
  - destruct node; simpl; rewrite ?app_nil_r, ?andb_false_r; try reflexivity.
    destruct (zero_step s) eqn:Hz; simpl.
    + now rewrite list_getslice_zero.
    + now rewrite (list_getslice_nonzero _ _ Hz).
Qed.

Lemma descent_raises_app (l1 l2 : list Json) :
  descent_raises key (l1 ++ l2) = descent_raises key l1 || descent_raises key l2.
Proof.
  unfold descent_raises. destruct key as [k|s]; [reflexivity|].
  rewrite existsb_app. destruct (zero_step s); reflexivity.
Qed.

Lemma rd_loop_visits_list (cs : list Json) :
  Forall (visits key) cs ->
  forall n stack acc,
    rd_loop (list_sum (map json_size cs) + n) key (stack ++ rev cs) acc
    = if descent_raises key (flat_map nodes cs)
      then Raises (ValueError step_zero_msg)
      else rd_loop n key stack
             (acc ++ flat_map (own_matches key) (flat_map nodes cs)).
Proof.
  induction 1 as [|c cs Hc _ IH]; intros n stack acc.
  - simpl. rewrite !app_nil_r.
    replace (descent_raises key nil) with false; [reflexivity|].
    unfold descent_raises. destruct key; [reflexivity|].
    simpl. now rewrite andb_false_r.
  - simpl rev. simpl map. simpl list_sum. cbn [flat_map].
    rewrite app_assoc, <- Nat.add_assoc, Hc, descent_raises_app.
    destruct (descent_raises key (nodes c)); [reflexivity|].
    rewrite IH. cbn [orb].
    destruct (descent_raises key (flat_map nodes cs)); [reflexivity|].
    now rewrite flat_map_app, app_assoc.
Qed.

Lemma rd_loop_visits (node : Json) : visits key node.
Proof.
  assert (Hnode : forall j, Forall (visits key) (children j) -> visits key j).
  { intros j Hch n stack acc.
    rewrite json_size_children, nodes_children. cbn [Nat.add].
    rewrite rd_loop_visit.
    change (j :: flat_map nodes (children j))
      with ((j :: nil) ++ flat_map nodes (children j)).
    rewrite descent_raises_app.
    destruct (descent_raises key (j :: nil)); [reflexivity|]. cbn [orb].
    rewrite (rd_loop_visits_list _ Hch).
    destruct (descent_raises key (flat_map nodes (children j))); [reflexivity|].
    cbn [app flat_map]. now rewrite app_assoc. }
  induction node using Json_ind; apply Hnode; simpl; auto.
Qed.

Lemma _recursive_descent_key_cases (results : list Json) :
  _recursive_descent_key results key
  = if descent_raises key (flat_map nodes results)
    then Raises (ValueError step_zero_msg)
    else Returns (flat_map (own_matches key) (flat_map nodes results)).
Proof.
  unfold _recursive_descent_key, rd_fuel.
  rewrite <- Nat.add_1_r, <- (app_nil_l (rev results)).
  rewrite rd_loop_visits_list.
  - destruct (descent_raises key (flat_map nodes results)); reflexivity.
  - apply Forall_forall. intros c _. apply rd_loop_visits.
Qed.

End DescentAll.

Lemma take_range {A : Type} (l : list A) :
  forall s n, (s + n <= List.length l)%nat ->
    flat_map (fun i => match nth_error l (s + i) with
                       | Some x => x :: nil
                       | None => nil
                       end) (seq 0 n)
    = firstn n (skipn s l).
Proof.
  induction l as [|x l IH]; intros s n Hlen.
  - simpl in Hlen. assert (n = 0)%nat as -> by lia. now destruct s.
  - destruct s as [|s].
    + destruct n as [|n]; [reflexivity|].
      cbn [seq flat_map Nat.add nth_error skipn firstn app]. f_equal.
      rewrite <- seq_shift, flat_map_concat_map, map_map, <- flat_map_concat_map.
      apply (IH 0%nat n). simpl in Hlen. lia.
    + cbn [skipn]. rewrite <- (IH s n) by (simpl in Hlen; lia). reflexivity.
Qed.

Lemma getslice_unit_step {A : Type} (l : list A) (b e : Z) :
  (0 <= b <= Z.of_nat (List.length l))%Z ->
  (0 <= e <= Z.of_nat (List.length l))%Z ->
  flat_map (fun i => match nth_error l (Z.to_nat (b + Z.of_nat i * 1)) with
                     | Some x => x :: nil
                     | None => nil
                     end) (seq 0 (slice_length b e 1))
  = firstn (Z.to_nat (e - b)) (skipn (Z.to_nat b) l).
Proof.
  intros Hb He. unfold slice_length. change (1 <? 0)%Z with false. cbv iota.
  destruct (Z.ltb_spec b e) as [Hlt|Hge].
  - rewrite Z.div_1_r.
    replace (Z.to_nat (e - b - 1 + 1)) with (Z.to_nat (e - b)) by lia.
    rewrite <- take_range by lia.
    apply flat_map_ext. intros i. now replace (Z.to_nat (b + Z.of_nat i * 1))
      with (Z.to_nat b + i)%nat by lia.
  - now replace (Z.to_nat (e - b)) with 0%nat by lia.
Qed.

Lemma clamp_range (len v : Z) : (0 <= len -> 0 <= clamp len v <= len)%Z.
Proof. unfold clamp. destruct (Z.ltb_spec v 0); lia. Qed.

Lemma list_getslice_range {A : Type} (l : list A) (a b : Z) :
  list_getslice l (mk_slice (Some a) (Some b) None)
  = Some (firstn (Z.to_nat (clamp (Z.of_nat (List.length l)) b
                            - clamp (Z.of_nat (List.length l)) a))
            (skipn (Z.to_nat (clamp (Z.of_nat (List.length l)) a)) l)).
Proof.
  unfold list_getslice, slice_indices. cbn [step start stop default].
  change (1 =? 0)%Z with false. change (1 <? 0)%Z with false. cbv iota.
  fold (clamp (Z.of_nat (List.length l)) a).
  fold (clamp (Z.of_nat (List.length l)) b).
  f_equal. apply getslice_unit_step; apply clamp_range; lia.
Qed.

Lemma firstn_1_skipn {A : Type} (l : list A) (i : nat) :
  firstn 1 (skipn i l) = option_list (nth_error l i).
Proof.
  revert i. induction l as [|x l IH]; intros [|i]; try reflexivity.
  simpl. apply IH.
Qed.

Lemma list_getslice_subscript {A : Type} (l : list A) (i : Z) :
  list_getslice l (bare_subscript i) = Some (option_list (list_item l i)).
Proof.
  unfold bare_subscript, list_item.
  set (len := Z.of_nat (List.length l)).
  destruct (Z.eqb_spec i (-1)) as [->|Hne].
  - unfold list_getslice, slice_indices. cbn [step start stop default].
    change (1 =? 0)%Z with false. change (1 <? 0)%Z with false.
    change (-1 <? 0)%Z with true. change (0 <=? -1)%Z with false. cbv iota.
    fold len. f_equal.
    rewrite getslice_unit_step by (fold len; lia). fold len.
    destruct (Z.leb_spec (- len) (-1)) as [H1|H1].
    + replace (Z.to_nat (len - Z.max (-1 + len) 0)) with 1%nat by lia.
      replace (Z.max (-1 + len) 0) with (-1 + len)%Z by lia.
      apply firstn_1_skipn.
    + now replace (Z.to_nat (len - Z.max (-1 + len) 0)) with 0%nat by lia.
  - rewrite list_getslice_range. fold len. f_equal. unfold clamp.
    destruct (Z.leb_spec 0 i) as [Hpos|Hneg].
    + destruct (Z.ltb_spec i 0); [lia|]. destruct (Z.ltb_spec (i + 1) 0); [lia|].
      destruct (Z.lt_ge_cases i len) as [Hin|Hout].
      * replace (Z.to_nat (Z.min (i + 1) len - Z.min i len)) with 1%nat by lia.
        replace (Z.min i len) with i by lia. apply firstn_1_skipn.
      * replace (Z.to_nat (Z.min (i + 1) len - Z.min i len)) with 0%nat by lia.
        rewrite (proj2 (nth_error_None l (Z.to_nat i))); [reflexivity|].
        unfold len in *. lia.
    + destruct (Z.ltb_spec i 0); [|lia]. destruct (Z.ltb_spec (i + 1) 0); [|lia].
      destruct (Z.leb_spec (- len) i) as [Hin|Hout].
      * replace (Z.to_nat (Z.max (i + 1 + len) 0 - Z.max (i + len) 0)) with 1%nat by lia.
        replace (Z.max (i + len) 0) with (i + len)%Z by lia. apply firstn_1_skipn.
      * now replace (Z.to_nat (Z.max (i + 1 + len) 0 - Z.max (i + len) 0))
          with 0%nat by lia.
Qed.

(** ** Paths of one segment *)

Lemma bind_assoc_at {S A B C : Type} (m : ST S A) (f : A -> ST S B)
      (g : B -> ST S C) (s : S) :
  bind (bind m f) g s = bind m (fun a => bind (f a) g) s.
Proof. unfold bind. destruct (m s) as [[a|e|] s']; reflexivity. Qed.

Lemma query_via_child (d : Json) (suf : string) (o : outcome unit) (r' : runner) :
  child (S (S (String.length suf))) (cur d (d :: nil) "$" suf) = (o, r') ->
  query d (String "$" suf)
  = match o with
    | Returns _ => Returns (results r')
    | Raises e => Raises e
    | OutOfFuel => OutOfFuel
    end.
Proof.
  intros H. unfold query, run_query. rewrite Runner_query_after_root.
  cbn [String.length]. unfold bind. rewrite H. destruct o; reflexivity.
Qed.

Lemma child_dot_key (fuel : nat) (d : Json) (res : list Json) (pre suf : string) :
  String.get 0 suf <> Some "."%char ->
  child (S fuel) (cur d res pre (String "." suf))
  = (k <- key ;; apply_selector k ;; child fuel) (cur d res (pre ++ ".") suf).
Proof.
  intros Hdot. cbn [child]. unfold bind at 1. unfold get at 1. rewrite at_end_cur.
  unfold bind at 1. rewrite match_cur_hit.
  unfold bind at 1. rewrite match_cur_miss by exact Hdot.
  apply bind_assoc_at.
Qed.

Lemma child_dot_dot (fuel : nat) (d : Json) (res : list Json) (pre suf : string) :
  child (S fuel) (cur d res pre (String "." (String "." suf)))
  = (recursive_descent ;; child fuel) (cur d res (pre ++ "..") suf).
Proof.
  cbn [child]. unfold bind at 1. unfold get at 1. rewrite at_end_cur.
  unfold bind at 1. rewrite match_cur_hit.
  unfold bind at 1. rewrite match_cur_hit.
  now rewrite str_app_assoc.
Qed.

Lemma update_results_cur (f : list Json -> outcome (list Json))
      (d : Json) (res : list Json) (pre suf : string) :
  update_results f (cur d res pre suf)
  = match f res with
    | Returns v => (Returns tt, cur d v pre suf)
    | Raises e => (Raises e, cur d res pre suf)
    | OutOfFuel => (OutOfFuel, cur d res pre suf)
    end.
Proof.
  unfold update_results, bind, get.
  change (results (cur d res pre suf)) with res.
  destruct (f res); reflexivity.
Qed.

(** The last selector of a path. *)
Lemma last_selector (k : KeyOrSlice) (fuel : nat) (d : Json) (res : list Json)
      (pre : string) :
  exists r',
    (apply_selector k ;; child (S fuel)) (cur d res pre "")
    = (match k with
       | IsStr s => Returns tt
       | IsSlice sl => match _apply_slice res sl with
                       | Returns _ => Returns tt
                       | Raises e => Raises e
                       | OutOfFuel => OutOfFuel
                       end
       end, r')
    /\ Returns (results r')
       = match k with
         | IsStr s => Returns (_apply_key res s)
         | IsSlice sl => match _apply_slice res sl with
                         | Returns v => Returns v
                         | _ => Returns res
                         end
         end.
Proof.
  unfold bind. rewrite apply_selector_cur. destruct k as [s|sl].
  - rewrite child_end. eexists. split; reflexivity.
  - destruct (_apply_slice res sl); [rewrite child_end| |]; eexists; split; reflexivity.
Qed.

Lemma query_ends_with_slice (d : Json) (suf : string) (sl : PySlice) (pre : string)
      (fuel : nat) :
  child (S (S (String.length suf))) (cur d (d :: nil) "$" suf)
  = (apply_selector (IsSlice sl) ;; child (S fuel)) (cur d (d :: nil) pre "") ->
  query d (String "$" suf) = _apply_slice (d :: nil) sl.
Proof.
  intros H. destruct (last_selector (IsSlice sl) fuel d (d :: nil) pre) as (r' & Hr & Hres).
  rewrite Hr in H. rewrite (query_via_child _ _ _ _ H).
  pose proof (_apply_slice_finishes (d :: nil) sl) as Hfin.
  destruct (_apply_slice (d :: nil) sl); [now injection Hres as -> | reflexivity | congruence].
Qed.

Lemma str_int_nonempty_head (n : Z) (suf : string) (x : ascii) :
  x <> "-"%char -> isdecimal x = false ->
  String.get 0 (str_int n ++ suf) <> Some x.
Proof.
  intros Hx1 Hx2. destruct (str_int_head n) as (c & s & E & Hc).
  rewrite E, str_app_cons. simpl. intros [= ->]. destruct Hc; congruence.
Qed.

Lemma query_bracket_subscript (d : Json) (i : Z) :
  short_numeral i = true ->
  query d ("$[" ++ str_int i ++ "]") = _apply_slice (d :: nil) (bare_subscript i).
Proof.
  intros Hshort.
  change ("$[" ++ str_int i ++ "]")%string
    with (String "$" (String "[" (str_int i ++ "]"))).
  eapply query_ends_with_slice with (fuel := S (String.length (str_int i ++ "]"))).
  cbn [String.length]. rewrite child_bracket.
  unfold bind at 1. rewrite bracket_number.
  unfold bind at 1. rewrite slice_bare
    by first [ exact Hshort | intros c [= <-]; reflexivity | discriminate ].
  unfold bind at 1. rewrite consume_cur_hit. unfold ret at 1.
  reflexivity.
Qed.

(** A subscript beyond the digit limit of [int] ends the query, in
    brackets and after a dot. *)
Lemma query_bracket_long (d : Json) (i : Z) (suf : string) :
  short_numeral i = false ->
  ends_number suf ->
  query d ("$[" ++ str_int i ++ suf)
  = Raises (ValueError (int_limit_msg (numeral_length i))).
Proof.
  intros Hlong Hend.
  change ("$[" ++ str_int i ++ suf)%string
    with (String "$" (String "[" (str_int i ++ suf))).
  rewrite (query_via_child d _ (Raises (ValueError (int_limit_msg (numeral_length i))))
             (cur d (d :: nil) (("$" ++ "[") ++ str_int i) suf)); [reflexivity|].
  cbn [String.length]. rewrite child_bracket.
  unfold bind at 1. rewrite bracket_number.
  unfold bind at 1. rewrite slice_long by assumption. reflexivity.
Qed.

Lemma any_match_miss {D R : Type} (cs : list ascii) (d : D) (res : R) (pre suf : string) :
  (forall c, In c cs -> String.get 0 suf <> Some c) ->
  any_match cs (cur d res pre suf) = (Returns false, cur d res pre suf).
Proof.
  induction cs as [|c cs IH]; intros H; [reflexivity|].
  cbn [any_match]. unfold bind. rewrite match_cur_miss by (apply H; now left).
  apply IH. intros c' Hc'. apply H. now right.
Qed.

(** In front of a number, [key] goes to [slice]. *)
Lemma key_slice (n : Z) (d : Json) (res : list Json) (pre suf : string) :
  key (cur d res pre (str_int n ++ suf))
  = (sl <- slice ;;
     match sl with
     | Some s => ret (IsSlice s)
     | None =>
         r1 <- get ;;
         k <- key_loop (remaining r1) nil ;;
         ret (IsStr (string_of_list_ascii k))
     end) (cur d res pre (str_int n ++ suf)).
Proof.
  unfold key. unfold bind at 1. unfold get at 1.
  rewrite at_end_cur.
  destruct (str_int_head n) as (c & s & E & Hc).
  replace (match (str_int n ++ suf)%string with "" => true | _ => false end) with false
    by (now rewrite E).
  unfold bind at 1. rewrite any_match_miss.
  2:{ intros x [<-|[<-|[<-|[]]]]; apply str_int_nonempty_head; first [discriminate | reflexivity]. }
  reflexivity.
Qed.

Lemma key_number (n : Z) (d : Json) (res : list Json) (pre suf : string) :
  short_numeral n = true ->
  ends_number suf -> String.get 0 suf <> Some ":"%char ->
  key (cur d res pre (str_int n ++ suf))
  = (Returns (IsSlice (bare_subscript n)), cur d res (pre ++ str_int n) suf).
Proof.
  intros Hshort Hend Hcolon. rewrite key_slice.
  unfold bind at 1. rewrite slice_bare by assumption. reflexivity.
Qed.

Lemma query_dot_long (d : Json) (i : Z) :
  short_numeral i = false ->
  query d ("$." ++ str_int i)
  = Raises (ValueError (int_limit_msg (numeral_length i))).
Proof.
  intros Hlong.
  change ("$." ++ str_int i)%string with (String "$" (String "." (str_int i))).
  rewrite (query_via_child d _ (Raises (ValueError (int_limit_msg (numeral_length i))))
             (cur d (d :: nil) (("$" ++ ".") ++ str_int i) "")); [reflexivity|].
  cbn [String.length]. rewrite child_dot_key.
  2:{ rewrite <- (str_app_nil_r (str_int i)). apply str_int_nonempty_head;
      [discriminate | reflexivity]. }
  unfold bind at 1.
  pose proof (key_slice i d (d :: nil) ("$" ++ ".") "") as Hkey.
  rewrite str_app_nil_r in Hkey. rewrite Hkey.
  pose proof (slice_long i d (d :: nil) ("$" ++ ".") "" Hlong) as Hsl.
  rewrite str_app_nil_r in Hsl.
  unfold bind at 1. rewrite Hsl by (intros c [=]). reflexivity.
Qed.

Lemma query_dot_subscript (d : Json) (i : Z) :
  short_numeral i = true ->
  query d ("$." ++ str_int i) = _apply_slice (d :: nil) (bare_subscript i).
Proof.
  intros Hshort.
  change ("$." ++ str_int i)%string with (String "$" (String "." (str_int i))).
  eapply query_ends_with_slice with (fuel := S (String.length (str_int i))).
  cbn [String.length]. rewrite child_dot_key.
  2:{ rewrite <- (str_app_nil_r (str_int i)). apply str_int_nonempty_head;
      [discriminate | reflexivity]. }
  unfold bind at 1.
  pose proof (key_number i d (d :: nil) ("$" ++ ".") "") as Hkey.
  rewrite str_app_nil_r in Hkey.
  rewrite Hkey by (try exact Hshort; try discriminate; intros c [=]).
  reflexivity.
Qed.

Lemma query_bracket_range (d : Json) (a b : Z) :
  short_numeral a = true ->
  short_numeral b = true ->
  query d ("$[" ++ str_int a ++ ":" ++ str_int b ++ "]")
  = _apply_slice (d :: nil) (mk_slice (Some a) (Some b) None).
Proof.
  intros Ha Hb.
  change ("$[" ++ str_int a ++ ":" ++ str_int b ++ "]")%string
    with (String "$" (String "[" (str_int a ++ String ":" (str_int b ++ "]")))).
  eapply query_ends_with_slice
    with (fuel := S (String.length (str_int a ++ String ":" (str_int b ++ "]")))).
  cbn [String.length]. rewrite child_bracket.
  unfold bind at 1. rewrite bracket_number.
  unfold bind at 1. rewrite slice_start_stop
    by first [ assumption | intros c [= <-]; reflexivity | discriminate ].
  unfold bind at 1. rewrite consume_cur_hit. unfold ret at 1.
  reflexivity.
Qed.

(** X14: for an integer [i], written in decimal with at most 4300 digits,
    "$[i]" returns the item of index [i] of a list, a negative index
    counting from the end, and nothing when the index is out of range or
    the data is no list.  With more digits [int] refuses the numeral and
    the query raises [ValueError], on any data. *)
Theorem query_subscript (d : Json) (i : Z) :
  query d ("$[" ++ str_int i ++ "]")
  = if short_numeral i
    then Returns match d with
                 | JArray l => option_list (list_item l i)
                 | _ => nil
                 end
    else Raises (ValueError (int_limit_msg (numeral_length i))).
Proof.
  destruct (short_numeral i) eqn:Hi.
  - rewrite query_bracket_subscript by exact Hi. destruct d; try reflexivity.
    cbn [_apply_slice]. rewrite list_getslice_subscript. now rewrite app_nil_r.
  - apply query_bracket_long; [exact Hi | intros c [= <-]; reflexivity].
Qed.

(** X15: a subscript can be written after a dot: "$.i" returns what
    "$[i]" returns. *)
Theorem query_dot_subscript_is_bracket (d : Json) (i : Z) :
  query d ("$." ++ str_int i) = query d ("$[" ++ str_int i ++ "]").
Proof.
  destruct (short_numeral i) eqn:Hi.
  - rewrite query_dot_subscript, query_bracket_subscript by exact Hi. reflexivity.
  - rewrite query_dot_long by exact Hi.
    rewrite query_bracket_long; [reflexivity | exact Hi | intros c [= <-]; reflexivity].
Qed.

(** X16: for integers [a] and [b], each written with at most 4300 digits,
    "$[a:b]" returns the items of a list from position [a] up to position
    [b], left out; a negative bound counts from the end and a bound beyond
    an end of the list stands for that end, so that no such pair of bounds
    raises. *)
Theorem query_slice_range (l : list Json) (a b : Z) :
  short_numeral a = true ->
  short_numeral b = true ->
  query (JArray l) ("$[" ++ str_int a ++ ":" ++ str_int b ++ "]")
  = Returns (firstn (Z.to_nat (clamp (Z.of_nat (List.length l)) b
                               - clamp (Z.of_nat (List.length l)) a))
               (skipn (Z.to_nat (clamp (Z.of_nat (List.length l)) a)) l)).
Proof.
  intros Ha Hb. rewrite query_bracket_range by assumption. cbn [_apply_slice].
  rewrite list_getslice_range. now rewrite app_nil_r.
Qed.

Lemma query_slice_range_witness :
  query (JArray (JInt 1 :: JInt 2 :: JInt 3 :: JInt 4 :: nil))
        ("$[" ++ str_int (-3) ++ ":" ++ str_int 7 ++ "]")
  = Returns (JInt 2 :: JInt 3 :: JInt 4 :: nil).
Proof.
  apply (query_slice_range (JInt 1 :: JInt 2 :: JInt 3 :: JInt 4 :: nil) (-3) 7);
    reflexivity.
Defined.

(** X9: the wildcard.  [_apply_star] returns the children of each input,
    in input order: the values of a dict, the items of a list, nothing for
    a scalar; and "$.*" and "$[*]" both return the children of the
    data. *)
Theorem query_wildcard :
  (forall results, _apply_star results = flat_map children results)
  /\ (forall d, query d "$.*" = Returns (children d))
  /\ (forall d, query d "$[*]" = Returns (children d)).
Proof.
  split; [exact _apply_star_flat_map|].
  split; intros d.
  - transitivity (Returns (_apply_star (d :: nil))); [reflexivity|].
    now rewrite _apply_star_one.
  - transitivity (Returns (_apply_star (d :: nil))); [reflexivity|].
    now rewrite _apply_star_one.
Qed.

Lemma children_nodes_perm (j : Json) :
  Permutation (flat_map children (nodes j)) (flat_map nodes (children j)).
Proof.
  assert (Hlist : forall cs,
             Forall (fun c => Permutation (flat_map children (nodes c))
                                (flat_map nodes (children c))) cs ->
             Permutation (cs ++ flat_map children (flat_map nodes cs))
               (flat_map nodes cs)).
  { induction 1 as [|c cs Hc _ IH]; [reflexivity|].
    cbn [flat_map]. rewrite flat_map_app.
    rewrite (nodes_children c) at 2. cbn [app]. constructor.
    etransitivity; [apply Permutation_app_swap_app|].
    apply Permutation_app; [exact Hc | exact IH]. }
  induction j using Json_ind; try reflexivity.
  - rewrite nodes_children. cbn [flat_map]. apply Hlist. exact H.
  - rewrite nodes_children. cbn [flat_map]. apply Hlist. exact H.
Qed.

Lemma query_ends_with_descent (d : Json) (suf : string) (key : KeyOrSlice)
      (pre : string) (fuel : nat) :
  child (S (S (String.length suf))) (cur d (d :: nil) "$" suf)
  = (update_results (fun res => _recursive_descent_key res key) ;; child (S fuel))
      (cur d (d :: nil) pre "") ->
  query d (String "$" suf) = _recursive_descent_key (d :: nil) key.
Proof.
  intros H. unfold bind in H. rewrite update_results_cur in H.
  pose proof (_recursive_descent_key_finishes (d :: nil) key) as Hfin.
  destruct (_recursive_descent_key (d :: nil) key) as [v|e|]; [| |congruence].
  - rewrite child_end in H. now rewrite (query_via_child _ _ _ _ H).
  - now rewrite (query_via_child _ _ _ _ H).
Qed.

(** X10: "$..*" returns the children of every value of the data, the
    values taken in depth-first pre-order.  The result holds the values
    below the data, each as often as it stands there; their pre-order
    list is a permutation of it. *)
Theorem query_descent_wildcard (d : Json) :
  query d "$..*" = Returns (flat_map children (nodes d))
  /\ Permutation (flat_map children (nodes d)) (flat_map nodes (children d)).
Proof.
  split; [|apply children_nodes_perm].
  rewrite (query_ends_with_descent d "..*" (IsStr "*") "$..*" 3) by reflexivity.
  rewrite _recursive_descent_key_cases. cbn [descent_raises flat_map].
  rewrite app_nil_r. reflexivity.
Qed.

(** X8: [_recursive_descent_key] applies its key or slice to every value
    of every input, the inputs in order and the values of each in
    depth-first pre-order, and returns what it finds, in that order: every
    child for "*", the value under the name for another key, the selected
    items for a slice.  It raises [ValueError] exactly when the slice has
    step zero and a list is among these values. *)
Theorem recursive_descent_visits_all (results : list Json) (key : KeyOrSlice) :
  _recursive_descent_key results key
  = if descent_raises key (flat_map nodes results)
    then Raises (ValueError step_zero_msg)
    else Returns (flat_map (own_matches key) (flat_map nodes results)).
Proof. apply _recursive_descent_key_cases. Qed.

(** ** The scanning loops *)

Lemma str_span_app (p : ascii -> bool) (s : string) :
  s = (fst (str_span p s) ++ snd (str_span p s))%string.
Proof.
  induction s as [|c s IH]; [reflexivity|].
  cbn [str_span]. destruct (p c); [|reflexivity].
  cbn [fst snd]. rewrite str_app_cons. now rewrite <- IH.
Qed.

Lemma str_span_all (p : ascii -> bool) (s : string) :
  forallb p (list_ascii_of_string (fst (str_span p s))) = true.
Proof.
  induction s as [|c s IH]; [reflexivity|].
  cbn [str_span]. destruct (p c) eqn:E; [|reflexivity].
  cbn [fst list_ascii_of_string forallb]. now rewrite E, IH.
Qed.

Lemma str_span_stop (p : ascii -> bool) (s : string) (c : ascii) :
  String.get 0 (snd (str_span p s)) = Some c -> p c = false.
Proof.
  induction s as [|c' s IH]; [discriminate|].
  cbn [str_span]. destruct (p c') eqn:E; cbn [snd]; [exact IH|].
  now intros [= <-].
Qed.

Lemma str_span_length (p : ascii -> bool) (s : string) :
  (String.length (fst (str_span p s)) <= String.length s)%nat.
Proof.
  rewrite (str_span_app p s) at 2. rewrite str_length_app. lia.
Qed.

(** Text appended after a scan that stopped, or that starts with a
    character the scan stops at, does not change what is scanned. *)
Lemma str_span_ext (p : ascii -> bool) (s q : string) :
  snd (str_span p s) <> "" \/ (forall c, String.get 0 q = Some c -> p c = false) ->
  str_span p (s ++ q) = (fst (str_span p s), (snd (str_span p s) ++ q)%string).
Proof.
  induction s as [|c s IH]; intros H.
  - rewrite str_app_nil_l. cbn [str_span fst snd]. rewrite str_app_nil_l.
    destruct H as [H|H]; [exfalso; now apply H|].
    destruct q as [|c q]; [reflexivity|].
    cbn [str_span]. now rewrite (H c).
  - rewrite str_app_cons. cbn [str_span] in *. destruct (p c) eqn:E.
    + cbn [fst snd] in *. now rewrite IH.
    + reflexivity.
Qed.

Lemma get_head_app (s q : string) (c : ascii) :
  String.get 0 s = Some c -> String.get 0 (s ++ q) = Some c.
Proof. destruct s; [discriminate|]. now rewrite str_app_cons. Qed.

Lemma seg_start_stops (p : ascii -> bool) (q : string) :
  p "."%char = false -> p "["%char = false -> seg_start q ->
  forall c, String.get 0 q = Some c -> p c = false.
Proof.
  intros Hdot Hbr Hq c Hc. destruct q as [|c' q]; [discriminate|].
  injection Hc as ->. destruct Hq as [->| ->]; assumption.
Qed.

Section Scanning.
Context {D R : Type}.
Implicit Types (d : D) (res : R) (pre suf : string) (c : ascii).

Lemma num_loop_span (fuel : nat) (k : list ascii) d res pre suf :
  (String.length (fst (str_span isnumeric suf)) <= fuel)%nat ->
  num_loop fuel k (cur d res pre suf)
  = (Returns (k ++ list_ascii_of_string (fst (str_span isnumeric suf))),
     cur d res (pre ++ fst (str_span isnumeric suf)) (snd (str_span isnumeric suf))).
Proof.
  intros Hfuel. rewrite (str_span_app isnumeric suf) at 1.
  apply num_loop_run; [apply str_span_all | | exact Hfuel].
  intros c Hc. now apply str_span_stop in Hc.
Qed.

Lemma key_loop_run (s : string) :
  forall fuel k d res pre suf,
    forallb key_char (list_ascii_of_string s) = true ->
    (forall c, String.get 0 suf = Some c -> key_char c = false) ->
    (String.length s <= fuel)%nat ->
    key_loop fuel k (cur d res pre (s ++ suf))
    = match suf with
      | String c _ =>
          if key_stop c
          then (Returns (k ++ list_ascii_of_string s), cur d res (pre ++ s) suf)
          else (Raises (ParseError ("Forbidden char in key value: '"
                                    ++ chr_str c ++ "'.")),
                cur d res (pre ++ s) suf)
      | EmptyString =>
          (Returns (k ++ list_ascii_of_string s), cur d res (pre ++ s) suf)
      end.
Proof.
  induction s as [|c s IH]; intros fuel k d res pre suf Hs Hend Hfuel.
  - rewrite str_app_nil_l, str_app_nil_r, app_nil_r.
    destruct suf as [|c suf].
    + destruct fuel; cbn [key_loop]; unfold bind, get; now rewrite at_end_cur.
    + specialize (Hend c eq_refl). unfold key_char in Hend.
      destruct fuel; cbn [key_loop]; unfold bind at 1; unfold get at 1;
        rewrite at_end_cur; unfold bind at 1; rewrite curr_cur;
        fold (key_stop c); fold (key_forbidden c);
        (destruct (key_stop c); [reflexivity|]);
        (destruct (key_forbidden c); [reflexivity|discriminate]).
  - cbn [list_ascii_of_string forallb] in Hs. apply andb_true_iff in Hs as [Hc Hs].
    destruct fuel as [|fuel]; [simpl in Hfuel; lia|].
    rewrite str_app_cons. cbn [key_loop]. unfold bind at 1. unfold get at 1.
    rewrite at_end_cur. unfold bind at 1. rewrite curr_cur.
    unfold key_char in Hc. apply andb_true_iff in Hc as [Hc1 Hc2].
    fold (key_stop c). fold (key_forbidden c).
    destruct (key_stop c); [discriminate|]. destruct (key_forbidden c); [discriminate|].
    unfold bind at 1. rewrite advance_cur.
    rewrite IH by (auto; simpl in Hfuel; lia).
    rewrite <- app_assoc, str_app_assoc. reflexivity.
Qed.

Lemma quoted_loop_run (q : ascii) (s : string) :
  forall fuel k d res pre suf,
    forallb (not_char q) (list_ascii_of_string s) = true ->
    (forall c, String.get 0 suf = Some c -> c = q) ->
    (String.length s <= fuel)%nat ->
    quoted_loop fuel q k (cur d res pre (s ++ suf))
    = (Returns (k ++ list_ascii_of_string s), cur d res (pre ++ s) suf).
Proof.
  induction s as [|c s IH]; intros fuel k d res pre suf Hs Hend Hfuel.
  - rewrite str_app_nil_l, str_app_nil_r, app_nil_r.
    destruct suf as [|c suf].
    + destruct fuel; cbn [quoted_loop]; unfold bind, get; now rewrite at_end_cur.
    + rewrite (Hend c eq_refl).
      destruct fuel; cbn [quoted_loop]; unfold bind at 1; unfold get at 1;
        rewrite at_end_cur, _curr_cur; cbn [String.get];
        (destruct (decide (Some q = Some q)); [reflexivity | congruence]).
  - cbn [list_ascii_of_string forallb] in Hs. apply andb_true_iff in Hs as [Hc Hs].
    destruct fuel as [|fuel]; [simpl in Hfuel; lia|].
    rewrite str_app_cons. cbn [quoted_loop]. unfold bind at 1. unfold get at 1.
    rewrite at_end_cur, _curr_cur. cbn [String.get].
    destruct (decide (Some c = Some q)) as [[= ->]|_].
    { unfold not_char in Hc. now rewrite Ascii.eqb_refl in Hc. }
    unfold bind at 1. rewrite advance_cur.
    rewrite IH by (auto; simpl in Hfuel; lia).
    rewrite <- app_assoc, str_app_assoc. reflexivity.
Qed.

End Scanning.

(** ** What the parser methods read *)

Lemma numeral_split (suf : string) :
  suf = (numeral_text suf ++ numeral_rest suf)%string.
Proof.
  destruct suf as [|c s]; [reflexivity|]. unfold numeral_text, numeral_rest.
  destruct (Ascii.eqb c "-").
  - rewrite str_app_cons. f_equal. apply str_span_app.
  - apply str_span_app.
Qed.

Lemma isnumeric_seg_start (q : string) :
  seg_start q -> forall c, String.get 0 q = Some c -> isnumeric c = false.
Proof. now apply seg_start_stops. Qed.

Lemma numeral_text_ext (suf q : string) :
  seg_start q -> numeral_text (suf ++ q) = numeral_text suf.
Proof.
  intros Hq. destruct suf as [|c s].
  - rewrite str_app_nil_l. destruct q as [|c q]; [reflexivity|].
    unfold numeral_text. cbn [str_span].
    destruct Hq as [-> | ->]; reflexivity.
  - rewrite str_app_cons. unfold numeral_text. destruct (Ascii.eqb c "-").
    + rewrite str_span_ext by (right; now apply isnumeric_seg_start). reflexivity.
    + rewrite <- str_app_cons.
      rewrite str_span_ext by (right; now apply isnumeric_seg_start). reflexivity.
Qed.

Lemma numeral_rest_ext (suf q : string) :
  seg_start q -> numeral_rest (suf ++ q) = (numeral_rest suf ++ q)%string.
Proof.
  intros Hq. destruct suf as [|c s].
  - rewrite str_app_nil_l. destruct q as [|c q]; [reflexivity|].
    unfold numeral_rest. cbn [str_span].
    destruct Hq as [-> | ->]; reflexivity.
  - rewrite str_app_cons. unfold numeral_rest. destruct (Ascii.eqb c "-").
    + rewrite str_span_ext by (right; now apply isnumeric_seg_start). reflexivity.
    + rewrite <- str_app_cons.
      rewrite str_span_ext by (right; now apply isnumeric_seg_start). reflexivity.
Qed.

Lemma string_of_list_of_string (s : string) :
  string_of_list_ascii (list_ascii_of_string s) = s.
Proof. apply string_of_list_ascii_of_string. Qed.

Section NumCur.
Context {D R : Type}.
Implicit Types (d : D) (res : R) (pre suf : string) (c : ascii).

(** What [num] does, whatever follows the cursor. *)
Lemma num_cur d res pre suf :
  num (cur d res pre suf)
  = (numeral_value (numeral_text suf),
     cur d res (pre ++ numeral_text suf) (numeral_rest suf)).
Proof.
  destruct suf as [|c s].
  - cbn [numeral_text numeral_rest]. rewrite str_app_nil_r.
    apply num_absent; [discriminate | intros c [=]].
  - unfold num. unfold numeral_text, numeral_rest, numeral_value.
    destruct (Ascii.eqb_spec c "-") as [->|Hc].
    + unfold bind at 1. rewrite match_cur_hit.
      unfold bind at 1. unfold get at 1. unfold bind at 1.
      rewrite remaining_cur, num_loop_span by apply str_span_length.
      cbn [app list_ascii_of_string].
      rewrite str_snoc_app.
      destruct (int_ _); [reflexivity | | reflexivity].
      cbn [string_of_list_ascii]. now rewrite string_of_list_of_string.
    + unfold bind at 1. rewrite match_cur_miss by (simpl; congruence).
      unfold bind at 1. unfold get at 1. unfold bind at 1.
      rewrite remaining_cur, num_loop_span by apply str_span_length.
      cbn [app].
      destruct (list_ascii_of_string (fst (str_span isnumeric (String c s))))
        as [|c' ds] eqn:E.
      * reflexivity.
      * destruct (int_ (c' :: ds)); [reflexivity | | reflexivity].
        rewrite <- E. now rewrite string_of_list_of_string.
Qed.

End NumCur.

(** ** Landing *)

Lemma scans_intro {A : Type} (m : method A) (pre suf : string) (o : outcome A)
      (mid rest : string) :
  suf = (mid ++ rest)%string ->
  (forall (D R : Type) (d : D) (res : R),
      m D R (cur d res pre suf) = (o, cur d res (pre ++ mid) rest)) ->
  scans m pre suf o mid rest.
Proof. now split. Qed.

Lemma lands_raises {A : Type} (m : method A) (pre suf : string) (e : exn)
      (mid rest : string) :
  scans m pre suf (Raises e) mid rest -> reads_ok (@Raises A e) -> lands m pre suf.
Proof. intros Hs He. exists (Raises e), mid, rest. repeat split; try easy. apply Hs. apply Hs. Qed.

Lemma lands_ret {A : Type} (a : A) (pre suf : string) :
  lands (fun D R => ret a) pre suf.
Proof.
  exists (Returns a), "", suf. split; [|split; [exact I|]].
  - split; [reflexivity|]. intros. now rewrite str_app_nil_r.
  - intros a' [= <-] pre' q _. split; [reflexivity|].
    intros. now rewrite str_app_nil_r.
Qed.

Lemma lands_bind {A B : Type} (m : method A) (k : A -> method B)
      (pre suf : string) :
  lands m pre suf ->
  (forall a mid rest,
      scans m pre suf (Returns a) mid rest -> lands (k a) (pre ++ mid) rest) ->
  lands (fun D R => bind (m D R) (fun a => k a D R)) pre suf.
Proof.
  intros (o & mid & rest & [Hsuf Hm] & Ho & Hst) Hk.
  destruct o as [a|e|]; [| |contradiction].
  - destruct (Hk a mid rest (conj Hsuf Hm))
      as (o' & mid' & rest' & [Hsuf' Hk'] & Ho' & Hst').
    exists o', (mid ++ mid')%string, rest'. split; [split|split; [exact Ho'|]].
    + now rewrite str_app_assoc, <- Hsuf'.
    + intros. unfold bind. rewrite Hm, Hk'. now rewrite str_app_assoc.
    + intros b -> pre' q Hq.
      destruct (Hst a eq_refl pre' q Hq) as [Hsq Hmq].
      destruct (Hst' b eq_refl (pre' ++ mid)%string q Hq) as [Hsq' Hkq].
      split.
      * rewrite Hsq, Hsq'. now rewrite str_app_assoc.
      * intros. unfold bind. rewrite Hmq, Hkq. now rewrite str_app_assoc.
  - exists (Raises e), mid, rest. split; [split|split; [exact Ho|]].
    + exact Hsuf.
    + intros. unfold bind. now rewrite Hm.
    + discriminate.
Qed.

Lemma lands_ext {A : Type} (m m' : method A) (pre suf : string) :
  (forall (D R : Type) (d : D) (res : R) pre' q,
      seg_start q ->
      m D R (cur d res pre' (suf ++ q)) = m' D R (cur d res pre' (suf ++ q))) ->
  lands m' pre suf -> lands m pre suf.
Proof.
  intros Heq (o & mid & rest & [Hsuf Hm] & Ho & Hst).
  exists o, mid, rest. split; [split|split; [exact Ho|]].
  - exact Hsuf.
  - intros. specialize (Heq D R d res pre "" I).
    rewrite str_app_nil_r in Heq. now rewrite Heq.
  - intros a Ha pre' q Hq. destruct (Hst a Ha pre' q Hq) as [Hsq Hmq].
    split; [exact Hsq|]. intros. now rewrite Heq.
Qed.

Lemma lands_match_ (c : ascii) (pre suf : string) :
  suf <> "" \/ (c <> "."%char /\ c <> "["%char) ->
  lands (fun D R => @match_ D R c) pre suf.
Proof.
  intros H. destruct (decide (String.get 0 suf = Some c)) as [Hc|Hc].
  - destruct suf as [|c' suf]; [discriminate|]. simpl in Hc. injection Hc as ->.
    exists (Returns true), (String c ""), suf. split; [split|split; [exact I|]].
    + reflexivity.
    + intros. apply match_cur_hit.
    + intros a [= <-] pre' q _. split; [reflexivity|].
      intros. rewrite str_app_cons. apply match_cur_hit.
  - exists (Returns false), "", suf. split; [split|split; [exact I|]].
    + reflexivity.
    + intros. rewrite str_app_nil_r. now apply match_cur_miss.
    + intros a [= <-] pre' q Hq. split; [reflexivity|].
      intros. rewrite str_app_nil_r. apply match_cur_miss.
      destruct suf as [|c' suf].
      * rewrite str_app_nil_l. destruct H as [H|[H1 H2]]; [congruence|].
        destruct q as [|c' q]; [discriminate|].
        simpl. destruct Hq as [-> | ->]; congruence.
      * rewrite str_app_cons. exact Hc.
Qed.

Lemma lands_consume (c : ascii) (where_ : string) (pre suf : string) :
  lands (fun D R => @consume D R c where_) pre suf.
Proof.
  destruct (decide (String.get 0 suf = Some c)) as [Hc|Hc].
  - destruct suf as [|c' suf]; [discriminate|]. simpl in Hc. injection Hc as ->.
    exists (Returns tt), (String c ""), suf. split; [split|split; [exact I|]].
    + reflexivity.
    + intros. apply consume_cur_hit.
    + intros [] _ pre' q _. split; [reflexivity|].
      intros. rewrite str_app_cons. apply consume_cur_hit.
  - eapply (lands_raises _ _ _ _ "" suf);
      [split; [reflexivity|]; intros; rewrite str_app_nil_r;
       now apply consume_cur_miss | exact I].
Qed.

Lemma int_too_long (s : list ascii) (digits : Z) :
  int_ s = IntTooLong digits -> (int_max_str_digits < digits)%Z.
Proof.
  unfold int_.
  destruct (Z.ltb_spec int_max_str_digits
              (Z.of_nat (leading_digits (int_unsigned s)))) as [H|H].
  - now intros [= <-].
  - destruct (int_decimal s); discriminate.
Qed.

Lemma numeral_value_ok (k : string) : reads_ok (numeral_value k).
Proof.
  unfold numeral_value. destruct (list_ascii_of_string k) as [|c ds]; [exact I|].
  destruct (int_ (c :: ds)) as [n| |digits] eqn:E; [exact I | |].
  - left. now exists k.
  - right. exists digits. split; [now apply int_too_long in E | reflexivity].
Qed.

Lemma lands_num (pre suf : string) : lands (@num) pre suf.
Proof.
  exists (numeral_value (numeral_text suf)), (numeral_text suf), (numeral_rest suf).
  split; [split|split; [apply numeral_value_ok|]].
  - apply numeral_split.
  - intros. apply num_cur.
  - intros a Ha pre' q Hq. split.
    + rewrite (numeral_split suf) at 1. apply str_app_assoc.
    + intros. rewrite num_cur, numeral_text_ext, numeral_rest_ext by exact Hq.
      now rewrite Ha.
Qed.

Lemma lands_slice (pre suf : string) : lands (@slice) pre suf.
Proof.
  unfold slice. apply lands_bind; [apply lands_num|]. intros start mid rest _.
  apply lands_bind; [apply lands_match_; right; split; discriminate|].
  intros [|] mid1 rest1 _.
  - apply lands_bind; [apply lands_num|]. intros end_ mid2 rest2 _.
    apply lands_bind; [apply lands_match_; right; split; discriminate|].
    intros [|] mid3 rest3 _.
    + apply lands_bind; [apply lands_num|]. intros step mid4 rest4 _.
      apply lands_ret.
    + apply lands_ret.
  - destruct start as [n|]; [|apply lands_ret].
    destruct (n =? -1)%Z; apply lands_ret.
Qed.

Lemma lands_after {A : Type} (m m' : method A) (pre suf mid0 rest0 : string) :
  suf = (mid0 ++ rest0)%string ->
  (forall (D R : Type) (d : D) (res : R) pre' q,
      seg_start q ->
      m D R (cur d res pre' (suf ++ q))
      = m' D R (cur d res (pre' ++ mid0) (rest0 ++ q))) ->
  lands m' (pre ++ mid0) rest0 -> lands m pre suf.
Proof.
  intros Hsuf0 Heq (o & mid & rest & [Hsuf Hm] & Ho & Hst).
  exists o, (mid0 ++ mid)%string, rest. split; [split|split; [exact Ho|]].
  - now rewrite Hsuf0, Hsuf, str_app_assoc.
  - intros. specialize (Heq D R d res pre "" I).
    rewrite !str_app_nil_r in Heq. now rewrite Heq, Hm, str_app_assoc.
  - intros a Ha pre' q Hq.
    destruct (Hst a Ha (pre' ++ mid0)%string q Hq) as [Hsq Hmq].
    split.
    + now rewrite Hsuf0, Hsuf, !str_app_assoc.
    + intros. now rewrite Heq, Hmq, str_app_assoc.
Qed.

Section KeyCur.
Context {D R : Type}.
Implicit Types (d : D) (res : R) (pre suf : string) (c : ascii).

Lemma key_at_end d res pre :
  key (cur d res pre "")
  = (Raises (ParseError "Expected key at the end of JSONPath."), cur d res pre "").
Proof. unfold key, bind, get. now rewrite at_end_cur. Qed.

Lemma prev_cur d res pre c suf :
  prev (cur d res (pre ++ String c "") suf)
  = (Returns c, cur d res (pre ++ String c "") suf).
Proof.
  unfold prev, bind, get. cbn [path cur]. rewrite idx_cur.
  rewrite str_snoc_app, str_length_snoc.
  replace (Z.of_nat (S (String.length pre)) - 1)%Z
    with (Z.of_nat (String.length pre)) by lia.
  now rewrite str_index_cur.
Qed.

Lemma any_match_hit (cs : list ascii) d res pre c suf :
  In c cs ->
  any_match cs (cur d res pre (String c suf))
  = (Returns true, cur d res (pre ++ String c "") suf).
Proof.
  induction cs as [|c' cs IH]; intros Hin; [destruct Hin|].
  cbn [any_match]. unfold bind.
  destruct (decide (c' = c)) as [->|Hne].
  - now rewrite match_cur_hit.
  - rewrite match_cur_miss by (simpl; congruence).
    apply IH. destruct Hin; [congruence | assumption].
Qed.

Lemma key_bad_start d res pre c suf :
  In c ("."%char :: "$"%char :: "["%char :: nil) ->
  key (cur d res pre (String c suf))
  = (Raises (ParseError ("Key name can't start with a '" ++ chr_str c
                         ++ "' (pos: "
                         ++ str_int (Z.of_nat (String.length pre) + 2) ++ ")")),
     cur d res (pre ++ String c "") suf).
Proof.
  intros Hin. unfold key. unfold bind at 1. unfold get at 1. rewrite at_end_cur.
  unfold bind at 1. rewrite any_match_hit by exact Hin.
  unfold bind at 1. rewrite prev_cur. unfold bind, get, raise.
  rewrite idx_cur, str_length_snoc.
  replace (Z.of_nat (S (String.length pre)) + 1)%Z
    with (Z.of_nat (String.length pre) + 2)%Z by lia.
  reflexivity.
Qed.

Lemma key_other_start d res pre c suf :
  ~ In c ("."%char :: "$"%char :: "["%char :: nil) ->
  key (cur d res pre (String c suf))
  = (sl <- slice ;;
     match sl with
     | Some s => ret (IsSlice s)
     | None =>
         r1 <- get ;;
         k <- key_loop (remaining r1) nil ;;
         ret (IsStr (string_of_list_ascii k))
     end) (cur d res pre (String c suf)).
Proof.
  intros Hin. unfold key. unfold bind at 1. unfold get at 1. rewrite at_end_cur.
  unfold bind at 1. rewrite any_match_miss; [reflexivity|].
  intros c' Hc' [= ->]. contradiction.
Qed.

Lemma key_loop_span (fuel : nat) (k : list ascii) d res pre suf :
  (String.length (fst (str_span key_char suf)) <= fuel)%nat ->
  key_loop fuel k (cur d res pre suf)
  = match snd (str_span key_char suf) with
    | String c _ =>
        if key_stop c
        then (Returns (k ++ list_ascii_of_string (fst (str_span key_char suf))),
              cur d res (pre ++ fst (str_span key_char suf))
                (snd (str_span key_char suf)))
        else (Raises (ParseError ("Forbidden char in key value: '"
                                  ++ chr_str c ++ "'.")),
              cur d res (pre ++ fst (str_span key_char suf))
                (snd (str_span key_char suf)))
    | EmptyString =>
        (Returns (k ++ list_ascii_of_string (fst (str_span key_char suf))),
         cur d res (pre ++ fst (str_span key_char suf))
           (snd (str_span key_char suf)))
    end.
Proof.
  intros Hfuel. rewrite (str_span_app key_char suf) at 1.
  apply key_loop_run; [apply str_span_all | | exact Hfuel].
  intros c Hc. now apply str_span_stop in Hc.
Qed.

Lemma quoted_loop_span (fuel : nat) (q : ascii) (k : list ascii) d res pre suf :
  (String.length (fst (str_span (not_char q) suf)) <= fuel)%nat ->
  quoted_loop fuel q k (cur d res pre suf)
  = (Returns (k ++ list_ascii_of_string (fst (str_span (not_char q) suf))),
     cur d res (pre ++ fst (str_span (not_char q) suf))
       (snd (str_span (not_char q) suf))).
Proof.
  intros Hfuel. rewrite (str_span_app (not_char q) suf) at 1.
  apply quoted_loop_run; [apply str_span_all | | exact Hfuel].
  intros c Hc. apply str_span_stop in Hc. unfold not_char in Hc.
  apply negb_false_iff in Hc. now apply Ascii.eqb_eq in Hc.
Qed.

(** The quoted-key branch: the key is the text up to the next quote. *)
Lemma quoted_cur (q : ascii) d res pre suf :
  quoted q (cur d res pre suf)
  = match snd (str_span (not_char q) suf) with
    | EmptyString =>
        (Raises (ParseError ("String started at pos "
                             ++ str_int (Z.of_nat (String.length pre))
                             ++ " was not closed.")),
         cur d res (pre ++ fst (str_span (not_char q) suf)) "")
    | String _ rest =>
        (consume "]" ("after " ++ chr_str q) ;;
         ret (IsStr (fst (str_span (not_char q) suf))))
          (cur d res (pre ++ fst (str_span (not_char q) suf) ++ String q "") rest)
    end.
Proof.
  unfold quoted. unfold bind at 1. unfold get at 1.
  unfold bind at 1. rewrite remaining_cur, idx_cur.
  rewrite quoted_loop_span by apply str_span_length.
  unfold bind at 1. unfold get at 1. rewrite at_end_cur.
  destruct (snd (str_span (not_char q) suf)) as [|c rest] eqn:E; [reflexivity|].
  assert (Hc : c = q).
  { pose proof (str_span_stop (not_char q) suf c) as H. rewrite E in H.
    specialize (H eq_refl). unfold not_char in H.
    apply negb_false_iff in H. now apply Ascii.eqb_eq in H. }
  subst c. unfold bind at 1. rewrite match_cur_hit. cbn [negb app].
  rewrite string_of_list_of_string, str_app_assoc. reflexivity.
Qed.

End KeyCur.

Lemma key_char_stops (q : string) :
  seg_start q -> forall c, String.get 0 q = Some c -> key_char c = false.
Proof. now apply seg_start_stops. Qed.

Lemma lands_key_scan (pre suf : string) :
  lands (fun D R => r1 <- get ;;
                    k <- @key_loop D R (remaining r1) nil ;;
                    ret (IsStr (string_of_list_ascii k))) pre suf.
Proof.
  set (s := fst (str_span key_char suf)). set (rest := snd (str_span key_char suf)).
  assert (Hrun : forall (D R : Type) (d : D) (res : R) pre' q,
             seg_start q ->
             (r1 <- get ;;
              k <- @key_loop D R (remaining r1) nil ;;
              ret (IsStr (string_of_list_ascii k))) (cur d res pre' (suf ++ q))
             = match (rest ++ q)%string with
               | String c _ =>
                   if key_stop c
                   then (Returns (IsStr s), cur d res (pre' ++ s) (rest ++ q))
                   else (Raises (ParseError ("Forbidden char in key value: '"
                                             ++ chr_str c ++ "'.")),
                         cur d res (pre' ++ s) (rest ++ q))
               | EmptyString => (Returns (IsStr s), cur d res (pre' ++ s) (rest ++ q))
               end).
  { intros D R d res pre' q Hq. unfold bind at 1. unfold get at 1.
    unfold bind at 1. rewrite remaining_cur.
    rewrite key_loop_span;
      rewrite str_span_ext by (right; now apply key_char_stops).
    2:{ cbn [fst]. fold s. rewrite str_length_app.
        pose proof (str_span_length key_char suf). fold s in H. lia. }
    cbn [fst snd app]. fold s. fold rest.
    destruct (rest ++ q)%string as [|c r]; [|destruct (key_stop c)];
      cbv beta iota; unfold ret; rewrite ?string_of_list_of_string; reflexivity. }
  assert (Hsplit : suf = (s ++ rest)%string) by apply str_span_app.
  destruct rest as [|c rest'] eqn:Erest.
  - exists (Returns (IsStr s)), s, "". split; [split|split; [exact I|]].
    + exact Hsplit.
    + intros. specialize (Hrun D R d res pre "" I).
      rewrite !str_app_nil_r in Hrun. rewrite Hrun. reflexivity.
    + intros a [= <-] pre' q Hq. split.
      * now rewrite Hsplit, str_app_assoc.
      * intros. rewrite Hrun by exact Hq. rewrite str_app_nil_l.
        destruct q as [|c q]; [reflexivity|].
        destruct Hq as [-> | ->]; reflexivity.
  - destruct (key_stop c) eqn:Ec.
    + exists (Returns (IsStr s)), s, (String c rest').
      split; [split|split; [exact I|]].
      * exact Hsplit.
      * intros. specialize (Hrun D R d res pre "" I).
        rewrite !str_app_nil_r in Hrun. rewrite Hrun. now rewrite Ec.
      * intros a [= <-] pre' q Hq. split.
        -- now rewrite Hsplit, str_app_assoc.
        -- intros. rewrite Hrun by exact Hq. rewrite str_app_cons. now rewrite Ec.
    + eapply (lands_raises _ _ _ _ s (String c rest'));
        [split; [exact Hsplit|]; intros; specialize (Hrun D R d res pre "" I);
         rewrite !str_app_nil_r in Hrun; rewrite Hrun; now rewrite Ec
        | exact I].
Qed.

Lemma lands_key (pre suf : string) : lands (@key) pre suf.
Proof.
  destruct suf as [|c suf].
  { eapply (lands_raises _ _ _ _ "" "");
      [split; [reflexivity|]; intros; rewrite str_app_nil_r; apply key_at_end
      | exact I]. }
  destruct (in_dec ascii_dec c ("."%char :: "$"%char :: "["%char :: nil)) as [Hin|Hout].
  { eapply (lands_raises _ _ _ _ (String c "") suf);
      [split; [reflexivity|]; intros; now apply key_bad_start | exact I]. }
  eapply (lands_ext _
            (fun D R =>
               sl <- @slice D R ;;
               match sl with
               | Some s => ret (IsSlice s)
               | None =>
                   r1 <- get ;;
                   k <- key_loop (remaining r1) nil ;;
                   ret (IsStr (string_of_list_ascii k))
               end)).
  { intros D R d res pre' q _. rewrite str_app_cons.
    now apply key_other_start. }
  apply lands_bind; [apply lands_slice|]. intros [s|] mid rest _.
  - apply lands_ret.
  - apply lands_key_scan.
Qed.

Lemma lands_quoted (q : ascii) (pre suf : string) :
  lands (fun D R => @quoted D R q) pre suf.
Proof.
  pose proof (str_span_app (not_char q) suf) as Hsplit.
  destruct (snd (str_span (not_char q) suf)) as [|c rest] eqn:E.
  - eapply (lands_raises _ _ _ _ (fst (str_span (not_char q) suf)) "");
      [split; [exact Hsplit|]; intros; rewrite quoted_cur, E; reflexivity
      | exact I].
  - assert (Hc : c = q).
    { pose proof (str_span_stop (not_char q) suf c) as H. rewrite E in H.
      specialize (H eq_refl). unfold not_char in H.
      apply negb_false_iff in H. now apply Ascii.eqb_eq in H. }
    subst c.
    eapply (lands_after _
              (fun D R => @consume D R "]" ("after " ++ chr_str q) ;;
                          ret (IsStr (fst (str_span (not_char q) suf))))
              pre suf (fst (str_span (not_char q) suf) ++ String q "") rest).
    + rewrite str_app_assoc. exact Hsplit.
    + intros D R d res pre' q' _. rewrite quoted_cur.
      rewrite str_span_ext by (left; rewrite E; discriminate).
      cbn [fst snd]. rewrite E, str_app_cons. reflexivity.
    + apply lands_bind; [apply lands_consume|]. intros [] mid2 rest2 _.
      apply lands_ret.
Qed.

Lemma lands_bracket (pre suf : string) : lands (@bracket) pre suf.
Proof.
  unfold bracket.
  apply lands_bind; [apply lands_match_; right; split; discriminate|].
  intros [|] mid rest _.
  - apply lands_bind; [apply lands_consume|]. intros [] mid1 rest1 _.
    apply lands_ret.
  - apply lands_bind; [apply lands_match_; right; split; discriminate|].
    intros [|] mid1 rest1 _; [apply lands_quoted|].
    apply lands_bind; [apply lands_match_; right; split; discriminate|].
    intros [|] mid2 rest2 _; [apply lands_quoted|].
    apply lands_bind; [apply lands_slice|]. intros [s|] mid3 rest3 _.
    + apply lands_bind; [apply lands_consume|]. intros [] mid4 rest4 _.
      apply lands_ret.
    + apply (lands_raises _ _ _
               (ParseError ("Expected a subscript or a slice after '[' (pos "
                            ++ str_int (Z.of_nat (String.length
                                 ((((pre ++ mid) ++ mid1) ++ mid2) ++ mid3)))
                            ++ ").")) "" rest3);
        [split; [reflexivity|]; intros; rewrite str_app_nil_r; reflexivity
        | exact I].
Qed.

(** ** One segment of the path *)

Lemma child_unfold (fuel : nat) (r : runner) :
  child (S fuel) r
  = if at_end r then (Returns tt, r) else (segment ;; child fuel) r.
Proof.
  cbn [child]. unfold segment, bind, get, raise.
  destruct (at_end r); [reflexivity|].
  destruct (match_ "." r) as [[[|]|e|] r1]; try reflexivity.
  - destruct (match_ "." r1) as [[[|]|e|] r2]; reflexivity.
  - destruct (match_ "[" r1) as [[[|]|e|] r2]; try reflexivity.
    destruct (bracket r2) as [[k|e|] r3]; try reflexivity.
Qed.

Lemma apply_selector_select (k : KeyOrSlice) (r : runner) :
  apply_selector k r = update_results (select false k) r.
Proof. destruct k; reflexivity. Qed.

Lemma update_results_selected (deep : bool) (k : KeyOrSlice)
      (d : Json) (res : list Json) (pre suf : string) :
  update_results (select deep k) (cur d res pre suf)
  = selected (select deep k res) d res pre suf.
Proof. apply update_results_cur. Qed.

Lemma reads_ok_error {A : Type} (e : exn) : reads_ok (@Raises A e) -> path_error e.
Proof. destruct e; simpl; intros H; auto; contradiction. Qed.

(** Reading a key or a bracket and applying it. *)
Lemma lands_selects (P : method KeyOrSlice) (deep : bool) (pre suf : string) :
  lands P pre suf ->
  (exists e mid rest,
      path_error e /\ suf = (mid ++ rest)%string
      /\ forall d res,
           (k <- P Json (list Json) ;; update_results (select deep k))
             (cur d res pre suf)
           = (Raises e, cur d res (pre ++ mid) rest))
  \/ (exists k mid rest,
        suf = (mid ++ rest)%string
        /\ forall d res pre' q,
             seg_start q ->
             (k <- P Json (list Json) ;; update_results (select deep k))
               (cur d res pre' (suf ++ q))
             = selected (select deep k res) d res (pre' ++ mid) (rest ++ q)).
Proof.
  intros (o & mid & rest & [Hsuf Hm] & Ho & Hst).
  destruct o as [k|e|]; [| |contradiction].
  - right. exists k, mid, rest. split; [exact Hsuf|].
    intros d res pre' q Hq. destruct (Hst k eq_refl pre' q Hq) as [_ Hmq].
    unfold bind. rewrite Hmq. apply update_results_selected.
  - left. exists e, mid, rest. split; [now apply (reads_ok_error (A:=KeyOrSlice))|].
    split; [exact Hsuf|]. intros d res. unfold bind. now rewrite Hm.
Qed.

Lemma bind_ext_at {S A B : Type} (m : ST S A) (f g : A -> ST S B) (s : S) :
  (forall a s', f a s' = g a s') -> bind m f s = bind m g s.
Proof. intros H. unfold bind. destruct (m s) as [[a|e|] s']; auto. Qed.

Section SegmentPrefix.
Implicit Types (d : Json) (res : list Json) (pre suf : string) (c : ascii).

Lemma seg_dot_key d res pre suf :
  String.get 0 suf <> Some "."%char ->
  segment (cur d res pre (String "." suf))
  = (k <- key ;; update_results (select false k)) (cur d res (pre ++ ".") suf).
Proof.
  intros Hdot. unfold segment. unfold bind at 1. rewrite match_cur_hit.
  unfold bind at 1. rewrite match_cur_miss by exact Hdot.
  apply bind_ext_at. intros k r. apply apply_selector_select.
Qed.

Lemma seg_dot_dot d res pre suf :
  segment (cur d res pre (String "." (String "." suf)))
  = recursive_descent (cur d res (pre ++ "..") suf).
Proof.
  unfold segment. unfold bind at 1. rewrite match_cur_hit.
  unfold bind at 1. rewrite match_cur_hit. now rewrite str_app_assoc.
Qed.

Lemma rd_bracket d res pre suf :
  recursive_descent (cur d res pre (String "[" suf))
  = (k <- bracket ;; update_results (select true k)) (cur d res (pre ++ "[") suf).
Proof.
  unfold recursive_descent. unfold bind at 1. rewrite match_cur_hit. reflexivity.
Qed.

Lemma rd_key d res pre suf :
  String.get 0 suf <> Some "["%char ->
  recursive_descent (cur d res pre suf)
  = (k <- key ;; update_results (select true k)) (cur d res pre suf).
Proof.
  intros H. unfold recursive_descent. unfold bind at 1.
  rewrite match_cur_miss by exact H. reflexivity.
Qed.

Lemma seg_bracket d res pre suf :
  segment (cur d res pre (String "[" suf))
  = (k <- bracket ;; update_results (select false k)) (cur d res (pre ++ "[") suf).
Proof.
  unfold segment. unfold bind at 1. rewrite match_cur_miss by discriminate.
  unfold bind at 1. rewrite match_cur_hit.
  apply bind_ext_at. intros k r. apply apply_selector_select.
Qed.

Lemma seg_other d res pre c suf :
  c <> "."%char -> c <> "["%char ->
  segment (cur d res pre (String c suf))
  = (Raises (AssertionError
               ("Expected '.' or '[' at pos: "
                ++ str_int (Z.of_nat (String.length pre) + 1)
                ++ ", got: '" ++ chr_str c ++ "'")),
     cur d res pre (String c suf)).
Proof.
  intros Hdot Hbr. unfold segment.
  unfold bind at 1. rewrite match_cur_miss by (simpl; congruence).
  unfold bind at 1. rewrite match_cur_miss by (simpl; congruence).
  reflexivity.
Qed.

End SegmentPrefix.

Lemma spec_via (P : method KeyOrSlice) (deep : bool) (pre suf prefix s1 : string) :
  suf = (prefix ++ s1)%string -> prefix <> "" ->
  (forall d res pre' q,
      seg_start q ->
      segment (cur d res pre' (suf ++ q))
      = (k <- P Json (list Json) ;; update_results (select deep k))
          (cur d res (pre' ++ prefix) (s1 ++ q))) ->
  lands P (pre ++ prefix) s1 ->
  segment_fails_at pre suf
  \/ exists deep k mid rest, segment_selects suf deep k mid rest.
Proof.
  intros Hsuf Hne Hseg HP.
  destruct (lands_selects P deep _ _ HP)
    as [(e & mid & rest & He & Hs1 & Hrun)|(k & mid & rest & Hs1 & Hrun)].
  - left. exists e, (prefix ++ mid)%string, rest. split; [exact He|].
    split; [now rewrite Hsuf, Hs1, str_app_assoc|].
    intros d res. specialize (Hseg d res pre "" I).
    rewrite !str_app_nil_r in Hseg. now rewrite Hseg, Hrun, str_app_assoc.
  - right. exists deep, k, (prefix ++ mid)%string, rest. split; [|split].
    + now rewrite Hsuf, Hs1, str_app_assoc.
    + destruct prefix; [congruence | discriminate].
    + intros d res pre' q Hq. rewrite Hseg, Hrun by exact Hq.
      now rewrite str_app_assoc.
Qed.

Lemma segment_spec_at (pre suf : string) :
  suf <> "" ->
  segment_fails_at pre suf
  \/ exists deep k mid rest, segment_selects suf deep k mid rest.
Proof.
  intros Hne. destruct suf as [|c0 s0]; [congruence|]. clear Hne.
  destruct (ascii_dec c0 ".") as [->|Hdot].
  - destruct s0 as [|c1 s1].
    + left. exists (ParseError "Expected key at the end of JSONPath."), ".", "".
      split; [exact I|]. split; [reflexivity|]. intros d res.
      rewrite seg_dot_key by discriminate. unfold bind. now rewrite key_at_end.
    + destruct (ascii_dec c1 ".") as [->|Hdot2].
      * destruct s1 as [|c2 s2].
        -- left. exists (ParseError "Expected key at the end of JSONPath."), "..", "".
           split; [exact I|]. split; [reflexivity|]. intros d res.
           rewrite seg_dot_dot, rd_key by discriminate.
           unfold bind. now rewrite key_at_end.
        -- destruct (ascii_dec c2 "[") as [->|Hbr].
           ++ apply (spec_via (@bracket) true pre _ "..[" s2);
                [reflexivity | discriminate | | apply lands_bracket].
              intros d res pre' q _. rewrite !str_app_cons.
              rewrite seg_dot_dot, rd_bracket. now rewrite str_app_assoc.
           ++ apply (spec_via (@key) true pre _ ".." (String c2 s2));
                [reflexivity | discriminate | | apply lands_key].
              intros d res pre' q _. rewrite !str_app_cons.
              rewrite seg_dot_dot, rd_key; [reflexivity|].
              simpl. congruence.
      * apply (spec_via (@key) false pre _ "." (String c1 s1));
          [reflexivity | discriminate | | apply lands_key].
        intros d res pre' q _. rewrite !str_app_cons.
        rewrite seg_dot_key; [reflexivity|]. simpl. congruence.
  - destruct (ascii_dec c0 "[") as [->|Hbr].
    + apply (spec_via (@bracket) false pre _ "[" s0);
        [reflexivity | discriminate | | apply lands_bracket].
      intros d res pre' q _. rewrite !str_app_cons. now rewrite seg_bracket.
    + left. eexists _, "", (String c0 s0). split; [|split; [reflexivity|]].
      2:{ intros d res. rewrite str_app_nil_r. now apply seg_other. }
      simpl. eauto.
Qed.

Lemma select_nil (deep : bool) (k : KeyOrSlice) : select deep k nil = Returns nil.
Proof.
  destruct deep; simpl.
  - now apply _recursive_descent_key_empties, empties_nil.
  - destruct k; [|reflexivity]. now rewrite _apply_key_empties by apply empties_nil.
Qed.

(** A segment either is malformed wherever it is read, or stands for a
    selector wherever it is read. *)
Lemma segment_spec (suf : string) :
  suf <> "" ->
  (forall pre, segment_fails_at pre suf)
  \/ exists deep k mid rest, segment_selects suf deep k mid rest.
Proof.
  intros Hne. destruct (segment_spec_at "" suf Hne) as [Hfail|Hsel]; [|now right].
  left. intros pre. destruct (segment_spec_at pre suf Hne) as [H|Hsel]; [exact H|].
  exfalso. destruct Hsel as (deep & k & mid & rest & _ & _ & Hrun).
  destruct Hfail as (e & mid' & rest' & _ & _ & Hraise).
  specialize (Hrun JNull nil "" "" I). rewrite str_app_nil_r in Hrun.
  rewrite Hraise, select_nil in Hrun. discriminate.
Qed.

(** ** Runs of the driver *)

Lemma select_finishes (deep : bool) (k : KeyOrSlice) (res : list Json) :
  select deep k res <> OutOfFuel.
Proof.
  destruct deep; simpl; [apply _recursive_descent_key_finishes|].
  destruct k; [discriminate | apply _apply_slice_finishes].
Qed.

Lemma select_raises (deep : bool) (k : KeyOrSlice) (res : list Json) (e : exn) :
  select deep k res = Raises e -> e = ValueError step_zero_msg.
Proof.
  destruct deep; simpl; [apply rd_loop_raises|].
  destruct k; [discriminate | apply _apply_slice_raises].
Qed.

Lemma _apply_key_app (a b : list Json) (s : string) :
  _apply_key (a ++ b) s = _apply_key a s ++ _apply_key b s.
Proof.
  unfold _apply_key. rewrite !_apply_star_flat_map.
  destruct (String.eqb s "*"); apply flat_map_app.
Qed.

Lemma select_app (deep : bool) (k : KeyOrSlice) (a b : list Json) :
  select deep k (a ++ b) = outcome_app (select deep k a) (select deep k b).
Proof.
  destruct deep; simpl.
  - rewrite !_recursive_descent_key_cases, !flat_map_app, descent_raises_app.
    destruct (descent_raises k (flat_map nodes a)); [reflexivity|].
    destruct (descent_raises k (flat_map nodes b)); reflexivity.
  - destruct k as [s|sl]; simpl; [now rewrite _apply_key_app|].
    rewrite !_apply_slice_cases, existsb_app, flat_map_app.
    destruct (zero_step sl); [|reflexivity]. simpl.
    destruct (existsb is_list a); [reflexivity|].
    destruct (existsb is_list b); reflexivity.
Qed.

Lemma mid_shortens (suf mid rest : string) :
  suf = (mid ++ rest)%string -> mid <> "" ->
  (String.length rest < String.length suf)%nat.
Proof.
  intros -> Hne. rewrite str_length_app. destruct mid; [congruence|]. simpl. lia.
Qed.

(** How a run of the driver ends. *)
Lemma child_outcome (fuel : nat) :
  forall suf d res pre,
    (String.length suf < fuel)%nat ->
    exists o r',
      child fuel (cur d res pre suf) = (o, r')
      /\ match o with
         | Returns _ => exists res', r' = cur d res' (pre ++ suf) ""
         | Raises e => path_error e \/ e = ValueError step_zero_msg
         | OutOfFuel => False
         end.
Proof.
  induction fuel as [|fuel IH]; intros suf d res pre Hfuel; [lia|].
  rewrite child_unfold, at_end_cur. destruct suf as [|c0 s0] eqn:Esuf.
  { exists (Returns tt), (cur d res pre ""). split; [reflexivity|].
    exists res. now rewrite str_app_nil_r. }
  rewrite <- Esuf in *. assert (Hne : suf <> "") by (rewrite Esuf; discriminate).
  clear Esuf c0 s0.
  destruct (segment_spec suf Hne) as [Hfail|(deep & k & mid & rest & Hsuf & Hmid & Hrun)].
  - destruct (Hfail pre) as (e & mid & rest & He & _ & Hraise).
    exists (Raises e), (cur d res (pre ++ mid) rest). split; [|now left].
    unfold bind. now rewrite Hraise.
  - specialize (Hrun d res pre "" I). rewrite !str_app_nil_r in Hrun.
    unfold bind. rewrite Hrun.
    pose proof (select_finishes deep k res) as Hfin.
    destruct (select deep k res) as [v|e|] eqn:Esel; [| |congruence]; cbn [selected].
    + destruct (IH rest d v (pre ++ mid)%string) as (o & r' & Hchild & Ho).
      { pose proof (mid_shortens _ _ _ Hsuf Hmid). lia. }
      exists o, r'. split; [exact Hchild|].
      destruct o; [|exact Ho|exact Ho].
      destruct Ho as [res' ->]. exists res'. now rewrite Hsuf, str_app_assoc.
    + exists (Raises e), (cur d res (pre ++ mid) rest). split; [reflexivity|].
      right. now apply select_raises in Esel.
Qed.

(** Fuel beyond the length of the path changes nothing. *)
Lemma child_fuel (f1 : nat) :
  forall f2 suf d res pre,
    (String.length suf < f1)%nat -> (String.length suf < f2)%nat ->
    child f1 (cur d res pre suf) = child f2 (cur d res pre suf).
Proof.
  induction f1 as [|f1 IH]; intros f2 suf d res pre H1 H2; [lia|].
  destruct f2 as [|f2]; [lia|].
  rewrite !child_unfold, at_end_cur. destruct suf as [|c0 s0] eqn:Esuf; [reflexivity|].
  rewrite <- Esuf in *. assert (Hne : suf <> "") by (rewrite Esuf; discriminate).
  clear Esuf c0 s0.
  destruct (segment_spec suf Hne) as [Hfail|(deep & k & mid & rest & Hsuf & Hmid & Hrun)].
  - destruct (Hfail pre) as (e & mid & rest & He & _ & Hraise).
    unfold bind. now rewrite Hraise.
  - specialize (Hrun d res pre "" I). rewrite !str_app_nil_r in Hrun.
    unfold bind. rewrite Hrun.
    destruct (select deep k res) as [v|e|]; cbn [selected]; try reflexivity.
    pose proof (mid_shortens _ _ _ Hsuf Hmid). apply IH; lia.
Qed.

(** A path that the driver has read to its end with a result, read as the
    beginning of a longer path: the driver goes on from that result. *)
Lemma child_extend (fuel : nat) :
  forall suf d res pre res',
    child fuel (cur d res pre suf) = (Returns tt, cur d res' (pre ++ suf) "") ->
    forall q F,
      seg_start q -> (String.length (suf ++ q) < F)%nat ->
      child F (cur d res pre (suf ++ q)) = child F (cur d res' (pre ++ suf) q).
Proof.
  induction fuel as [|fuel IH]; intros suf d res pre res' Hrun0 q F Hq HF;
    [discriminate|].
  rewrite child_unfold, at_end_cur in Hrun0. destruct suf as [|c0 s0] eqn:Esuf.
  { rewrite str_app_nil_l, str_app_nil_r.
    assert (res = res') as <-; [|reflexivity].
    apply (f_equal snd) in Hrun0. apply (f_equal results) in Hrun0. exact Hrun0. }
  rewrite <- Esuf in *. assert (Hne : suf <> "") by (rewrite Esuf; discriminate).
  clear Esuf c0 s0.
  destruct F as [|F]; [lia|].
  rewrite child_unfold, at_end_cur.
  replace (match (suf ++ q)%string with "" => true | _ => false end) with false
    by (destruct suf; [congruence | reflexivity]).
  destruct (segment_spec suf Hne) as [Hfail|(deep & k & mid & rest & Hsuf & Hmid & Hrun)].
  - destruct (Hfail pre) as (e & mid & rest & He & _ & Hraise).
    unfold bind in Hrun0. rewrite Hraise in Hrun0. discriminate.
  - pose proof (Hrun d res pre "" I) as Hrun1. rewrite !str_app_nil_r in Hrun1.
    unfold bind in Hrun0. rewrite Hrun1 in Hrun0.
    unfold bind at 1. rewrite (Hrun d res pre q Hq).
    destruct (select deep k res) as [v|e|]; cbn [selected] in *; try discriminate.
    pose proof (mid_shortens _ _ _ Hsuf Hmid) as Hlen.
    rewrite Hsuf, str_app_assoc in HF. rewrite !str_length_app in HF.
    assert (Hm1 : (0 < String.length mid)%nat)
      by (destruct mid; [congruence | simpl; lia]).
    rewrite (IH rest d v (pre ++ mid)%string res').
    + rewrite Hsuf, <- str_app_assoc. apply child_fuel; lia.
    + rewrite Hrun0. now rewrite Hsuf, str_app_assoc.
    + exact Hq.
    + rewrite str_length_app. lia.
Qed.

(** The driver works on each result separately: run on two result sets
    put together, it returns what it returns on each, put together. *)
Lemma child_hom (fuel : nat) :
  forall suf d d1 d2 res1 res2 pre pre1 pre2,
    (String.length suf < fuel)%nat ->
    outs (child fuel (cur d (res1 ++ res2) pre suf))
    = match outs (child fuel (cur d1 res1 pre1 suf)),
            outs (child fuel (cur d2 res2 pre2 suf)) with
      | Some a, Some b => Some (a ++ b)
      | _, _ => None
      end.
Proof.
  induction fuel as [|fuel IH]; intros suf d d1 d2 res1 res2 pre pre1 pre2 Hfuel;
    [lia|].
  rewrite !child_unfold, !at_end_cur. destruct suf as [|c0 s0] eqn:Esuf; [reflexivity|].
  rewrite <- Esuf in *. assert (Hne : suf <> "") by (rewrite Esuf; discriminate).
  clear Esuf c0 s0.
  destruct (segment_spec suf Hne) as [Hfail|(deep & k & mid & rest & Hsuf & Hmid & Hrun)].
  - destruct (Hfail pre) as (e & mid & rest & _ & _ & Hraise).
    destruct (Hfail pre1) as (e1 & mid1 & rest1 & _ & _ & Hraise1).
    unfold bind. now rewrite Hraise, Hraise1.
  - pose proof (Hrun d (res1 ++ res2) pre "" I) as H0.
    pose proof (Hrun d1 res1 pre1 "" I) as H1.
    pose proof (Hrun d2 res2 pre2 "" I) as H2.
    rewrite !str_app_nil_r in H0, H1, H2.
    unfold bind. rewrite H0, H1, H2, select_app.
    pose proof (mid_shortens _ _ _ Hsuf Hmid) as Hlen.
    destruct (select deep k res1) as [v1|e1|]; cbn [selected outcome_app];
      [|reflexivity|reflexivity].
    destruct (select deep k res2) as [v2|e2|]; cbn [selected].
    + apply IH. lia.
    + destruct (outs (child fuel (cur d1 v1 (pre1 ++ mid) rest))); reflexivity.
    + destruct (outs (child fuel (cur d1 v1 (pre1 ++ mid) rest))); reflexivity.
Qed.

(** ** Paths, segment after segment *)

Lemma query_no_dollar (d : Json) (p : string) :
  String.get 0 p <> Some "$"%char ->
  query d p
  = Raises (ParseError "Expected '$' at the beginning of JSONPath (pos 0).").
Proof.
  intros H. unfold query, run_query, Runner_query.
  rewrite new_runner_cur. unfold bind at 1. unfold get at 1.
  unfold bind at 1. unfold put at 1.
  change (set_results (data (cur d nil "" p) :: nil) (cur d nil "" p))
    with (cur d (d :: nil) "" p).
  unfold bind at 1. rewrite consume_cur_miss by exact H. reflexivity.
Qed.

Lemma query_child (d : Json) (p0 : string) :
  query d (String "$" p0)
  = match child (S (S (String.length p0))) (cur d (d :: nil) "$" p0) with
    | (Returns _, r') => Returns (results r')
    | (Raises e, _) => Raises e
    | (OutOfFuel, _) => OutOfFuel
    end.
Proof.
  destruct (child _ _) as [o r'] eqn:E.
  rewrite (query_via_child _ _ _ _ E). destruct o; reflexivity.
Qed.

Lemma query_returns_inv (d : Json) (p : string) (rs : list Json) :
  query d p = Returns rs ->
  exists p0,
    p = String "$" p0
    /\ child (S (S (String.length p0))) (cur d (d :: nil) "$" p0)
       = (Returns tt, cur d rs ("$" ++ p0) "").
Proof.
  intros H. destruct (decide (String.get 0 p = Some "$"%char)) as [Hd|Hd].
  2:{ rewrite query_no_dollar in H by exact Hd. discriminate. }
  destruct p as [|c p0]; [discriminate|]. simpl in Hd. injection Hd as ->.
  exists p0. split; [reflexivity|].
  rewrite query_child in H.
  destruct (child_outcome (S (S (String.length p0))) p0 d (d :: nil) "$")
    as (o & r' & Hchild & Ho); [lia|].
  rewrite Hchild in *. destruct o as [[]|e|]; [|discriminate|contradiction].
  destruct Ho as [res' ->]. injection H as ->. reflexivity.
Qed.

Lemma outs_child_query (fuel : nat) (r : Json) (q : string) (out : list Json) :
  (String.length q < fuel)%nat ->
  query r (String "$" q) = Returns out ->
  outs (child fuel (cur r (r :: nil) "$" q)) = Some out.
Proof.
  intros Hfuel H. apply query_returns_inv in H as (p0 & [= <-] & Hchild).
  rewrite (child_fuel fuel (S (S (String.length q)))) by lia.
  now rewrite Hchild.
Qed.

(** The driver run on no result at all, where [parse] accepts the rest of
    the path. *)
Lemma child_on_nothing (fuel : nat) (d : Json) (pre q : string) :
  (String.length q < fuel)%nat ->
  parse (String "$" q) = Returns tt ->
  outs (child fuel (cur d nil pre q)) = Some nil.
Proof.
  intros Hfuel Hparse. unfold parse in Hparse.
  destruct (query (JObject nil) (String "$" q)) as [out| |] eqn:E; try discriminate.
  apply (outs_child_query fuel) in E; [|exact Hfuel].
  pose proof (child_hom fuel q (JObject nil) d (JObject nil) nil (JObject nil :: nil)
                "$" pre "$" Hfuel) as H1.
  cbn [app] in H1. rewrite E in H1.
  destruct (outs (child fuel (cur d nil pre q))) as [a|] eqn:Ea; [|discriminate].
  pose proof (child_hom fuel q d d d nil nil pre pre pre Hfuel) as H2.
  cbn [app] in H2. rewrite Ea in H2. injection H2 as H2.
  apply (f_equal (@List.length Json)) in H2. rewrite length_app in H2.
  destruct a; [reflexivity | simpl in H2; lia].
Qed.

Lemma child_on_each (fuel : nat) (d : Json) (pre q : string) (rs : list Json) :
  (String.length q < fuel)%nat ->
  parse (String "$" q) = Returns tt ->
  (forall r, In r rs -> exists out, query r (String "$" q) = Returns out) ->
  outs (child fuel (cur d rs pre q)) = Some (flat_map (continued q) rs).
Proof.
  intros Hfuel Hparse. induction rs as [|r rs IH]; intros Hall.
  - now apply child_on_nothing.
  - change (r :: rs) with ((r :: nil) ++ rs).
    rewrite (child_hom fuel q d r d (r :: nil) rs pre "$" pre Hfuel).
    destruct (Hall r) as [out Hout]; [now left|].
    rewrite (outs_child_query fuel r q out Hfuel Hout).
    rewrite IH by (intros r' Hr'; apply Hall; now right).
    cbn [app flat_map]. unfold continued at 2. now rewrite Hout.
Qed.

(** X4: paths compose.  Let [query d p] return [rs], and let [q] continue
    the path: [q] is empty or starts with "." or "[", the path "$"
    followed by [q] parses, and its query returns on every value of [rs].
    Then the query of [d] on [p] followed by [q] returns what the query on
    "$" followed by [q] returns on each value of [rs], one value after the
    other. *)
Theorem query_path_composition (d : Json) (p q : string) (rs : list Json) :
  query d p = Returns rs ->
  seg_start q ->
  parse (String "$" q) = Returns tt ->
  (forall r, In r rs -> exists out, query r (String "$" q) = Returns out) ->
  query d (p ++ q) = Returns (flat_map (continued q) rs).
Proof.
  intros Hp Hq Hparse Hall.
  apply query_returns_inv in Hp as (p0 & -> & Hchild).
  rewrite str_app_cons, query_child.
  rewrite (child_extend _ _ _ _ _ _ Hchild q) by (auto; lia).
  set (F := S (S (String.length (p0 ++ q)))).
  assert (HF : (String.length q < F)%nat).
  { unfold F. rewrite str_length_app. lia. }
  pose proof (child_on_each F d ("$" ++ p0) q rs HF Hparse Hall) as Hout.
  unfold outs in Hout.
  destruct (child F (cur d rs ("$" ++ p0) q)) as [[[]|e|] r']; simpl in Hout;
    try discriminate.
  now injection Hout as ->.
Qed.

Lemma query_path_composition_witness :
  query (JObject (("a", JArray (JObject (("x", JInt 1) :: nil)
                                 :: JObject (("x", JInt 2) :: nil) :: nil)) :: nil))
        ("$.a[*]" ++ ".x")
  = Returns (JInt 1 :: JInt 2 :: nil).
Proof.
  apply (query_path_composition
           (JObject (("a", JArray (JObject (("x", JInt 1) :: nil)
                                    :: JObject (("x", JInt 2) :: nil) :: nil)) :: nil))
           "$.a[*]" ".x"
           (JObject (("x", JInt 1) :: nil) :: JObject (("x", JInt 2) :: nil) :: nil)).
  - reflexivity.
  - now left.
  - reflexivity.
  - intros r [<-|[<-|[]]]; eexists; reflexivity.
Defined.

(** X21: a "." at the end of a path is an error: when the query on [p]
    returns, the query on [p] followed by "." raises [ParseError], on any
    data. *)
Theorem query_trailing_dot (d : Json) (p : string) (rs : list Json) :
  query d p = Returns rs ->
  query d (p ++ ".")
  = Raises (ParseError "Expected key at the end of JSONPath.").
Proof.
  intros Hp. apply query_returns_inv in Hp as (p0 & -> & Hchild).
  rewrite str_app_cons, query_child.
  rewrite (child_extend _ _ _ _ _ _ Hchild ".")
    by (simpl; auto; rewrite str_length_app; simpl; lia).
  rewrite child_unfold, at_end_cur. unfold bind.
  rewrite seg_dot_key by discriminate. unfold bind. now rewrite key_at_end.
Qed.

Lemma query_trailing_dot_witness :
  query JNull ("$[*]" ++ ".")
  = Raises (ParseError "Expected key at the end of JSONPath.").
Proof. apply (query_trailing_dot JNull "$[*]" nil). reflexivity. Defined.

(** More depth than a run of [child] needs changes nothing. *)
Lemma child_more_fuel (fuel : nat) :
  forall (k : nat) (r r' : runner) (o : outcome unit),
    child fuel r = (o, r') -> o <> OutOfFuel -> child (fuel + k) r = (o, r').
Proof.
  induction fuel as [|fuel IH]; intros k r r' o H Ho.
  - cbn [child] in H. unfold out_of_fuel in H. injection H as <- _. congruence.
  - cbn [Nat.add]. rewrite child_unfold in H |- *. destruct (at_end r); [exact H|].
    unfold bind in H |- *. destruct (segment r) as [[[]|e|] r1]; [|exact H|exact H].
    now apply IH.
Qed.

Lemma run_query_no_dollar (depth : nat) (d : Json) (p : string) :
  String.get 0 p <> Some "$"%char ->
  run_query depth d p
  = Raises (ParseError "Expected '$' at the beginning of JSONPath (pos 0).").
Proof.
  intros H. unfold run_query, Runner_query.
  rewrite new_runner_cur. unfold bind at 1. unfold get at 1.
  unfold bind at 1. unfold put at 1.
  change (set_results (data (cur d nil "" p) :: nil) (cur d nil "" p))
    with (cur d (d :: nil) "" p).
  unfold bind at 1. rewrite consume_cur_miss by exact H. reflexivity.
Qed.

Lemma run_query_child (depth : nat) (d : Json) (p0 : string) :
  run_query depth d (String "$" p0)
  = match child depth (cur d (d :: nil) "$" p0) with
    | (Returns _, r') => Returns (results r')
    | (Raises e, _) => Raises e
    | (OutOfFuel, _) => OutOfFuel
    end.
Proof.
  unfold run_query. rewrite Runner_query_after_root. unfold bind.
  destruct (child depth _) as [[[]|e|] r']; reflexivity.
Qed.

(** A run whose calls of [child] may nest [depth] deep ends as [query]
    does, unless it is cut short there; and that takes a path longer than
    [depth]. *)
Lemma run_query_depth (depth : nat) (d : Json) (p : string) :
  run_query depth d p = query d p
  \/ (run_query depth d p = OutOfFuel /\ (depth <= String.length p)%nat).
Proof.
  destruct (decide (String.get 0 p = Some "$"%char)) as [Hd|Hd].
  2:{ left. now rewrite run_query_no_dollar, query_no_dollar by exact Hd. }
  destruct p as [|c p0]; [discriminate|]. simpl in Hd. injection Hd as ->.
  rewrite run_query_child, query_child.
  destruct (le_lt_dec depth (String.length p0)) as [Hle|Hlt].
  - destruct (child depth (cur d (d :: nil) "$" p0)) as [o r'] eqn:E.
    destruct o as [[]|e|].
    + left. replace (S (S (String.length p0)))
        with (depth + (S (S (String.length p0)) - depth))%nat by lia.
      now rewrite (child_more_fuel depth _ _ _ _ E).
    + left. replace (S (S (String.length p0)))
        with (depth + (S (S (String.length p0)) - depth))%nat by lia.
      now rewrite (child_more_fuel depth _ _ _ _ E).
    + right. split; [reflexivity|]. simpl. lia.
  - left. rewrite (child_fuel depth (S (S (String.length p0)))) by lia. reflexivity.
Qed.

(** X1: a query always ends, with a list or with an exception, and the
    exception is one of these: a [ParseError]; the [AssertionError] of
    [child], for a segment that starts with neither "." nor "["; a
    [ValueError] of [int], for a numeral that is no decimal literal or has
    more than 4300 digits; or the [ValueError] of a slice whose step is
    zero.  Where the calls of [child] to itself may nest [depth] deep only,
    the run ends in the same way, or it is cut short at that depth, as by
    Python's [RecursionError]; the path is then longer than [depth]. *)
Theorem query_failure_modes (d : Json) (p : string) :
  match query d p with
  | Returns _ => True
  | Raises e => path_error e \/ e = ValueError step_zero_msg
  | OutOfFuel => False
  end
  /\ forall depth : nat,
       run_query depth d p = query d p
       \/ (run_query depth d p = OutOfFuel /\ (depth <= String.length p)%nat).
Proof.
  split; [|intros depth; apply run_query_depth].
  destruct (decide (String.get 0 p = Some "$"%char)) as [Hd|Hd].
  2:{ rewrite query_no_dollar by exact Hd. now left. }
  destruct p as [|c p0]; [discriminate|]. simpl in Hd. injection Hd as ->.
  rewrite query_child.
  destruct (child_outcome (S (S (String.length p0))) p0 d (d :: nil) "$")
    as (o & r' & Hchild & Ho); [lia|].
  rewrite Hchild. destruct o; auto.
Qed.

(** ** Keys *)

Lemma str_span_whole (p : ascii -> bool) (s : string) :
  forallb p (list_ascii_of_string s) = true -> str_span p s = (s, "").
Proof.
  induction s as [|c s IH]; [reflexivity|].
  cbn [list_ascii_of_string forallb str_span]. intros H.
  apply andb_true_iff in H as [Hc Hs]. now rewrite Hc, IH.
Qed.

Lemma str_span_none (p : ascii -> bool) (s : string) :
  (forall c, String.get 0 s = Some c -> p c = false) -> str_span p s = ("", s).
Proof.
  destruct s as [|c s]; [reflexivity|]. intros H.
  cbn [str_span]. now rewrite (H c eq_refl).
Qed.

Section KeyLookup.
Implicit Types (d : Json) (res : list Json) (pre suf : string) (c : ascii).

Lemma slice_absent {D R : Type} (dd : D) (rr : R) pre suf :
  String.get 0 suf <> Some "-"%char ->
  String.get 0 suf <> Some ":"%char ->
  ends_number suf ->
  slice (cur dd rr pre suf) = (Returns None, cur dd rr pre suf).
Proof.
  intros Hminus Hcolon Hend. unfold slice.
  unfold bind at 1. rewrite num_absent by assumption.
  unfold bind at 1. rewrite match_cur_miss by exact Hcolon. reflexivity.
Qed.

Lemma key_head_facts (c : ascii) :
  key_head c = true ->
  key_char c = true /\ isnumeric c = false
  /\ c <> "$"%char /\ c <> "-"%char /\ c <> ":"%char
  /\ c <> "."%char /\ c <> "["%char.
Proof.
  unfold key_head. intros H.
  apply andb_true_iff in H as [H H3]. apply andb_true_iff in H as [H1 H2].
  apply negb_true_iff in H2.
  repeat split; try assumption; intros ->; try discriminate.
Qed.

(** A plain name after a dot is read as that key, up to the end of the
    path. *)
Lemma key_plain {D R : Type} (dd : D) (rr : R) pre (name : string) :
  plain_key name = true ->
  key (cur dd rr pre name) = (Returns (IsStr name), cur dd rr (pre ++ name) "").
Proof.
  intros Hplain. destruct name as [|c s]; [discriminate|].
  cbn [plain_key] in Hplain. apply andb_true_iff in Hplain as [Hc Hs].
  destruct (key_head_facts c Hc) as (Hkc & Hnum & H1 & H2 & H3 & H4 & H5).
  rewrite key_other_start by (intros [<-|[<-|[<-|[]]]]; congruence).
  unfold bind at 1. rewrite slice_absent;
    [ | simpl; congruence | simpl; congruence | now apply ends_number_cons ].
  unfold bind at 1. unfold get at 1. unfold bind at 1.
  rewrite remaining_cur, key_loop_span; rewrite str_span_whole.
  - cbn [fst snd app]. unfold ret. now rewrite string_of_list_of_string.
  - cbn [list_ascii_of_string forallb]. now rewrite Hkc, Hs.
  - cbn [fst]. lia.
  - cbn [list_ascii_of_string forallb]. now rewrite Hkc, Hs.
Qed.

Lemma query_ends_with_key (d : Json) (suf : string) (name : string) (pre : string)
      (fuel : nat) :
  child (S (S (String.length suf))) (cur d (d :: nil) "$" suf)
  = (apply_selector (IsStr name) ;; child (S fuel)) (cur d (d :: nil) pre "") ->
  query d (String "$" suf) = Returns (_apply_key (d :: nil) name).
Proof.
  intros H. destruct (last_selector (IsStr name) fuel d (d :: nil) pre) as (r' & Hr & Hres).
  rewrite Hr in H. rewrite (query_via_child _ _ _ _ H). exact Hres.
Qed.

Lemma _apply_key_one (d : Json) (name : string) :
  _apply_key (d :: nil) name = own_matches (IsStr name) d.
Proof.
  unfold _apply_key, own_matches. destruct (String.eqb name "*").
  - apply _apply_star_one.
  - simpl. apply app_nil_r.
Qed.

Lemma plain_key_head (name : string) :
  plain_key name = true ->
  String.get 0 name <> Some "."%char /\ String.get 0 name <> Some "["%char.
Proof.
  destruct name as [|c s]; [discriminate|]. cbn [plain_key]. intros H.
  apply andb_true_iff in H as [Hc _].
  destruct (key_head_facts c Hc) as (_ & _ & _ & _ & _ & H4 & H5).
  simpl. split; congruence.
Qed.

End KeyLookup.

(** X11: for a name that the dot notation can hold (no ".", "[" or quote
    in it, and its first character not numeric and none of "$", "-",
    ":"), "$.name" returns the value under the name when the data is a
    dict that has it, and nothing otherwise; for the name "*", the
    children of the data. *)
Theorem query_dot_key (d : Json) (name : string) :
  plain_key name = true ->
  query d ("$." ++ name) = Returns (own_matches (IsStr name) d).
Proof.
  intros Hplain. rewrite <- _apply_key_one.
  change ("$." ++ name)%string with (String "$" (String "." name)).
  eapply query_ends_with_key with (fuel := S (String.length name)).
  cbn [String.length]. rewrite child_dot_key by apply (plain_key_head _ Hplain).
  unfold bind at 1. rewrite key_plain by exact Hplain. reflexivity.
Qed.

Lemma query_dot_key_witness :
  query (JObject (("a", JInt 1) :: nil)) "$.a" = Returns (JInt 1 :: nil).
Proof. apply (query_dot_key (JObject (("a", JInt 1) :: nil)) "a"). reflexivity. Defined.

(** X12: for a name that the dot notation can hold, "$..name" returns
    what the name selects in every value of the data, the data itself
    first and the values in depth-first pre-order. *)
Theorem query_descent_key (d : Json) (name : string) :
  plain_key name = true ->
  query d ("$.." ++ name) = Returns (flat_map (own_matches (IsStr name)) (nodes d)).
Proof.
  intros Hplain.
  change ("$.." ++ name)%string with (String "$" (String "." (String "." name))).
  rewrite (query_ends_with_descent d _ (IsStr name) ("$.." ++ name)
             (S (S (String.length name)))).
  - rewrite _recursive_descent_key_cases. cbn [descent_raises flat_map].
    now rewrite app_nil_r.
  - cbn [String.length]. rewrite child_dot_dot.
    unfold bind at 1. rewrite rd_key by apply (plain_key_head _ Hplain).
    unfold bind at 1. rewrite key_plain by exact Hplain.
    rewrite str_app_assoc. reflexivity.
Qed.

Lemma query_descent_key_witness :
  query (JObject (("a", JObject (("a", JInt 1) :: nil)) :: nil)) "$..a"
  = Returns (JObject (("a", JInt 1) :: nil) :: JInt 1 :: nil).
Proof.
  apply (query_descent_key (JObject (("a", JObject (("a", JInt 1) :: nil)) :: nil)) "a").
  reflexivity.
Defined.

(** ** Quoted keys *)

Lemma span_to_quote (q : ascii) (name rest : string) :
  forallb (not_char q) (list_ascii_of_string name) = true ->
  str_span (not_char q) (name ++ String q rest) = (name, String q rest).
Proof.
  intros H. rewrite str_span_ext.
  - now rewrite (str_span_whole _ _ H).
  - right. intros c [= <-]. unfold not_char. now rewrite Ascii.eqb_refl.
Qed.

Lemma bracket_quoted {D R : Type} (dd : D) (rr : R) (pre : string) (q : ascii)
      (suf : string) :
  q = "'"%char \/ q = dquote ->
  bracket (cur dd rr pre (String q suf)) = quoted q (cur dd rr (pre ++ String q "") suf).
Proof.
  intros [-> | ->]; unfold bracket.
  - unfold bind at 1. rewrite match_cur_miss by discriminate.
    unfold bind at 1. rewrite match_cur_hit. reflexivity.
  - unfold bind at 1. rewrite match_cur_miss by discriminate.
    unfold bind at 1. rewrite match_cur_miss by discriminate.
    unfold bind at 1. rewrite match_cur_hit. reflexivity.
Qed.

(** X13: a key between single or double quotes in brackets is taken as
    it is written, up to the closing quote, whatever its characters
    ("." and "[" too): the query returns the value under it when the data
    is a dict that has it, nothing otherwise, and the children of the data
    when the key is "*". *)
Theorem query_quoted_key (d : Json) (q : ascii) (name : string) :
  q = "'"%char \/ q = dquote ->
  forallb (not_char q) (list_ascii_of_string name) = true ->
  query d ("$[" ++ String q name ++ String q "]")
  = Returns (own_matches (IsStr name) d).
Proof.
  intros Hq Hname. rewrite <- _apply_key_one.
  change ("$[" ++ String q name ++ String q "]")%string
    with (String "$" (String "[" (String q (name ++ String q "]")))).
  eapply query_ends_with_key
    with (fuel := S (String.length (String q (name ++ String q "]")))).
  cbn [String.length]. rewrite child_bracket.
  unfold bind at 1. rewrite bracket_quoted by exact Hq.
  rewrite quoted_cur, span_to_quote by exact Hname. cbn [fst snd].
  unfold bind at 1. rewrite consume_cur_hit. reflexivity.
Qed.

Lemma query_quoted_key_witness :
  query (JObject (("a.b", JInt 1) :: nil)) "$['a.b']" = Returns (JInt 1 :: nil).
Proof.
  apply (query_quoted_key (JObject (("a.b", JInt 1) :: nil)) "'" "a.b");
    [now left | reflexivity].
Defined.

(** X23: a quoted key whose closing quote is missing raises
    [ParseError] with the position after the opening quote. *)
Theorem query_unclosed_quote (d : Json) (q : ascii) (name : string) :
  q = "'"%char \/ q = dquote ->
  forallb (not_char q) (list_ascii_of_string name) = true ->
  query d ("$[" ++ String q name)
  = Raises (ParseError "String started at pos 3 was not closed.").
Proof.
  intros Hq Hname.
  change ("$[" ++ String q name)%string with (String "$" (String "[" (String q name))).
  rewrite query_child. cbn [String.length]. rewrite child_bracket.
  unfold bind at 1. rewrite bracket_quoted by exact Hq.
  rewrite quoted_cur, (str_span_whole _ _ Hname). reflexivity.
Qed.

Lemma query_unclosed_quote_witness :
  query JNull "$['abc" = Raises (ParseError "String started at pos 3 was not closed.").
Proof. apply (query_unclosed_quote JNull "'" "abc"); [now left | reflexivity]. Defined.

(** X22: after a dot, a key cannot start with "$" or "[": the query
    raises [ParseError], and its message names that character and the
    position 4, one more than the index that follows the character. *)
Theorem query_key_bad_start (d : Json) (c : ascii) (rest : string) :
  c = "$"%char \/ c = "["%char ->
  query d ("$." ++ String c rest)
  = Raises (ParseError ("Key name can't start with a '" ++ chr_str c
                        ++ "' (pos: 4)")).
Proof.
  intros Hc.
  change ("$." ++ String c rest)%string with (String "$" (String "." (String c rest))).
  rewrite query_child. cbn [String.length].
  rewrite child_dot_key by (simpl; destruct Hc as [-> | ->]; discriminate).
  unfold bind at 1. rewrite key_bad_start by (destruct Hc as [-> | ->]; simpl; auto).
  reflexivity.
Qed.

Lemma query_key_bad_start_witness :
  query JNull "$.$" = Raises (ParseError "Key name can't start with a '$' (pos: 4)").
Proof. apply (query_key_bad_start JNull "$" ""). now left. Defined.

Lemma bracket_head_facts (suf : string) :
  (forall c, String.get 0 suf = Some c -> bracket_head c = false) ->
  String.get 0 suf <> Some "*"%char /\ String.get 0 suf <> Some "'"%char
  /\ String.get 0 suf <> Some dquote /\ String.get 0 suf <> Some "-"%char
  /\ String.get 0 suf <> Some ":"%char /\ ends_number suf.
Proof.
  intros H.
  assert (Hne : forall x, bracket_head x = true -> String.get 0 suf <> Some x).
  { intros x Hx E. rewrite (H x E) in Hx. discriminate. }
  repeat split; try (apply Hne; reflexivity).
  intros c Hc. specialize (H c Hc). unfold bracket_head in H.
  now apply orb_false_iff in H as [H _].
Qed.

(** X25: what follows "[" must start with "*", a quote, "-", ":" or a
    numeric character; anything else, the end of the path too, raises
    [ParseError]. *)
Theorem query_bracket_no_subscript (d : Json) (suf : string) :
  (forall c, String.get 0 suf = Some c -> bracket_head c = false) ->
  query d ("$[" ++ suf)
  = Raises (ParseError "Expected a subscript or a slice after '[' (pos 2).").
Proof.
  intros H. destruct (bracket_head_facts suf H) as (H1 & H2 & H3 & H4 & H5 & H6).
  change ("$[" ++ suf)%string with (String "$" (String "[" suf)).
  rewrite query_child. cbn [String.length]. rewrite child_bracket.
  unfold bind at 1. unfold bracket.
  unfold bind at 1. rewrite match_cur_miss by exact H1.
  unfold bind at 1. rewrite match_cur_miss by exact H2.
  unfold bind at 1. rewrite match_cur_miss by exact H3.
  unfold bind at 1. rewrite slice_absent by assumption.
  reflexivity.
Qed.

Lemma query_bracket_no_subscript_witness :
  query JNull "$[abc]"
  = Raises (ParseError "Expected a subscript or a slice after '[' (pos 2).").
Proof.
  apply (query_bracket_no_subscript JNull "abc]"). intros c [= <-]. reflexivity.
Defined.

Lemma num_lone_minus {D R : Type} (dd : D) (rr : R) (pre suf : string) :
  ends_number suf ->
  num (cur dd rr pre (String "-" suf))
  = (Raises (ValueError (int_literal_msg "-")), cur dd rr (pre ++ "-") suf).
Proof.
  intros Hend. rewrite num_cur. unfold numeral_text, numeral_rest.
  cbn [Ascii.eqb Bool.eqb]. cbv iota.
  rewrite str_span_none by exact Hend. reflexivity.
Qed.

(** X26: a "-" that no numeric character follows, in brackets or after a
    dot, makes the query raise the [ValueError] of [int("-")] and not a
    [ParseError], whatever follows and on any data. *)
Theorem query_minus_without_digits (d : Json) (suf : string) :
  ends_number suf ->
  query d ("$[-" ++ suf) = Raises (ValueError (int_literal_msg "-"))
  /\ query d ("$.-" ++ suf) = Raises (ValueError (int_literal_msg "-")).
Proof.
  intros Hend. split.
  - change ("$[-" ++ suf)%string with (String "$" (String "[" (String "-" suf))).
    rewrite query_child. cbn [String.length]. rewrite child_bracket.
    unfold bind at 1. unfold bracket.
    unfold bind at 1. rewrite match_cur_miss by discriminate.
    unfold bind at 1. rewrite match_cur_miss by discriminate.
    unfold bind at 1. rewrite match_cur_miss by discriminate.
    unfold bind at 1. unfold slice.
    unfold bind at 1. rewrite num_lone_minus by exact Hend. reflexivity.
  - change ("$.-" ++ suf)%string with (String "$" (String "." (String "-" suf))).
    rewrite query_child. cbn [String.length].
    rewrite child_dot_key by discriminate.
    unfold bind at 1.
    rewrite key_other_start by (intros [H|[H|[H|[]]]]; discriminate).
    unfold bind at 1. unfold slice.
    unfold bind at 1. rewrite num_lone_minus by exact Hend. reflexivity.
Qed.

Lemma query_minus_without_digits_witness :
  query JNull "$[-x]" = Raises (ValueError (int_literal_msg "-"))
  /\ query JNull "$.-x]" = Raises (ValueError (int_literal_msg "-")).
Proof. apply (query_minus_without_digits JNull "x]"). intros c [= <-]. reflexivity. Defined.

(** X20: a path that does not start with "$", the empty path too, raises
    [ParseError] at position 0. *)
Theorem query_requires_root (d : Json) (p : string) :
  String.get 0 p <> Some "$"%char ->
  query d p
  = Raises (ParseError "Expected '$' at the beginning of JSONPath (pos 0).").
Proof.
  intros H. unfold query, run_query, Runner_query.
  rewrite new_runner_cur. unfold bind at 1. unfold get at 1.
  unfold bind at 1. unfold put at 1.
  change (set_results (data (cur d nil "" p) :: nil) (cur d nil "" p))
    with (cur d (d :: nil) "" p).
  unfold bind at 1. rewrite consume_cur_miss by exact H. reflexivity.
Qed.

Lemma query_requires_root_witness :
  query JNull ""
  = Raises (ParseError "Expected '$' at the beginning of JSONPath (pos 0).").
Proof. apply (query_requires_root JNull ""). discriminate. Defined.

(** ** The results are values of the data *)

Lemma nodes_self (j : Json) : In j (nodes j).
Proof. rewrite nodes_children. now left. Qed.

Lemma nodes_child (c j : Json) : In c (children j) -> In c (nodes j).
Proof.
  intros H. rewrite nodes_children. right.
  apply in_flat_map. exists c. split; [exact H | apply nodes_self].
Qed.

Lemma nodes_trans (x y z : Json) : In x (nodes y) -> In y (nodes z) -> In x (nodes z).
Proof.
  intros Hxy. induction z using Json_ind; intros Hyz;
    rewrite nodes_children in Hyz; cbn [children flat_map In] in Hyz;
    try (destruct Hyz as [<-|[]]; exact Hxy).
  - destruct Hyz as [<-|Hyz]; [exact Hxy|].
    rewrite nodes_children. right.
    apply in_flat_map in Hyz as (c & Hc & Hyc).
    apply in_flat_map. exists c. split; [exact Hc|].
    rewrite List.Forall_forall in H. now apply H.
  - destruct Hyz as [<-|Hyz]; [exact Hxy|].
    rewrite nodes_children. right.
    apply in_flat_map in Hyz as (c & Hc & Hyc).
    apply in_flat_map. exists c. split; [exact Hc|].
    rewrite List.Forall_forall in H. now apply H.
Qed.

Lemma dict_get_In {V : Type} (k : string) (d : list (string * V)) (v : V) :
  dict_get k d = Some v -> In v (dict_values d).
Proof.
  induction d as [|[k' v'] d IH]; [discriminate|].
  cbn [dict_get dict_values map snd]. destruct (String.eqb k' k).
  - intros [= ->]. now left.
  - intros H. right. now apply IH.
Qed.

Lemma list_getslice_In {A : Type} (l vs : list A) (s : PySlice) (x : A) :
  list_getslice l s = Some vs -> In x vs -> In x l.
Proof.
  unfold list_getslice. destruct (slice_indices s _) as [[[b e] st]|]; [|discriminate].
  intros [= <-] Hx. apply in_flat_map in Hx as (i & _ & Hx).
  destruct (nth_error l _) as [y|] eqn:E; [|destruct Hx].
  destruct Hx as [<-|[]]. now apply nth_error_In in E.
Qed.

Lemma own_matches_children (key : KeyOrSlice) (node x : Json) :
  In x (own_matches key node) -> In x (children node).
Proof.
  unfold own_matches. destruct key as [k|s].
  - destruct (String.eqb k "*"); [auto|].
    destruct node; simpl; try contradiction.
    destruct (dict_get k items) eqn:E; simpl; [|contradiction].
    intros [<-|[]]. now apply dict_get_In in E.
  - destruct node; simpl; try contradiction.
    destruct (list_getslice elems s) eqn:E; simpl; [|contradiction].
    intros Hx. now apply (list_getslice_In _ _ _ _ E).
Qed.

Lemma _apply_key_flat (res : list Json) (s : string) :
  _apply_key res s = flat_map (own_matches (IsStr s)) res.
Proof.
  unfold _apply_key, own_matches. rewrite _apply_star_flat_map.
  destruct (String.eqb s "*"); reflexivity.
Qed.

(** What a selector returns comes from its inputs. *)
Lemma select_sub (deep : bool) (k : KeyOrSlice) (res v : list Json) (x : Json) :
  select deep k res = Returns v -> In x v -> exists r, In r res /\ In x (nodes r).
Proof.
  destruct deep; simpl.
  - rewrite _recursive_descent_key_cases.
    destruct (descent_raises k _); [discriminate|]. intros [= <-] Hx.
    apply in_flat_map in Hx as (n & Hn & Hx).
    apply in_flat_map in Hn as (r & Hr & Hn).
    exists r. split; [exact Hr|].
    apply (nodes_trans x n r); [|exact Hn].
    apply nodes_child. now apply own_matches_children in Hx.
  - assert (Hflat : forall key, In x (flat_map (own_matches key) res) ->
                                exists r, In r res /\ In x (nodes r)).
    { intros key Hx. apply in_flat_map in Hx as (r & Hr & Hx).
      exists r. split; [exact Hr|].
      apply nodes_child. now apply own_matches_children in Hx. }
    destruct k as [s|sl].
    + intros [= <-]. rewrite _apply_key_flat. apply Hflat.
    + rewrite _apply_slice_cases. destruct (_ && _); [discriminate|].
      intros [= <-]. apply (Hflat (IsSlice sl)).
Qed.

Lemma child_sub (d0 : Json) (fuel : nat) :
  forall suf d res pre r',
    (String.length suf < fuel)%nat ->
    child fuel (cur d res pre suf) = (Returns tt, r') ->
    (forall x, In x res -> In x (nodes d0)) ->
    forall x, In x (results r') -> In x (nodes d0).
Proof.
  induction fuel as [|fuel IH]; intros suf d res pre r' Hfuel Hrun Hres; [lia|].
  rewrite child_unfold, at_end_cur in Hrun. destruct suf as [|c0 s0] eqn:Esuf.
  { injection Hrun as <-. exact Hres. }
  rewrite <- Esuf in *. assert (Hne : suf <> "") by (rewrite Esuf; discriminate).
  clear Esuf c0 s0.
  destruct (segment_spec suf Hne) as [Hfail|(deep & k & mid & rest & Hsuf & Hmid & Hsel)].
  - destruct (Hfail pre) as (e & mid & rest & _ & _ & Hraise).
    unfold bind in Hrun. rewrite Hraise in Hrun. discriminate.
  - specialize (Hsel d res pre "" I). rewrite !str_app_nil_r in Hsel.
    unfold bind in Hrun. rewrite Hsel in Hrun.
    destruct (select deep k res) as [v|e|] eqn:E; cbn [selected] in Hrun;
      try discriminate.
    apply (IH rest d v (pre ++ mid)%string r'); [|exact Hrun|].
    + pose proof (mid_shortens _ _ _ Hsuf Hmid). lia.
    + intros x Hx. destruct (select_sub _ _ _ _ _ E Hx) as (r & Hr & Hxr).
      apply (nodes_trans x r d0); auto.
Qed.

(** X5: every value a query returns is a value of the data: the data
    itself, or a value found at some depth inside it. *)
Theorem query_returns_values_of_data (d : Json) (p : string) (out : list Json) :
  query d p = Returns out -> forall x, In x out -> In x (nodes d).
Proof.
  intros H. apply query_returns_inv in H as (p0 & -> & Hchild).
  intros x Hx.
  apply (child_sub d (S (S (String.length p0))) p0 d (d :: nil) "$"
           (cur d out ("$" ++ p0) "")); [lia | exact Hchild | | exact Hx].
  intros y [<-|[]]. apply nodes_self.
Qed.

Lemma query_returns_values_of_data_witness :
  query (ints (1 :: 2 :: nil)%Z) "$[0]" = Returns (JInt 1 :: nil)
  /\ In (JInt 1) (nodes (ints (1 :: 2 :: nil)%Z)).
Proof.
  split; [reflexivity|].
  apply (query_returns_values_of_data (ints (1 :: 2 :: nil)%Z) "$[0]" (JInt 1 :: nil));
    [reflexivity | now left].
Defined.

(** ** Failures of [parse] *)

Lemma select_empties (deep : bool) (k : KeyOrSlice) (res : list Json) :
  empties res -> select deep k res = Returns nil.
Proof.
  intros H. destruct deep; simpl.
  - now apply _recursive_descent_key_empties.
  - destruct k; [now rewrite _apply_key_empties | now apply _apply_slice_empties].
Qed.

Lemma child_empties (fuel : nat) :
  forall suf d res pre,
    (String.length suf < fuel)%nat -> empties res ->
    match fst (child fuel (cur d res pre suf)) with
    | Returns _ => True
    | Raises e => path_error e
    | OutOfFuel => False
    end.
Proof.
  induction fuel as [|fuel IH]; intros suf d res pre Hfuel Hemp; [lia|].
  rewrite child_unfold, at_end_cur. destruct suf as [|c0 s0] eqn:Esuf; [exact I|].
  rewrite <- Esuf in *. assert (Hne : suf <> "") by (rewrite Esuf; discriminate).
  clear Esuf c0 s0.
  destruct (segment_spec suf Hne) as [Hfail|(deep & k & mid & rest & Hsuf & Hmid & Hsel)].
  - destruct (Hfail pre) as (e & mid & rest & He & _ & Hraise).
    unfold bind. now rewrite Hraise.
  - specialize (Hsel d res pre "" I). rewrite !str_app_nil_r in Hsel.
    unfold bind. rewrite Hsel, select_empties by exact Hemp. cbn [selected].
    apply IH; [|apply empties_nil].
    pose proof (mid_shortens _ _ _ Hsuf Hmid). lia.
Qed.

(** X2: [parse] always ends, and it either returns or raises one of the
    exceptions of a malformed path: a [ParseError], the [AssertionError]
    of [child] or a [ValueError] of [int] (no decimal literal, or more than
    4300 digits).  It never raises the [ValueError] of a slice whose step
    is zero.  The same holds where the calls of [child] may nest [depth]
    deep only, unless the run is cut short at that depth; the path is then
    longer than [depth]. *)
Theorem parse_failure_modes (p : string) :
  match parse p with
  | Returns _ => True
  | Raises e => path_error e
  | OutOfFuel => False
  end
  /\ forall depth : nat,
       match run_query depth (JObject nil) p with
       | Returns _ => True
       | Raises e => path_error e
       | OutOfFuel => (depth <= String.length p)%nat
       end.
Proof.
  assert (Hparse : match query (JObject nil) p with
                   | Returns _ => True
                   | Raises e => path_error e
                   | OutOfFuel => False
                   end).
  { destruct (decide (String.get 0 p = Some "$"%char)) as [Hd|Hd].
    2:{ now rewrite query_no_dollar by exact Hd. }
    destruct p as [|c p0]; [discriminate|]. simpl in Hd. injection Hd as ->.
    rewrite query_child.
    pose proof (child_empties (S (S (String.length p0))) p0 (JObject nil)
                  (JObject nil :: nil) "$" ltac:(lia)) as H.
    destruct (child _ _) as [[[]|e|] r']; simpl in H; apply H;
      now repeat constructor. }
  split.
  - unfold parse. destruct (query (JObject nil) p); exact Hparse.
  - intros depth.
    destruct (run_query_depth depth (JObject nil) p) as [->|[-> Hle]];
      [|exact Hle].
    destruct (query (JObject nil) p); [exact I | exact Hparse | contradiction].
Qed.

(** ** The cursor stays inside the path *)

(** The runner after a run of [JsonPathQueryRunner.query], whatever its
    outcome: the cursor stands somewhere in the path. *)
Lemma Runner_query_ends (d : Json) (p : string) :
  exists res mid rest,
    p = (mid ++ rest)%string
    /\ snd (Runner_query (S (String.length p)) (new_runner d p nil))
       = cur d res mid rest.
Proof.
  unfold Runner_query.
  rewrite new_runner_cur. unfold bind at 1. unfold get at 1.
  unfold bind at 1. unfold put at 1.
  change (set_results (data (cur d nil "" p) :: nil) (cur d nil "" p))
    with (cur d (d :: nil) "" p).
  assert (H : runs (consume "$" "at the beginning of JSONPath" ;;
                    child (S (String.length p)) ;;
                    r' <- get ;; ret (results r')) d (d :: nil) "" p).
  { apply runs_bind; [apply runs_consume|].
    intros [] res1 mid rest Hsuf _.
    apply runs_bind.
    { apply runs_child. rewrite Hsuf, str_length_app. lia. }
    intros [] res2 mid1 rest1 _ _. apply runs_get_bind.
    now apply (runs_here _ (Returns res2) _ _ res2). }
  destruct H as (o & res' & mid & rest & Hsuf & Hrun & _).
  exists res', mid, rest. split; [exact Hsuf|]. now rewrite Hrun.
Qed.

(** X6: when the [query] method of the runner has run, whatever its
    outcome, the runner holds the data and the path it was made with, its
    [idx] is between 0 and the length of the path, its [_curr] is the
    character of the path at [idx], and [at_end] holds exactly when
    [_curr] is [None]. *)
Theorem cursor_invariant (d : Json) (p : string) :
  let r := snd (Runner_query (S (String.length p)) (new_runner d p nil)) in
  data r = d /\ path r = p
  /\ (0 <= idx r <= Z.of_nat (String.length p))%Z
  /\ _curr r = String.get (Z.to_nat (idx r)) p
  /\ (at_end r = true <-> _curr r = None).
Proof.
  destruct (Runner_query_ends d p) as (res & mid & rest & Hp & Hr).
  cbv zeta. rewrite Hr, at_end_cur, _curr_cur, idx_cur. cbn [data path cur].
  rewrite Hp, str_length_app, Nat2Z.id, str_get_app_length.
  repeat split; try lia; destruct rest; try reflexivity; discriminate.
Qed.

(** ** The command line *)

(** A segment that starts with neither "." nor "[". *)
Lemma query_other_start (d : Json) (c : ascii) (rest : string) :
  c <> "."%char -> c <> "["%char ->
  query d (String "$" (String c rest))
  = Raises (AssertionError
              ("Expected '.' or '[' at pos: 2, got: '" ++ chr_str c ++ "'")).
Proof.
  intros Hdot Hbr. unfold query, run_query.
  rewrite Runner_query_after_root.
  cbn [String.length child]. unfold bind at 1 2 3. unfold get at 1.
  rewrite at_end_cur.
  unfold bind at 1. rewrite match_cur_miss by (simpl; congruence).
  unfold bind at 1. rewrite match_cur_miss by (simpl; congruence).
  reflexivity.
Qed.

Section CliFacts.
Variable loads : string -> outcome Json.
Variable dumps : list Json -> string.

(** X29: the command line, once the input is decoded.  It exits with
    status 0 exactly when the query returns, and it has then printed the
    encoded result; it exits with status 1 exactly when the query raises
    [ParseError], and it has then printed "ERROR: " and the message.  It
    catches nothing else: every other exception of the query escapes
    [main].  So a path whose first segment starts with neither "." nor
    "[", and the path "$[-]", do not end in the error exit but in an
    uncaught [AssertionError] and an uncaught [ValueError]. *)
Theorem main_exit_status (path stdin : string) (data : Json) :
  loads stdin = Returns data ->
  (fst (main loads dumps path stdin) = Returns 0%Z
   <-> exists out, query data path = Returns out)
  /\ (fst (main loads dumps path stdin) = Returns 1%Z
      <-> exists msg, query data path = Raises (ParseError msg))
  /\ (forall e, fst (main loads dumps path stdin) = Raises e
                <-> query data path = Raises e /\ forall msg, e <> ParseError msg)
  /\ (forall out, query data path = Returns out ->
                  snd (main loads dumps path stdin) = (dumps out ++ newline)%string)
  /\ (forall msg, query data path = Raises (ParseError msg) ->
                  snd (main loads dumps path stdin)
                  = ("ERROR: " ++ msg ++ newline)%string)
  /\ (forall c rest, c <> "."%char -> c <> "["%char ->
        fst (main loads dumps (String "$" (String c rest)) stdin)
        = Raises (AssertionError
                    ("Expected '.' or '[' at pos: 2, got: '" ++ chr_str c ++ "'")))
  /\ fst (main loads dumps "$[-]" stdin)
     = Raises (ValueError "invalid literal for int() with base 10: '-'").
Proof.
  intros Hloads.
  assert (Hpath :
    (fst (main loads dumps path stdin) = Returns 0%Z
     <-> exists out, query data path = Returns out)
    /\ (fst (main loads dumps path stdin) = Returns 1%Z
        <-> exists msg, query data path = Raises (ParseError msg))
    /\ (forall e, fst (main loads dumps path stdin) = Raises e
                  <-> query data path = Raises e /\ forall msg, e <> ParseError msg)
    /\ (forall out, query data path = Returns out ->
                    snd (main loads dumps path stdin) = (dumps out ++ newline)%string)
    /\ (forall msg, query data path = Raises (ParseError msg) ->
                    snd (main loads dumps path stdin)
                    = ("ERROR: " ++ msg ++ newline)%string)).
  { unfold main. rewrite Hloads.
    destruct (query data path) as [out|e0|]; [|destruct e0 as [m|m|m|m|m]|];
      cbn [fst snd].
    - split; [split; [eauto | reflexivity]|].
      split; [split; [discriminate | intros [msg H]; discriminate]|].
      split; [intros e; split; [discriminate | intros [H _]; discriminate]|].
      split; [intros out' [= <-]; reflexivity | intros msg H; discriminate].
    - split; [split; [discriminate | intros [out H]; discriminate]|].
      split; [split; [eauto | reflexivity]|].
      split; [intros e; split;
                [discriminate | intros [[= <-] H]; now destruct (H m)]|].
      split; [intros out H; discriminate | intros msg' [= <-]; reflexivity].
    - split; [split; [discriminate | intros [out H]; discriminate]|].
      split; [split; [discriminate | intros [msg' H]; discriminate]|].
      split; [intros e; split;
                [intros [= <-]; split; [reflexivity | intros msg'; discriminate]
                | intros [[= <-] _]; reflexivity]|].
      split; [intros out H; discriminate | intros msg' H; discriminate].
    - split; [split; [discriminate | intros [out H]; discriminate]|].
      split; [split; [discriminate | intros [msg' H]; discriminate]|].
      split; [intros e; split;
                [intros [= <-]; split; [reflexivity | intros msg'; discriminate]
                | intros [[= <-] _]; reflexivity]|].
      split; [intros out H; discriminate | intros msg' H; discriminate].
    - split; [split; [discriminate | intros [out H]; discriminate]|].
      split; [split; [discriminate | intros [msg' H]; discriminate]|].
      split; [intros e; split;
                [intros [= <-]; split; [reflexivity | intros msg'; discriminate]
                | intros [[= <-] _]; reflexivity]|].
      split; [intros out H; discriminate | intros msg' H; discriminate].
    - split; [split; [discriminate | intros [out H]; discriminate]|].
      split; [split; [discriminate | intros [msg' H]; discriminate]|].
      split; [intros e; split;
                [intros [= <-]; split; [reflexivity | intros msg'; discriminate]
                | intros [[= <-] _]; reflexivity]|].
      split; [intros out H; discriminate | intros msg' H; discriminate].
    - split; [split; [discriminate | intros [out H]; discriminate]|].
      split; [split; [discriminate | intros [msg H]; discriminate]|].
      split; [intros e; split; [discriminate | intros [H _]; discriminate]|].
      split; [intros out H; discriminate | intros msg H; discriminate]. }
  destruct Hpath as (H0 & H1 & He & Hout & Herr).
  split; [exact H0|]. split; [exact H1|]. split; [exact He|].
  split; [exact Hout|]. split; [exact Herr|]. split.
  - intros c rest Hdot Hbr. unfold main. rewrite Hloads.
    now rewrite query_other_start by assumption.
  - unfold main. rewrite Hloads. reflexivity.
Qed.

End CliFacts.

Lemma main_exit_status_witness :
  fst (main (fun _ => Returns JNull) (fun _ => "[null]") "$" "null") = Returns 0%Z
  <-> exists out, query JNull "$" = Returns out.
Proof.
  exact (proj1 (main_exit_status (fun _ => Returns JNull) (fun _ => "[null]")
                  "$" "null" JNull eq_refl)).
Defined.

(** ** Numerals with leading zeros *)

Lemma list_ascii_of_string_app (s t : string) :
  list_ascii_of_string (s ++ t) = list_ascii_of_string s ++ list_ascii_of_string t.
Proof.
  induction s as [|c s IH]; [reflexivity|].
  rewrite str_app_cons. cbn [list_ascii_of_string app]. now rewrite IH.
Qed.

Lemma zeros_list (k : nat) : list_ascii_of_string (zeros k) = repeat "0"%char k.
Proof. apply list_ascii_of_string_of_list_ascii. Qed.

Lemma zeros_decimal (k : nat) :
  forallb isdecimal (list_ascii_of_string (zeros k)) = true.
Proof. rewrite zeros_list. induction k; simpl; auto. Qed.

Lemma digits_value_zeros (k : nat) (ds : list ascii) :
  digits_value (repeat "0"%char k ++ ds) = digits_value ds.
Proof.
  unfold digits_value. rewrite fold_left_app. f_equal.
  induction k as [|k IH]; [reflexivity|]. exact IH.
Qed.

(** The digits of a numeral with leading zeros, as [int] reads them. *)
Lemma int_decimal_zeros (k : nat) (n : Z) :
  (0 <= n)%Z ->
  int_decimal (list_ascii_of_string (zeros k ++ str_int n)) = Some n.
Proof.
  intros Hn. rewrite str_int_sign.
  replace (n <? 0)%Z with false by (symmetry; apply Z.ltb_ge; lia).
  rewrite str_app_nil_l, list_ascii_of_string_app, zeros_list.
  pose proof (abs_digits_decimal n) as Hdec.
  pose proof (abs_digits_value n) as Hval.
  destruct (abs_digits_head n) as (c & s & Es & Hc).
  assert (Hall : forallb isdecimal
                   (repeat "0"%char k ++ list_ascii_of_string (abs_digits n)) = true).
  { rewrite forallb_app, Hdec, andb_true_r. rewrite <- zeros_list.
    apply zeros_decimal. }
  assert (Hv : digits_value (list_ascii_of_string (abs_digits n)) = n).
  { unfold int_digits in Hval. rewrite Es in *. cbn [list_ascii_of_string] in *.
    rewrite Hdec in Hval. injection Hval as ->. lia. }
  destruct (repeat "0"%char k ++ list_ascii_of_string (abs_digits n))
    as [|c0 l] eqn:E.
  { rewrite Es in E. destruct k; discriminate. }
  assert (Hc0 : isdecimal c0 = true).
  { cbn [forallb] in Hall. now apply andb_true_iff in Hall. }
  rewrite int_decimal_head by exact Hc0. unfold int_digits. rewrite Hall.
  now rewrite <- E, digits_value_zeros, Hv.
Qed.

Lemma zeros_leading_digits (k : nat) (n : Z) :
  (0 <= n)%Z ->
  Z.of_nat (leading_digits
              (int_unsigned (list_ascii_of_string (zeros k ++ str_int n))))
  = (Z.of_nat k + numeral_length n)%Z.
Proof.
  intros Hn. rewrite str_int_sign.
  replace (n <? 0)%Z with false by (symmetry; apply Z.ltb_ge; lia).
  rewrite str_app_nil_l, list_ascii_of_string_app, zeros_list.
  pose proof (abs_digits_decimal n) as Hdec.
  destruct (abs_digits_head n) as (c & s & Es & Hc).
  assert (Hall : forallb isdecimal
                   (repeat "0"%char k ++ list_ascii_of_string (abs_digits n)) = true).
  { rewrite forallb_app, Hdec, andb_true_r. rewrite <- zeros_list.
    apply zeros_decimal. }
  assert (Hlen : List.length (repeat "0"%char k ++ list_ascii_of_string (abs_digits n))
                 = (k + String.length (abs_digits n))%nat).
  { now rewrite List.length_app, repeat_length, length_list_ascii_of_string. }
  destruct (repeat "0"%char k ++ list_ascii_of_string (abs_digits n))
    as [|c0 l] eqn:E.
  { rewrite Es in E. destruct k; discriminate. }
  assert (Hc0 : isdecimal c0 = true).
  { cbn [forallb] in Hall. now apply andb_true_iff in Hall. }
  rewrite int_unsigned_head by exact Hc0.
  rewrite leading_digits_all by exact Hall. rewrite Hlen.
  unfold numeral_length. lia.
Qed.

Lemma int_zeros (k : nat) (n : Z) :
  (0 <= n)%Z ->
  (Z.of_nat k + numeral_length n <= int_max_str_digits)%Z ->
  int_ (list_ascii_of_string (zeros k ++ str_int n)) = IntValue n.
Proof.
  intros Hn Hlen.
  rewrite int_within by (now rewrite zeros_leading_digits).
  now rewrite int_decimal_zeros.
Qed.

Lemma zeros_numeric (k : nat) (n : Z) :
  (0 <= n)%Z ->
  forallb isnumeric (list_ascii_of_string (zeros k ++ str_int n)) = true.
Proof.
  intros Hn. rewrite str_int_sign.
  replace (n <? 0)%Z with false by (symmetry; apply Z.ltb_ge; lia).
  rewrite str_app_nil_l, list_ascii_of_string_app, forallb_app.
  apply andb_true_iff. split; apply forallb_forall; intros c Hc;
    apply isdecimal_isnumeric.
  - now apply (proj1 (forallb_forall _ _) (zeros_decimal k)).
  - now apply (proj1 (forallb_forall _ _) (abs_digits_decimal n)).
Qed.

Lemma zeros_head (k : nat) (n : Z) (suf : string) :
  (0 <= n)%Z ->
  exists c s, ((zeros k ++ str_int n) ++ suf)%string = String c s
              /\ isdecimal c = true.
Proof.
  intros Hn. destruct k as [|k].
  - unfold zeros. cbn [repeat string_of_list_ascii]. rewrite str_app_nil_l.
    destruct (str_int_head n) as (c & s & E & [->|Hc]).
    + rewrite str_int_sign in E.
      replace (n <? 0)%Z with false in E by (symmetry; apply Z.ltb_ge; lia).
      rewrite str_app_nil_l in E. destruct (abs_digits_head n) as (c' & s' & E' & Hc').
      rewrite E' in E. injection E as -> _. discriminate.
    + exists c, (s ++ suf)%string. rewrite E. now rewrite str_app_cons.
  - exists "0"%char, ((zeros k ++ str_int n) ++ suf)%string. split; [|reflexivity].
    unfold zeros. cbn [repeat string_of_list_ascii]. now rewrite !str_app_cons.
Qed.

Lemma num_zeros {D R : Type} (dd : D) (rr : R) (pre suf : string) (k : nat) (n : Z) :
  (0 <= n)%Z ->
  (Z.of_nat k + numeral_length n <= int_max_str_digits)%Z ->
  ends_number suf ->
  num (cur dd rr pre ((zeros k ++ str_int n) ++ suf))
  = (Returns (Some n), cur dd rr (pre ++ zeros k ++ str_int n) suf).
Proof.
  intros Hn Hlen Hend. rewrite num_cur.
  destruct (zeros_head k n suf Hn) as (c & s & E & Hc).
  assert (Hspan : str_span isnumeric ((zeros k ++ str_int n) ++ suf)
                  = ((zeros k ++ str_int n)%string, suf)).
  { rewrite str_span_ext by (right; exact Hend).
    now rewrite (str_span_whole _ _ (zeros_numeric k n Hn)). }
  assert (Htext : numeral_text ((zeros k ++ str_int n) ++ suf)
                  = (zeros k ++ str_int n)%string).
  { unfold numeral_text. rewrite E.
    destruct (Ascii.eqb_spec c "-") as [->|_]; [discriminate|].
    rewrite <- E. now rewrite Hspan. }
  assert (Hrest : numeral_rest ((zeros k ++ str_int n) ++ suf) = suf).
  { unfold numeral_rest. rewrite E.
    destruct (Ascii.eqb_spec c "-") as [->|_]; [discriminate|].
    rewrite <- E. now rewrite Hspan. }
  rewrite Htext, Hrest. unfold numeral_value.
  pose proof (int_zeros k n Hn Hlen) as Hi.
  destruct (list_ascii_of_string (zeros k ++ str_int n)) eqn:El; [discriminate|].
  now rewrite Hi.
Qed.

(** X18: zeros in front of a subscript are read away, as long as the
    zeros and the digits of the subscript are no more than 4300 together,
    the number of digits that [int] reads: "$[001]" is "$[1]". *)
Theorem query_leading_zeros (d : Json) (k : nat) (n : Z) :
  (0 <= n)%Z ->
  (Z.of_nat k + numeral_length n <= int_max_str_digits)%Z ->
  query d ("$[" ++ zeros k ++ str_int n ++ "]") = query d ("$[" ++ str_int n ++ "]").
Proof.
  intros Hn Hlen.
  rewrite query_bracket_subscript by (unfold short_numeral; apply Z.leb_le; lia).
  change ("$[" ++ zeros k ++ str_int n ++ "]")%string
    with (String "$" (String "[" (zeros k ++ str_int n ++ "]"))).
  rewrite <- str_app_assoc.
  eapply query_ends_with_slice
    with (fuel := S (String.length ((zeros k ++ str_int n) ++ "]"))).
  cbn [String.length]. rewrite child_bracket.
  destruct (zeros_head k n "]" Hn) as (c & s & E & Hc).
  assert (Hmiss : forall x, isdecimal x = false ->
                            String.get 0 ((zeros k ++ str_int n) ++ "]") <> Some x).
  { intros x Hx. rewrite E. simpl. intros [= ->]. congruence. }
  unfold bind at 1. unfold bracket.
  unfold bind at 1. rewrite match_cur_miss by (apply Hmiss; reflexivity).
  unfold bind at 1. rewrite match_cur_miss by (apply Hmiss; reflexivity).
  unfold bind at 1. rewrite match_cur_miss by (apply Hmiss; reflexivity).
  unfold bind at 1. unfold slice.
  unfold bind at 1. rewrite num_zeros by (auto; intros x [= <-]; reflexivity).
  unfold bind at 1. rewrite match_cur_miss by discriminate.
  fold (bare_subscript n).
  assert (Hbare : (if (n =? -1)%Z
                   then @ret (Runner Json (list Json)) _
                          (Some (mk_slice (Some n) None None))
                   else ret (Some (mk_slice (Some n) (Some (n + 1)%Z) None)))
                  = ret (Some (bare_subscript n))).
  { unfold bare_subscript. destruct (Z.eqb_spec n (-1)) as [->|_]; reflexivity. }
  rewrite Hbare. unfold ret at 1.
  unfold bind at 1. rewrite consume_cur_hit. unfold ret at 1.
  rewrite <- !str_app_assoc. reflexivity.
Qed.

Lemma query_leading_zeros_witness :
  query (ints (5 :: 6 :: nil)%Z) "$[001]" = query (ints (5 :: 6 :: nil)%Z) "$[1]".
Proof.
  apply (query_leading_zeros (ints (5 :: 6 :: nil)%Z) 2 1); [lia|].
  vm_compute. discriminate.
Defined.

(** ** The list a query returns is a new object *)

Section Fresh.
Variable h0 : Heap.store.

Lemma keeps_ret_fresh (l : Heap.loc) :
  l ∉ dom h0 -> keeps h0 (ret (Heap.VRef l)) (fresh_ref h0).
Proof. intros Hl. apply keeps_ret. now exists l. Qed.

Lemma fresh__apply_star (results : Heap.val) :
  keeps h0 (Heap._apply_star results) (fresh_ref h0).
Proof.
  unfold Heap._apply_star.
  eapply keeps_bind; [apply keeps_new_list | intros nr Hnr].
  eapply keeps_bind; [apply keeps_read_list | intros items _].
  eapply (keeps_bind _ _ _ any); [|intros _ _; now apply keeps_ret_fresh].
  apply keeps_for_each. intros result.
  eapply keeps_bind; [apply keeps_get | intros h _].
  eapply (keeps_bind _ _ _ any).
  { destruct (Heap.as_dict _ result); [now apply keeps_list_extend | now apply keeps_ret]. }
  intros _ _. eapply keeps_bind; [apply keeps_get | intros h' _].
  destruct (Heap.as_list _ result); [now apply keeps_list_extend | now apply keeps_ret].
Qed.

Lemma fresh__apply_key (results : Heap.val) (key : string) :
  keeps h0 (Heap._apply_key results key) (fresh_ref h0).
Proof.
  unfold Heap._apply_key. destruct (String.eqb key "*"); [apply fresh__apply_star|].
  eapply keeps_bind; [apply keeps_read_list | intros items _].
  eapply keeps_bind; [apply keeps_get | intros h _].
  eapply keeps_bind; [apply keeps_new_list | intros out Hout].
  now apply keeps_ret_fresh.
Qed.

Lemma fresh__apply_slice (results : Heap.val) (sl : PySlice) :
  keeps h0 (Heap._apply_slice results sl) (fresh_ref h0).
Proof.
  unfold Heap._apply_slice.
  eapply keeps_bind; [apply keeps_read_list | intros items _].
  eapply keeps_bind; [apply keeps_get | intros h _].
  destruct (Heap.slice_items h items sl);
    [|apply keeps_raise | apply keeps_out_of_fuel].
  eapply keeps_bind; [apply keeps_new_list | intros out Hout].
  now apply keeps_ret_fresh.
Qed.

Lemma fresh__recursive_descent_key (fuel : nat) (results : Heap.val) (key : KeyOrSlice) :
  keeps h0 (Heap._recursive_descent_key fuel results key) (fresh_ref h0).
Proof.
  unfold Heap._recursive_descent_key.
  eapply keeps_bind; [apply keeps_new_list | intros nr Hnr].
  eapply keeps_bind; [apply keeps_read_list | intros items _].
  eapply keeps_bind; [apply keeps_new_list | intros todo Htodo].
  eapply keeps_bind; [now apply keeps_rd_loop | intros _ _].
  now apply keeps_ret_fresh.
Qed.

Lemma fresh_run_here {A : Type} (m : Heap.Mh A) (o : outcome A) dv resv pre suf :
  (forall h, m (cur dv resv pre suf, h) = (o, (cur dv resv pre suf, h))) ->
  fresh_run h0 m dv resv pre suf.
Proof.
  intros Hm Hres h Hh. exists o, resv, "", suf, h.
  rewrite str_app_nil_r. auto.
Qed.

Lemma fresh_run_method {A : Type} (m : method A) dv resv pre suf :
  total m pre suf ->
  fresh_run h0 (Heap.on_runner (m Heap.val Heap.val)) dv resv pre suf.
Proof.
  intros (o & mid & rest & [_ Hm] & _) Hres h Hh.
  exists o, resv, mid, rest, h. unfold Heap.on_runner. rewrite Hm. auto.
Qed.

Lemma fresh_run_bind {A B : Type} (m : Heap.Mh A) (k : A -> Heap.Mh B)
      dv resv pre suf :
  fresh_run h0 m dv resv pre suf ->
  (forall a resv' mid rest, fresh_run h0 (k a) dv resv' (pre ++ mid) rest) ->
  fresh_run h0 (bind m k) dv resv pre suf.
Proof.
  intros Hm Hk Hres h Hh.
  destruct (Hm Hres h Hh) as (o & resv1 & mid & rest & h1 & Hrun & Hh1 & Hres1).
  unfold bind. rewrite Hrun. destruct o as [a|e|].
  - destruct (Hk a resv1 mid rest Hres1 h1 Hh1)
      as (o' & resv2 & mid' & rest' & h2 & Hrun' & Hh2 & Hres2).
    exists o', resv2, (mid ++ mid')%string, rest', h2.
    rewrite Hrun', str_app_assoc. auto.
  - exists (Raises e), resv1, mid, rest, h1. auto.
  - exists OutOfFuel, resv1, mid, rest, h1. auto.
Qed.

Lemma fresh_run_get_bind {A : Type} (k : Heap.hrunner -> Heap.Mh A) dv resv pre suf :
  fresh_run h0 (k (cur dv resv pre suf)) dv resv pre suf ->
  fresh_run h0 (bind (Heap.on_runner get) k) dv resv pre suf.
Proof. intros H. exact H. Qed.

Lemma fresh_run_update_results (f : Heap.val -> ST Heap.store Heap.val)
      dv resv pre suf :
  (forall v, keeps h0 (f v) (fresh_ref h0)) ->
  fresh_run h0 (Heap.update_results f) dv resv pre suf.
Proof.
  intros Hf Hres h Hh. unfold Heap.update_results, bind, Heap.on_runner, Heap.on_store, get, put.
  change (results (cur dv resv pre suf)) with resv.
  destruct (Hf resv h Hh) as [Hsub Hret].
  destruct (f resv h) as [[v|e|] h1]; simpl in *.
  - exists (Returns tt), v, "", suf, h1. rewrite str_app_nil_r.
    split; [reflexivity|]. split; [exact Hsub|]. now apply Hret.
  - exists (Raises e), resv, "", suf, h1. rewrite str_app_nil_r. auto.
  - exists OutOfFuel, resv, "", suf, h1. rewrite str_app_nil_r. auto.
Qed.

Lemma fresh_run_apply_selector (k : KeyOrSlice) dv resv pre suf :
  fresh_run h0 (Heap.apply_selector k) dv resv pre suf.
Proof.
  destruct k as [s|sl]; apply fresh_run_update_results; intros v;
    [apply fresh__apply_key | apply fresh__apply_slice].
Qed.

Lemma fresh_run_match_ (c : ascii) dv resv pre suf :
  fresh_run h0 (Heap.on_runner (match_ c)) dv resv pre suf.
Proof. apply (fresh_run_method (fun D R => @match_ D R c)), total_match_. Qed.

Lemma fresh_run_key dv resv pre suf :
  fresh_run h0 (Heap.on_runner key) dv resv pre suf.
Proof. apply (fresh_run_method (@key)), total_key. Qed.

Lemma fresh_run_bracket dv resv pre suf :
  fresh_run h0 (Heap.on_runner bracket) dv resv pre suf.
Proof. apply (fresh_run_method (@bracket)), total_bracket. Qed.

Lemma fresh_run_recursive_descent (fuel : nat) dv resv pre suf :
  fresh_run h0 (Heap.recursive_descent fuel) dv resv pre suf.
Proof.
  unfold Heap.recursive_descent.
  apply fresh_run_bind; [apply fresh_run_match_|]. intros b resv1 mid rest.
  apply fresh_run_bind.
  { destruct b; [apply fresh_run_bracket | apply fresh_run_key]. }
  intros k resv2 mid1 rest1. apply fresh_run_update_results.
  intros v. apply fresh__recursive_descent_key.
Qed.

Lemma fresh_run_child (rd_fuel fuel : nat) :
  forall dv resv pre suf, fresh_run h0 (Heap.child rd_fuel fuel) dv resv pre suf.
Proof.
  induction fuel as [|fuel IH]; intros dv resv pre suf.
  { now apply (fresh_run_here _ OutOfFuel). }
  cbn [Heap.child]. apply fresh_run_get_bind. rewrite at_end_cur.
  destruct suf as [|c0 suf0]; [now apply (fresh_run_here _ (Returns tt))|].
  apply fresh_run_bind; [apply fresh_run_match_|].
  intros dot resv1 mid rest. destruct dot.
  - apply fresh_run_bind; [apply fresh_run_match_|].
    intros dot2 resv2 mid1 rest1.
    apply fresh_run_bind; [|intros [] resv3 mid2 rest2; apply IH].
    destruct dot2; [apply fresh_run_recursive_descent|].
    apply fresh_run_bind; [apply fresh_run_key|].
    intros k resv3 mid2 rest2. apply fresh_run_apply_selector.
  - apply fresh_run_bind; [apply fresh_run_match_|].
    intros br resv2 mid1 rest1. destruct br.
    + apply fresh_run_bind; [apply fresh_run_bracket|].
      intros k resv3 mid2 rest2.
      apply fresh_run_bind; [apply fresh_run_apply_selector|].
      intros [] resv4 mid3 rest3. apply IH.
    + apply fresh_run_get_bind.
      now apply (fresh_run_here _ (Raises (AssertionError
                   (unexpected_msg (cur dv resv2 ((pre ++ mid) ++ mid1) rest1))))).
Qed.

End Fresh.

(** X28: the list a query returns is a new object, made during the call:
    it is none of the objects the caller's store held, so neither the data
    nor a list or dict inside it is ever handed back as the result
    list. *)
Theorem heap_query_returns_new_list (rd_fuel : nat) (dv : Heap.val) (p : string)
        (h h' : Heap.store) (v : Heap.val) :
  Heap.query rd_fuel dv p h = (Returns v, h') ->
  exists l, v = Heap.VRef l /\ (l ∉ dom h).
Proof.
  unfold Heap.query. unfold bind at 1. rewrite new_list_eq.
  set (res0 := fresh (dom h)). set (h1 := <[res0 := Heap.OList nil]> h).
  assert (Hsub1 : h ⊆ h1) by apply insert_fresh_extends.
  rewrite new_runner_cur. unfold Heap.Runner_query.
  unfold bind at 1. unfold Heap.on_runner at 1. unfold get at 1.
  unfold bind at 1. unfold Heap.on_store at 1. rewrite new_list_eq.
  change (data (cur dv (Heap.VRef res0) "" p)) with dv.
  set (root := fresh (dom h1)). set (h2 := <[root := Heap.OList (dv :: nil)]> h1).
  assert (Hsub2 : h ⊆ h2).
  { transitivity h1; [exact Hsub1 | apply insert_fresh_extends]. }
  unfold bind at 1. unfold Heap.on_runner at 1. unfold put at 1.
  change (set_results (Heap.VRef root) (cur dv (Heap.VRef res0) "" p))
    with (cur dv (Heap.VRef root) "" p).
  assert (Hroot : fresh_ref h (Heap.VRef root)).
  { exists root. split; [reflexivity|]. intros Hin.
    apply (is_fresh (dom h1)). fold root.
    now apply (subseteq_dom h h1 Hsub1). }
  destruct (fresh_run_method h (fun D R => @consume D R "$"%char
                                             "at the beginning of JSONPath")
              dv (Heap.VRef root) "" p (total_consume _ _ _ _) Hroot h2 Hsub2)
    as (o1 & resv1 & mid1 & rest1 & h3 & Hq1 & Hsub3 & Hres1).
  unfold bind at 1. rewrite Hq1. destruct o1 as [[]|e|]; [|discriminate|discriminate].
  destruct (fresh_run_child h rd_fuel (S (String.length p)) dv resv1
              ("" ++ mid1)%string rest1 Hres1 h3 Hsub3)
    as (o2 & resv2 & mid2 & rest2 & h4 & Hq2 & Hsub4 & Hres2).
  unfold bind at 1. rewrite Hq2. destruct o2 as [[]|e|]; [|discriminate|discriminate].
  unfold bind, Heap.on_runner, get, ret. cbn [results cur].
  intros [= <- <-]. exact Hres2.
Qed.

Lemma heap_query_returns_new_list_witness :
  exists l, Heap.VRef 4%positive = Heap.VRef l /\ (l ∉ dom sample_store).
Proof.
  apply (heap_query_returns_new_list 10 (Heap.VRef 2%positive) "$" sample_store
           (snd (Heap.query 10 (Heap.VRef 2%positive) "$" sample_store))).
  vm_compute. reflexivity.
Defined.

(** ** Whole and reversed slices *)

Lemma flat_map_ext_on {A B : Type} (f g : A -> list B) (l : list A) :
  (forall a, In a l -> f a = g a) -> flat_map f l = flat_map g l.
Proof.
  induction l as [|x l IH]; intros H; [reflexivity|].
  cbn [flat_map]. rewrite (H x) by now left.
  rewrite IH; [reflexivity|]. intros a Ha. apply H. now right.
Qed.

Lemma rev_range {A : Type} (l : list A) :
  flat_map (fun i => match nth_error l (List.length l - 1 - i) with
                     | Some x => x :: nil
                     | None => nil
                     end) (seq 0 (List.length l))
  = rev l.
Proof.
  induction l as [|x l IH] using rev_ind; [reflexivity|].
  rewrite length_app, rev_app_distr. cbn [List.length rev app].
  replace (List.length l + 1)%nat with (S (List.length l)) by lia.
  cbn [seq flat_map].
  replace (S (List.length l) - 1 - 0)%nat with (List.length l) by lia.
  rewrite nth_error_app2, Nat.sub_diag by lia. cbn [nth_error app]. f_equal.
  rewrite <- IH, <- seq_shift, flat_map_concat_map, map_map, <- flat_map_concat_map.
  apply flat_map_ext_on. intros i Hi. apply in_seq in Hi.
  replace (S (List.length l) - 1 - S i)%nat with (List.length l - 1 - i)%nat by lia.
  now rewrite nth_error_app1 by lia.
Qed.

Lemma list_getslice_reverse {A : Type} (l : list A) :
  list_getslice l (mk_slice None None (Some (-1)%Z)) = Some (rev l).
Proof.
  unfold list_getslice, slice_indices. cbn [step start stop default from_option id].
  change (-1 =? 0)%Z with false. change (-1 <? 0)%Z with true. cbv iota.
  f_equal. rewrite <- rev_range. unfold slice_length.
  change (-1 <? 0)%Z with true. cbv iota.
  destruct l as [|x l]; [reflexivity|].
  set (n := List.length (x :: l)).
  assert (Hn : (0 < n)%nat) by (unfold n; simpl; lia).
  destruct (Z.ltb_spec (-1) (Z.of_nat n - 1)) as [_|Hge]; [|lia].
  change (- -1)%Z with 1%Z. rewrite Z.div_1_r.
  replace (Z.to_nat (Z.of_nat n - 1 - -1 - 1 + 1)) with n by lia.
  apply flat_map_ext_on. intros i Hi. apply in_seq in Hi.
  now replace (Z.to_nat (Z.of_nat n - 1 + Z.of_nat i * -1)) with (n - 1 - i)%nat by lia.
Qed.

(** X17: on a list, "$[::-1]" returns the items in reverse order and
    "$[:]" returns them all, in order. *)
Theorem query_reverse_slice (l : list Json) :
  query (JArray l) "$[::-1]" = Returns (rev l)
  /\ query (JArray l) "$[:]" = Returns l.
Proof.
  split.
  - rewrite (query_ends_with_slice (JArray l) "[::-1]"
               (mk_slice None None (Some (-1)%Z)) "$[::-1]" 6) by reflexivity.
    cbn [_apply_slice]. rewrite list_getslice_reverse. now rewrite app_nil_r.
  - rewrite (query_ends_with_slice (JArray l) "[:]"
               (mk_slice None None None) "$[:]" 3) by reflexivity.
    cbn [_apply_slice].
    assert (H : list_getslice l (mk_slice None None None) = Some l).
    { unfold list_getslice, slice_indices. cbn [step start stop default].
      change (1 =? 0)%Z with false. change (1 <? 0)%Z with false. cbv iota.
      f_equal. rewrite getslice_unit_step by lia.
      rewrite Z.sub_0_r, Nat2Z.id. cbn [Z.to_nat skipn]. apply firstn_all. }
    rewrite H. now rewrite app_nil_r.
Qed.

(** ** Brackets that are not closed *)

(** X24: a bracket that is not closed raises [ParseError]: after "*",
    and after a subscript that [int] reads (at most 4300 digits), with the
    position where "]" was expected. *)
Theorem query_unclosed_bracket (d : Json) (i : Z) (suf : string) :
  String.get 0 suf <> Some "]"%char ->
  query d ("$[*" ++ suf) = Raises (ParseError "Expected ']' after '*' (pos 3).")
  /\ (short_numeral i = true ->
      ends_number suf -> String.get 0 suf <> Some ":"%char ->
      query d ("$[" ++ str_int i ++ suf)
      = Raises (ParseError
                  ("Expected ']' after numerical subscript or slice (pos "
                   ++ str_int (2 + Z.of_nat (String.length (str_int i))) ++ ").")
               )).
Proof.
  intros Hclose. split.
  - change ("$[*" ++ suf)%string with (String "$" (String "[" (String "*" suf))).
    rewrite query_child. cbn [String.length]. rewrite child_bracket.
    unfold bind at 1. unfold bracket.
    unfold bind at 1. rewrite match_cur_hit.
    unfold bind at 1. rewrite consume_cur_miss by exact Hclose. reflexivity.
  - intros Hshort Hend Hcolon.
    change ("$[" ++ str_int i ++ suf)%string
      with (String "$" (String "[" (str_int i ++ suf))).
    rewrite query_child. cbn [String.length]. rewrite child_bracket.
    unfold bind at 1. rewrite bracket_number.
    unfold bind at 1. rewrite slice_bare by assumption.
    unfold bind at 1. rewrite consume_cur_miss by exact Hclose.
    rewrite str_length_app. change (String.length ("$" ++ "[")) with 2%nat.
    replace (Z.of_nat (2 + String.length (str_int i)))
      with (2 + Z.of_nat (String.length (str_int i)))%Z by lia.
    reflexivity.
Qed.

Lemma query_unclosed_bracket_witness :
  query JNull "$[*" = Raises (ParseError "Expected ']' after '*' (pos 3).")
  /\ query JNull ("$[" ++ str_int 12 ++ ".a")
     = Raises (ParseError
                 "Expected ']' after numerical subscript or slice (pos 4).").
Proof.
  split.
  - apply (query_unclosed_bracket JNull 0 ""). discriminate.
  - apply (query_unclosed_bracket JNull 12 ".a");
      [discriminate | reflexivity | intros c [= <-]; reflexivity | discriminate].
Defined.

(** ** Data without children *)

Lemma select_barren (deep : bool) (k : KeyOrSlice) (d : Json) :
  barren d = true -> select deep k (d :: nil) = Returns nil.
Proof.
  intros Hd.
  assert (Hown : own_matches k d = nil).
  { destruct k as [nm|sl]; unfold own_matches.
    - destruct (String.eqb nm "*");
        destruct d as [| | | | |[|kv items]|]; try discriminate; reflexivity.
    - destruct d as [| | | | |[|kv items]|]; try discriminate; reflexivity. }
  assert (Hnodes : nodes d = d :: nil).
  { destruct d as [| | | | |[|kv items]|]; try discriminate; reflexivity. }
  assert (Hlist : is_list d = false).
  { destruct d as [| | | | |[|kv items]|]; try discriminate; reflexivity. }
  destruct deep; unfold select.
  - rewrite _recursive_descent_key_cases. cbn [flat_map]. rewrite app_nil_r, Hnodes.
    cbn [flat_map]. rewrite Hown.
    destruct k as [nm|sl]; cbn [descent_raises existsb]; [reflexivity|].
    now rewrite Hlist, andb_false_r.
  - destruct k as [nm|sl].
    + rewrite _apply_key_flat. cbn [flat_map]. now rewrite Hown.
    + rewrite _apply_slice_cases. cbn [existsb flat_map].
      rewrite Hlist. cbn [orb]. rewrite andb_false_r.
      change (slice_matches sl d) with (own_matches (IsSlice sl) d).
      now rewrite Hown.
Qed.

(** X19: on data with no children, a scalar or the empty dict, every
    path that parses, but "$" alone, returns the empty list. *)
Theorem query_on_scalar (d : Json) (p : string) :
  barren d = true -> parse p = Returns tt -> p <> "$" ->
  query d p = Returns nil.
Proof.
  intros Hd Hparse Hp. unfold parse in Hparse.
  destruct (query (JObject nil) p) as [out| |] eqn:E; try discriminate.
  apply query_returns_inv in E as (p0 & -> & Hchild).
  assert (Hne : p0 <> "") by (intros ->; now apply Hp).
  rewrite query_child.
  set (F := S (String.length p0)) in *.
  rewrite child_unfold, at_end_cur in Hchild |- *.
  assert (Hend : match p0 with "" => true | _ => false end = false)
    by (destruct p0; congruence).
  rewrite Hend in *.
  destruct (segment_spec p0 Hne) as [Hfail|(deep & k & mid & rest & Hsuf & Hmid & Hsel)].
  { destruct (Hfail "$") as (e & mid & rest & _ & _ & Hraise).
    unfold bind in Hchild. rewrite Hraise in Hchild. discriminate. }
  pose proof (Hsel (JObject nil) (JObject nil :: nil) "$" "" I) as H0.
  pose proof (Hsel d (d :: nil) "$" "" I) as H1.
  rewrite !str_app_nil_r in H0, H1.
  unfold bind in Hchild |- *. rewrite H0 in Hchild. rewrite H1.
  rewrite select_barren in Hchild by reflexivity.
  rewrite select_barren by exact Hd. cbn [selected] in *.
  pose proof (mid_shortens _ _ _ Hsuf Hmid) as Hlen.
  assert (HF : (String.length rest < F)%nat) by (unfold F; lia).
  pose proof (child_hom F rest (JObject nil) d d nil nil ("$" ++ mid) ("$" ++ mid)
                ("$" ++ mid) HF) as Hhom.
  cbn [app] in Hhom. rewrite Hchild in Hhom. cbn [outs fst snd results cur] in Hhom.
  destruct (outs (child F (cur d nil ("$" ++ mid) rest))) as [a|] eqn:Ea;
    [|discriminate].
  pose proof (child_hom F rest d d d nil nil ("$" ++ mid) ("$" ++ mid)
                ("$" ++ mid) HF) as Hsq.
  cbn [app] in Hsq. rewrite Ea in Hsq. injection Hsq as Hsq.
  apply (f_equal (@List.length Json)) in Hsq. rewrite length_app in Hsq.
  assert (a = nil) as -> by (destruct a; [reflexivity | simpl in Hsq; lia]).
  unfold outs in Ea.
  destruct (child F (cur d nil ("$" ++ mid) rest)) as [[[]|e|] r']; simpl in Ea;
    try discriminate.
  now injection Ea as ->.
Qed.

Lemma query_on_scalar_witness : query (JInt 7) "$.a[0]..b" = Returns nil.
Proof.
  apply (query_on_scalar (JInt 7) "$.a[0]..b"); [reflexivity | reflexivity | discriminate].
Defined.
